(** * ga.cpp: a genetic algorithm for the travelling salesman problem

    A shallow embedding of [src/ga.cpp] and the properties of its evolutionary
    operators.

    Conventions of the embedding.
    - [unsigned int] values that take part in arithmetic are integers of [Z]
      reduced modulo [2^32] ([wrap32]); vector positions and city numbers,
      which the program only compares and uses as subscripts, are [nat].
    - [double] is the kernel's binary64 type [float]; [sqrt], [+], [/], [*]
      and the comparisons are the IEEE 754 operations the program runs.
    - [rand()] reads a stream of draws.  A run is given a finite prefix of
      that stream (a [list Z]) and returns the unread rest; a run that asks
      for more draws than it was given is [Starved].
    - A subscript past the end of a vector, [%] by zero and dereferencing
      [end()] are undefined behaviour: [None] in pure code, [Undefined] in
      code that draws random numbers.
    - Of [main], the branch that evolves is modelled, without its output
      and its clock.  Of [tourToBMP], the calls it makes on the bitmap
      library are modelled, in their order and with their arguments. *)

From Stdlib Require Import ZArith List Lia Bool Arith PeanoNat Permutation.
From Stdlib Require Import Floats Uint63.
From Stdlib Require String.
Import ListNotations.

(** ** Outcomes of a run and the random stream *)

Inductive result (A : Type) : Type :=
| Ok (a : A)
| Undefined
| Starved.

Arguments Ok {A} a.
Arguments Undefined {A}.
Arguments Starved {A}.

(** A computation that draws from the random stream. *)
Definition Rand (A : Type) : Type := list Z -> result (A * list Z).

Definition ret {A} (a : A) : Rand A := fun rs => Ok (a, rs).

Definition bind {A B} (c : Rand A) (k : A -> Rand B) : Rand B :=
  fun rs =>
    match c rs with
    | Ok (a, rs') => k a rs'
    | Undefined => Undefined
    | Starved => Starved
    end.

Definition undefined {A} : Rand A := fun _ => Undefined.

(** Pure code whose [None] is undefined behaviour, run inside [Rand]. *)
Definition lift {A} (o : option A) : Rand A :=
  match o with
  | Some a => ret a
  | None => undefined
  end.

Declare Scope rand_scope.
Delimit Scope rand_scope with rand.
Notation "x <- c ;; k" := (bind c (fun x => k))
  (at level 61, c at next level, right associativity) : rand_scope.
Notation "' pat <- c ;; k" := (bind c (fun x => match x with pat => k end))
  (at level 61, pat pattern, c at next level, right associativity) : rand_scope.
Local Open Scope rand_scope.

(** [rand()]: the next draw of the stream. *)
Definition rand : Rand Z :=
  fun rs =>
    match rs with
    | [] => Starved
    | r :: rs' => Ok (r, rs')
    end.

(** glibc's [RAND_MAX]. *)
Definition RAND_MAX : Z := 2147483647.

(** Arithmetic of [unsigned int]. *)
Definition wrap32 (z : Z) : Z := z mod 2 ^ 32.

(** An [unsigned int], or a non-negative [int], converted to [double]. *)
Definition to_double (z : Z) : float := PrimFloat.of_uint63 (Uint63.of_Z z).

(** [randomIndex(a, b)]: [(rand() % (b - a)) + a] on [unsigned int]. *)
Definition randomIndex (a b : Z) : Rand Z :=
  r <- rand ;;
  let d := wrap32 (b - a) in
  if (d =? 0)%Z then undefined
  else ret (wrap32 (wrap32 r mod d + a)).

(** [randomDouble(a, b)]:
    [(static_cast<double>(rand()) / RAND_MAX) * (b - a) + a]. *)
Definition randomDouble (a b : float) : Rand float :=
  r <- rand ;;
  ret ((to_double r / to_double RAND_MAX) * (b - a) + a)%float.

(** ** City and Map *)

Record City : Type := mkCity { x : Z; y : Z }.

(** [operator ==] on cities. *)
Definition City_eqb (a b : City) : bool :=
  ((x a =? x b) && (y a =? y b))%Z.

(** [distanceBetweenCities]: the sum of squares is computed on
    [unsigned int], then converted for [sqrt]. *)
Definition distanceBetweenCities (a b : City) : float :=
  let dx := wrap32 (x a - x b) in
  let dy := wrap32 (y a - y b) in
  PrimFloat.sqrt (to_double (wrap32 (wrap32 (dx * dx) + wrap32 (dy * dy)))).

(** [class Map : public vector<City>] with [_width] and [_height]. *)
Record Map : Type := mkMap {
  cities : list City;
  _width : Z;
  _height : Z
}.

Definition size (m : Map) : nat := length (cities m).

(** [City(width, height)]: [x = rand() % width; y = rand() % height]. *)
Definition City_random (width height : Z) : Rand City :=
  rx <- rand ;;
  (if (width =? 0)%Z then undefined else
   ry <- rand ;;
   if (height =? 0)%Z then undefined else
   ret (mkCity (wrap32 rx mod width) (wrap32 ry mod height))).

(** [find(begin(), end(), city) == end()]. *)
Definition City_absent (c : City) (l : list City) : bool :=
  negb (existsb (City_eqb c) l).

(** The loop of the constructor [Map(w, h, n)]:
    [while (size() < n) { City city(_width, _height); if (absent) push_back(city); }].
    Every pass draws one city, so the loop is a recursion on the draws it is
    given; the two draws of [City_random] are written out. *)
Fixpoint Map_fill (w h : Z) (n : nat) (acc : list City) (rs : list Z)
  : result (list City * list Z) :=
  if n <=? length acc then Ok (acc, rs)
  else
    match rs with
    | [] => Starved
    | rx :: rs1 =>
        if (w =? 0)%Z then Undefined
        else
          match rs1 with
          | [] => Starved
          | ry :: rs2 =>
              if (h =? 0)%Z then Undefined
              else
                let city := mkCity (wrap32 rx mod w) (wrap32 ry mod h) in
                Map_fill w h n
                  (if City_absent city acc then acc ++ [city] else acc) rs2
          end
    end.

(** [Map::Map(w, h, n)]. *)
Definition Map_new (w h : Z) (n : nat) : Rand Map :=
  cs <- Map_fill w h n [] ;;
  ret (mkMap cs w h).

(** [Map::distance(i, j)]: [distanceBetweenCities] of the elements at [i] and [j]. *)
Definition distance (m : Map) (i j : nat) : option float :=
  match nth_error (cities m) i, nth_error (cities m) j with
  | Some a, Some b => Some (distanceBetweenCities a b)
  | _, _ => None
  end.

(** ** Tour *)

(** The loop of [lengthOfItinerary]:
    [for (i = 1; i < size; i++) length += map.distance(itinerary[i-1], itinerary[i])],
    with [prev] the element at [i - 1] and [rest] the elements from [i] on. *)
Fixpoint length_loop (m : Map) (prev : nat) (rest : list nat) (len : float)
  : option float :=
  match rest with
  | [] => Some len
  | c :: rest' =>
      match distance m prev c with
      | Some d => length_loop m c rest' (len + d)%float
      | None => None
      end
  end.

(** [lengthOfItinerary(itinerary, map)]: starts from
    [map.distance(itinerary[0], itinerary.back())]. *)
Definition lengthOfItinerary (itinerary : list nat) (m : Map) : option float :=
  match itinerary with
  | [] => None
  | c0 :: rest =>
      match distance m c0 (last itinerary c0) with
      | Some d0 => length_loop m c0 rest d0
      | None => None
      end
  end.

(** [class Tour : public vector<unsigned int>] with the cached [_length]. *)
Record Tour : Type := mkTour {
  itinerary : list nat;
  _length : float
}.

(** [Tour(itinerary, map)]. *)
Definition Tour_of (it : list nat) (m : Map) : option Tour :=
  match lengthOfItinerary it m with
  | Some len => Some (mkTour it len)
  | None => None
  end.

(** [vec[i] = v] on a position inside the vector. *)
Fixpoint set_nth {A} (l : list A) (i : nat) (v : A) : list A :=
  match l, i with
  | [], _ => []
  | _ :: l', O => v :: l'
  | a :: l', S i' => a :: set_nth l' i' v
  end.

(** [swap(vec[i], vec[j])]. *)
Definition swap_at {A} (l : list A) (i j : nat) : option (list A) :=
  match nth_error l i, nth_error l j with
  | Some a, Some b => Some (set_nth (set_nth l i b) j a)
  | _, _ => None
  end.

(** [std::random_shuffle(first, last)] without a generator, as libstdc++
    has it:
    [for (i = first + 1; i != last; ++i)
       { j = first + rand() % ((i - first) + 1); if (i != j) iter_swap(i, j); }].
    [shuffle_loop k i l] runs the [k] passes that start at position [i]. *)
Fixpoint shuffle_loop {A} (k i : nat) (l : list A) : Rand (list A) :=
  match k with
  | O => ret l
  | S k' =>
      r <- rand ;;
      let j := Z.to_nat (r mod (Z.of_nat i + 1)) in
      l' <- lift (if j =? i then Some l else swap_at l i j) ;;
      shuffle_loop k' (S i) l'
  end.

Definition random_shuffle {A} (l : list A) : Rand (list A) :=
  shuffle_loop (length l - 1) 1 l.

(** [Tour(map)]: the itinerary [0, 1, ..., size - 1] with all but its first
    element shuffled ([random_shuffle(begin() + 1, end())], whose range is
    ill-formed for an empty map). *)
Definition Tour_random (m : Map) : Rand Tour :=
  match seq 0 (size m) with
  | [] => undefined
  | c0 :: rest =>
      rest' <- random_shuffle rest ;;
      lift (Tour_of (c0 :: rest') m)
  end.

(** The elements at positions [first], ..., [last - 1]. *)
Definition slice {A} (l : list A) (first last : nat) : list A :=
  firstn (last - first) (skipn first l).

(** [reverse(begin() + first, begin() + last)]. *)
Definition reverse_range {A} (l : list A) (first last : nat) : option (list A) :=
  if (first <=? last) && (last <=? length l)
  then Some (firstn first l ++ rev (slice l first last) ++ skipn last l)
  else None.

(** [rotate(begin() + first, begin() + middle, begin() + last)]. *)
Definition rotate_range {A} (l : list A) (first middle last : nat)
  : option (list A) :=
  if (first <=? middle) && (middle <=? last) && (last <=? length l)
  then Some (firstn first l ++ slice l middle last ++ slice l first middle
               ++ skipn last l)
  else None.

(** The [while (true)] loop of [Tour::mutate]: every pass draws the kind of
    mutation, so the loop is a recursion on the draws it is given.  It
    returns the kind and the mutated itinerary. *)
Fixpoint mutate_loop (i j : Z) (it : list nat) (rs : list Z)
  : result ((Z * list nat) * list Z) :=
  match rs with
  | [] => Starved
  | r :: rs' =>
      let mutation := (r mod 3)%Z in
      if (mutation =? 0)%Z then
        lift (option_map (pair mutation) (swap_at it (Z.to_nat i) (Z.to_nat j))) rs'
      else if (mutation =? 1)%Z then
        lift (option_map (pair mutation)
                (reverse_range it (Z.to_nat i) (Z.to_nat j + 1))) rs'
      else if (2 <? wrap32 (j - i))%Z then
        (k <- randomIndex (wrap32 (i + 1)) j ;;
         lift (option_map (pair mutation)
                 (rotate_range it (Z.to_nat i) (Z.to_nat k) (Z.to_nat j + 1)))) rs'
      else mutate_loop i j it rs'
  end.

(** [Tour::mutate(p, map)]: the kind of mutation ([-1] for none) and the
    tour afterwards. *)
Definition mutate (t : Tour) (p : float) (m : Map) : Rand (Z * Tour) :=
  d <- randomDouble 0 1 ;;
  if (p <? d)%float then ret ((-1)%Z, t)
  else
    let n := Z.of_nat (length (itinerary t)) in
    i <- randomIndex 1 (wrap32 (n - 1)) ;;
    j <- randomIndex (wrap32 (i + 1)) (wrap32 n) ;;
    ' (mutation, it') <- mutate_loop i j (itinerary t) ;;
    len <- lift (lengthOfItinerary it' m) ;;
    ret (mutation, mkTour it' len).

(** ** Crossover *)

(** [find(itinerary.begin(), itinerary.end(), c) != itinerary.end()]. *)
Definition visited (itin : list nat) (c : nat) : bool :=
  existsb (Nat.eqb c) itin.

(** [while (find(..., a[i]) != itinerary.end()) i++]: the position the
    cursor stops at.  Reading [a[i]] at [i = a.size()] is undefined; the
    cursor moves at most [a.size()] times before that, which is what [fuel]
    counts. *)
Fixpoint advance (fuel : nat) (a itin : list nat) (i : nat) : option nat :=
  match nth_error a i with
  | None => None
  | Some c =>
      if visited itin c then
        match fuel with
        | O => None
        | S fuel' => advance fuel' a itin (S i)
        end
      else Some i
  end.

(** The variables of [sex]: the cursors [i] and [j] and the itinerary
    under construction. *)
Record sex_state : Type := mkSex {
  cur_i : nat;
  cur_j : nat;
  itin : list nat
}.

Definition sex_init : sex_state := mkSex 1 1 [0].

(** The branch a pass of the loop of [sex] takes. *)
Inductive branch : Type :=
| EndOfA      (* i == a.size() *)
| EndOfB      (* j == b.size() *)
| NearerA     (* distance(back, a[i]) < distance(back, b[j]) *)
| NoWorseB.   (* otherwise *)

(** One pass of the loop of [sex]: the branch taken, the positions the two
    cursors stopped at, and the state after the pass. *)
Definition sex_body (a b : list nat) (m : Map) (st : sex_state)
  : option (branch * nat * nat * sex_state) :=
  match advance (length a) a (itin st) (cur_i st) with
  | None => None
  | Some i =>
  match advance (length b) b (itin st) (cur_j st) with
  | None => None
  | Some j =>
      if i =? length a then
        match nth_error b j with
        | Some bj => Some (EndOfA, i, j, mkSex i (S j) (itin st ++ [bj]))
        | None => None
        end
      else if j =? length b then
        match nth_error a i with
        | Some ai => Some (EndOfB, i, j, mkSex (S i) j (itin st ++ [ai]))
        | None => None
        end
      else
        match nth_error a i, nth_error b j with
        | Some ai, Some bj =>
            let back := last (itin st) 0 in
            match distance m back ai, distance m back bj with
            | Some da, Some db =>
                if (da <? db)%float
                then Some (NearerA, i, j, mkSex (S i) j (itin st ++ [ai]))
                else Some (NoWorseB, i, j, mkSex i (S j) (itin st ++ [bj]))
            | _, _ => None
            end
        | _, _ => None
        end
  end
  end.

(** [while (itinerary.size() < map.size()) { ... }].  Every pass appends one
    city, so [map.size()] passes are enough; [fuel] counts them. *)
Fixpoint sex_loop (fuel : nat) (a b : list nat) (m : Map) (st : sex_state)
  : option sex_state :=
  if length (itin st) <? size m then
    match fuel with
    | O => None
    | S fuel' =>
        match sex_body a b m st with
        | Some (_, _, _, st') => sex_loop fuel' a b m st'
        | None => None
        end
    end
  else Some st.

(** [sex(a, b, map)]. *)
Definition sex (a b : Tour) (m : Map) : option Tour :=
  match sex_loop (size m) (itinerary a) (itinerary b) m sex_init with
  | Some st => Tour_of (itin st) m
  | None => None
  end.

(** The states the loop of [sex] passes through: the initial one, and the
    one after a pass made while [itinerary.size() < map.size()]. *)
Inductive sex_reach (a b : list nat) (m : Map) : sex_state -> Prop :=
| reach_init : sex_reach a b m sex_init
| reach_pass st br i j st' :
    sex_reach a b m st ->
    length (itin st) < size m ->
    sex_body a b m st = Some (br, i, j, st') ->
    sex_reach a b m st'.

(** ** Population *)

(** [operator <] on tours: [a.length() > b.length()]. *)
Definition Tour_lt (a b : Tour) : bool := (_length b <? _length a)%float.

(** [std::max_element(first, last)], as an offset from [first]:
    [largest = first; while (++first != last) if (largest[0] < first[0]) largest = first;].
    On an empty range it returns [last], offset [0]. *)
Fixpoint max_element_loop (largest : nat) (tl : Tour) (i : nat) (rest : list Tour)
  : nat :=
  match rest with
  | [] => largest
  | t :: rest' =>
      if Tour_lt tl t then max_element_loop i t (S i) rest'
      else max_element_loop largest tl (S i) rest'
  end.

Definition max_element (range : list Tour) : nat :=
  match range with
  | [] => 0
  | t :: rest => max_element_loop 0 t 1 rest
  end.

Record Population : Type := mkPopulation {
  map : Map;
  tours : list Tour
}.

(** [Population::findParent(depth)]: shuffles [tours] in place and returns a
    reference into it: the position of the winner, together with the
    shuffled vector. *)
Definition findParent (depth : nat) (ts : list Tour) : Rand (nat * list Tour) :=
  ts' <- random_shuffle ts ;;
  if length ts' <? depth then undefined
  else
    let k := max_element (firstn depth ts') in
    if k <? length ts' then ret (k, ts') else undefined.

(** [Population::fittest()]. *)
Definition fittest (ts : list Tour) : option Tour :=
  nth_error ts (max_element ts).

(** [operator !=] of [vector<unsigned int>], which is what [a != b]
    resolves to on tours. *)
Fixpoint vector_eqb (u v : list nat) : bool :=
  match u, v with
  | [], [] => true
  | c :: u', d :: v' => (c =? d) && vector_eqb u' v'
  | _, _ => false
  end.

(** The first loop of [evolve]:
    [while (children.size() < tours.size()) { a = findParent; b = findParent; ... }].
    [a] and [b] are references into [tours]: they are read after both
    shuffles.  Every pass appends one child, so [tours.size()] passes are
    enough; [fuel] counts them. *)
Fixpoint breed (fuel depth : nat) (m : Map) (ts children : list Tour)
  : Rand (list Tour * list Tour) :=
  if length children <? length ts then
    match fuel with
    | O => undefined
    | S fuel' =>
        ' (a, ts1) <- findParent depth ts ;;
        ' (b, ts2) <- findParent depth ts1 ;;
        ta <- lift (nth_error ts2 a) ;;
        tb <- lift (nth_error ts2 b) ;;
        child <- (if negb (vector_eqb (itinerary ta) (itinerary tb))
                  then lift (sex ta tb m) else ret ta) ;;
        breed fuel' depth m ts2 (children ++ [child])
    end
  else ret (ts, children).

(** [for (i = 1; i < children.size(); i++) children[i].mutate(p_mutate, map)]:
    [mutate_each] is given the children from position [1] on. *)
Fixpoint mutate_each (p : float) (m : Map) (cs : list Tour) : Rand (list Tour) :=
  match cs with
  | [] => ret []
  | c :: cs' =>
      ' (_, c') <- mutate c p m ;;
      cs'' <- mutate_each p m cs' ;;
      ret (c' :: cs'')
  end.

(** [Population::evolve(p_mutate, depth)]: the fittest tour is copied to
    the front of [children], which is filled up by [breed]; the children
    from position [1] on are mutated, and [tours = children]. *)
Definition evolve (p_mutate : float) (depth : nat) (pop : Population)
  : Rand Population :=
  best <- lift (fittest (tours pop)) ;;
  ' (_, children) <- breed (length (tours pop)) depth (map pop) (tours pop) [best] ;;
  mutated <- mutate_each p_mutate (map pop) (skipn 1 children) ;;
  ret (mkPopulation (map pop) (firstn 1 children ++ mutated)).

(** [while (tours.size() < n_tours) tours.push_back(Tour(map))]. *)
Fixpoint Tour_randoms (m : Map) (n : nat) : Rand (list Tour) :=
  match n with
  | O => ret []
  | S n' =>
      t <- Tour_random m ;;
      ts <- Tour_randoms m n' ;;
      ret (t :: ts)
  end.

(** [Population::Population(width, height, n_cities, n_tours)]. *)
Definition Population_new (width height : Z) (n_cities n_tours : nat)
  : Rand Population :=
  m <- Map_new width height n_cities ;;
  ts <- Tour_randoms m n_tours ;;
  ret (mkPopulation m ts).

(** ** The search of [main] *)

(** The variables that the search of [main] updates: [population], [length]
    and [n_generations]. *)
Record search_state : Type := mkSearch {
  population : Population;
  s_length : float;
  n_generations : Z
}.

(** [for (i = 0; i < n_stop; i ++) { population.evolve(p_mutate, depth);
      if (population.fittest().length() < length)
        { length = population.fittest().length(); n_generations += i + 1; break; } }]
    from pass [i] on, with [todo = n_stop - i] passes to go.  The flag tells
    whether the loop was left by [break], that is with [i < n_stop]. *)
Fixpoint stall (todo i : nat) (p_mutate : float) (depth : nat) (st : search_state)
  : Rand (search_state * bool) :=
  match todo with
  | O => ret (st, false)
  | S todo' =>
      pop' <- evolve p_mutate depth (population st) ;;
      best <- lift (fittest (tours pop')) ;;
      if (_length best <? s_length st)%float then
        ret (mkSearch pop' (_length best)
               (wrap32 (n_generations st + wrap32 (Z.of_nat i + 1))), true)
      else
        stall todo' (S i) p_mutate depth
          (mkSearch pop' (s_length st) (n_generations st))
  end.

(** [do { for ... } while (i < n_stop); n_generations += n_stop;].  A pass
    of the [do] loop is repeated when it has found a shorter tour; [fuel]
    counts the passes. *)
Fixpoint search_loop (fuel n_stop : nat) (p_mutate : float) (depth : nat)
    (st : search_state) : Rand search_state :=
  ' (st', improved) <- stall n_stop 0 p_mutate depth st ;;
  if (improved : bool) then
    match fuel with
    | O => fun _ => Starved
    | S fuel' => search_loop fuel' n_stop p_mutate depth st'
    end
  else
    ret (mkSearch (population st') (s_length st')
           (wrap32 (n_generations st' + Z.of_nat n_stop))).

(** The branch of [main] that evolves, without its output and its clock:
    [length] starts as the length of the fittest tour.  Every pass of the
    [do] loop that is repeated has read a draw, so the draws at hand are
    fuel enough. *)
Definition search (n_stop : nat) (p_mutate : float) (depth : nat)
    (pop : Population) (n : Z) : Rand (Population * Z) :=
  fun rs =>
    (best <- lift (fittest (tours pop)) ;;
     st <- search_loop (length rs) n_stop p_mutate depth
             (mkSearch pop (_length best) n) ;;
     ret (population st, n_generations st)) rs.

(** ** The picture of a tour *)

(** The calls that [tourToBMP] makes on the bitmap library, in order: the
    two constructors and the member functions of the image and of its
    drawer. *)
Inductive draw_call : Type :=
| bitmap_image (width height : Z)
| set_all_channels (red green blue : Z)
| image_drawer
| pen_width (width : Z)
| pen_color (red green blue : Z)
| line_segment (x1 y1 x2 y2 : Z)
| circle (centerx centery radius : Z)
| save_image (file_name : String.string).

(** [map[tour[i]]]. *)
Definition city_of (m : Map) (tour : list nat) (i : nat) : option City :=
  match nth_error tour i with
  | Some c => nth_error (cities m) c
  | None => None
  end.

(** [for (i = 0; i < tour.size() - 1; i ++)
      draw.line_segment(map[tour[i]].x, map[tour[i]].y, map[tour[i + 1]].x, map[tour[i + 1]].y);]
    from pass [i] on, with [todo] passes to go. *)
Fixpoint draw_path (m : Map) (tour : list nat) (i todo : nat)
  : option (list draw_call) :=
  match todo with
  | O => Some []
  | S todo' =>
      match city_of m tour i, city_of m tour (S i),
            draw_path m tour (S i) todo' with
      | Some a, Some b, Some rest =>
          Some (line_segment (x a) (y a) (x b) (y b) :: rest)
      | _, _, _ => None
      end
  end.

(** [tourToBMP(tour, map, file_name)].  On an empty tour [tour.size() - 1]
    wraps around and the first pass reads [tour[0]]. *)
Definition tourToBMP (tour : Tour) (m : Map) (file_name : String.string)
  : option (list draw_call) :=
  match itinerary tour with
  | [] => None
  | _ :: rest =>
      match draw_path m (itinerary tour) 0 (length rest),
            city_of m (itinerary tour) (length rest),
            city_of m (itinerary tour) 0 with
      | Some path, Some a, Some b =>
          Some ([bitmap_image (_width m) (_height m);
                 set_all_channels 255 255 255; image_drawer;
                 pen_width 2; pen_color 0 0 0]
                ++ path
                ++ [line_segment (x a) (y a) (x b) (y b); pen_color 255 150 50]
                ++ List.map (fun c => circle (x c) (y c) 5) (cities m)
                ++ [save_image file_name])
      | _, _, _ => None
      end
  end.

(** ** Predicates of the statements *)

(** The itineraries of the program's tours: a permutation of
    [0, ..., n - 1] that starts with city [0]. *)
Definition is_tour (n : nat) (a : list nat) : Prop :=
  Permutation (seq 0 n) a /\ nth_error a 0 = Some 0.

(** A check of [is_tour]: the right length, every city present, city [0]
    first. *)
Definition is_tourb (n : nat) (a : list nat) : bool :=
  (length a =? n)
  && forallb (fun c => existsb (Nat.eqb c) a) (seq 0 n)
  && match a with
     | 0 :: _ => true
     | _ => false
     end.

(** The cached length is the length of the current itinerary. *)
Definition cache_ok (m : Map) (t : Tour) : Prop :=
  lengthOfItinerary (itinerary t) m = Some (_length t).

(** No tour of [range] is strictly shorter than [r]. *)
Definition shortest_in (range : list Tour) (r : Tour) : Prop :=
  forall t, In t range -> (_length t <? _length r)%float = false.

(** The tours of a population fit its map. *)
Definition tours_ok (m : Map) (ts : list Tour) : Prop :=
  Forall (fun t => is_tour (size m) (itinerary t)) ts.

(** A population has a tour, its tours fit its map, and their cached
    lengths are fresh. *)
Definition valid_population (pop : Population) : Prop :=
  tours pop <> []
  /\ tours_ok (map pop) (tours pop)
  /\ Forall (cache_ok (map pop)) (tours pop).

(** The draws that [evolve] reads at most when none asks for a rotation:
    two shuffles for every child, five draws for every mutation. *)
Definition evolve_draws (n_tours : nat) : nat :=
  (n_tours - 1) * (2 * (n_tours - 1)) + 5 * (n_tours - 1).

(** A draw that does not ask [mutate] for a rotation. *)
Definition plain (r : Z) : Prop := (r mod 3 <> 2)%Z.

(** [run_ok n Q rs res]: the outcome [res] of a run on the draws [rs] is not
    undefined behaviour; if it is a value, the value satisfies [Q] and the
    draws left are the end of [rs] (at most [n] were read if all are plain);
    and it is not [Starved] if [rs] holds [n] draws, all plain. *)
Definition run_ok {A} (n : nat) (Q : A -> Prop) (rs : list Z)
    (res : result (A * list Z)) : Prop :=
  match res with
  | Ok (a, rs') =>
      Q a /\ exists used,
               rs = used ++ rs' /\ (Forall plain rs -> length used <= n)
  | Undefined => False
  | Starved => ~ (Forall plain rs /\ n <= length rs)
  end.

(** [runs c n Q]: every run of [c] is [run_ok]. *)
Definition runs {A} (c : Rand A) (n : nat) (Q : A -> Prop) : Prop :=
  forall rs, run_ok n Q rs (c rs).

(** Zero, a positive number, or plus infinity. *)
Definition sf_nonneg (u : spec_float) : bool :=
  match u with
  | S754_zero false | S754_infinity false | S754_finite false _ _ => true
  | _ => false
  end.

(** A [double] that is not negative, and so is a number. *)
Definition nonneg (d : float) : Prop := sf_nonneg (Prim2SF d) = true.

(** What holds of the variables of [sex] before every pass, on parents [a]
    and [b] that are tours of [m]: the itinerary has no city twice and only
    cities of the map, it starts with city [0], and all that a cursor has
    passed is in it. *)
Record sex_inv (m : Map) (a b : list nat) (st : sex_state) : Prop := mkSexInv {
  inv_NoDup : NoDup (itin st);
  inv_start : exists rest, itin st = 0 :: rest;
  inv_range : Forall (fun c => c < size m) (itin st);
  inv_a : forall t c, t < cur_i st -> nth_error a t = Some c -> In c (itin st);
  inv_b : forall t c, t < cur_j st -> nth_error b t = Some c -> In c (itin st)
}.

Arguments inv_NoDup {m a b st}.
Arguments inv_start {m a b st}.
Arguments inv_range {m a b st}.
Arguments inv_a {m a b st}.
Arguments inv_b {m a b st}.

(** The outcome of a pass of [sex] in terms of the two candidates. *)
Definition pass_outcome (st : sex_state) (i j ai bj : nat) (da db : float)
  : branch * nat * nat * sex_state :=
  if (da <? db)%float
  then (NearerA, i, j, mkSex (S i) j (itin st ++ [ai]))
  else (NoWorseB, i, j, mkSex i (S j) (itin st ++ [bj])).

(** The itinerary is an initial segment of [a]: what crossing [a] with
    itself keeps. *)
Definition prefix_of (a : list nat) (st : sex_state) : Prop :=
  itin st = firstn (length (itin st)) a.

(** A point of [[0, w) x [0, h)], and its number in row-major order. *)
Definition on_map (w h : Z) (c : City) : Prop :=
  (0 <= x c < w)%Z /\ (0 <= y c < h)%Z.

Definition cell (h : Z) (c : City) : nat := Z.to_nat (x c * h + y c).

(** [k] generations in a row. *)
Fixpoint generations (k : nat) (p_mutate : float) (depth : nat) (pop : Population)
  : Rand Population :=
  match k with
  | O => ret pop
  | S k' =>
      pop' <- evolve p_mutate depth pop ;;
      generations k' p_mutate depth pop'
  end.

(** A computation hands on no more draws than it was given. *)
Definition consumes {A} (c : Rand A) : Prop :=
  forall rs a rs', c rs = Ok (a, rs') -> length rs' <= length rs.

(** [length] is not above the length of the only tour of a population of
    one. *)
Definition settled (st : search_state) : Prop :=
  forall t, tours (population st) = [t] ->
            (_length t <? s_length st)%float = false.

(** The line segments from [from] through [stops], one after the other. *)
Fixpoint polyline (from : City) (stops : list City) : list draw_call :=
  match stops with
  | [] => []
  | c :: rest => line_segment (x from) (y from) (x c) (y c) :: polyline c rest
  end.

(** The city at position [c] of the map, for [c] on the map. *)
Definition city_nth (m : Map) (c : nat) : City := nth c (cities m) (mkCity 0 0).

(** ** Concrete data used by the examples *)

(** The corners of the unit square. *)
Definition unit_square : Map :=
  mkMap [mkCity 0 0; mkCity 1 0; mkCity 1 1; mkCity 0 1] 2 2.

(** Three cities on a line, the first in the middle. *)
Definition line3 : Map :=
  mkMap [mkCity 1 1; mkCity 0 1; mkCity 2 1] 3 3.

(** The tour that [Tour(itinerary, map)] builds; the examples use it on
    itineraries whose cities are all on the map. *)
Definition tour_on (m : Map) (it : list nat) : Tour :=
  match Tour_of it m with
  | Some t => t
  | None => mkTour it 0
  end.

(** Around the unit square, and across its diagonals. *)
Definition around : Tour := tour_on unit_square [0; 1; 2; 3].
Definition across : Tour := tour_on unit_square [0; 2; 1; 3].

(** A population of three tours on the unit square, sixteen draws, and
    the generation that [evolve(0.5, 2)] makes of them. *)
Definition trio : Population :=
  mkPopulation unit_square [across; around; across].

Definition trio_draws : list Z :=
  [1; 0; 5; 6; 7; 8; 9; 10; 1; 1; 1; 3; 1; 1; 2; 7]%Z.

(** Eighteen draws of which none asks for a rotation. *)
Definition plain_draws : list Z :=
  [1; 0; 3; 4; 6; 7; 9; 10; 0; 1; 3; 4; 6; 7; 9; 10; 12; 13]%Z.

Definition trio_next : Population :=
  mkPopulation unit_square
    [around; tour_on unit_square [0; 1; 3; 2]; tour_on unit_square [0; 2; 3; 1]].

(** Four cities in a box of width and height three, and two tours of
    them. *)
Definition box3 : Map :=
  mkMap [mkCity 1 0; mkCity 2 0; mkCity 1 2; mkCity 0 1] 3 3.

Definition box3_population : Population :=
  mkPopulation box3 [tour_on box3 [0; 1; 3; 2]; tour_on box3 [0; 2; 1; 3]].

(** Four cities: the top of a kite, its two sides, and its tail. *)
Definition kite : Map :=
  mkMap [mkCity 1 3; mkCity 0 2; mkCity 2 2; mkCity 0 0] 3 4.

(** Two tours across the diagonals of the unit square. *)
Definition pair_across : Population := mkPopulation unit_square [across; across].

(** * Properties *)

(** ** Runs of [Rand] computations *)

Lemma bind_Ok {A B} (c : Rand A) (k : A -> Rand B) rs b rs' :
  bind c k rs = Ok (b, rs') ->
  exists a rs1, c rs = Ok (a, rs1) /\ k a rs1 = Ok (b, rs').
Proof.
  unfold bind. destruct (c rs) as [[a rs1] | |]; try discriminate.
  intros H. exists a, rs1. split; [reflexivity | exact H].
Qed.

Lemma lift_Ok {A} (o : option A) rs a rs' :
  lift o rs = Ok (a, rs') -> o = Some a /\ rs' = rs.
Proof.
  destruct o; simpl; unfold ret, undefined; intros H; inversion H; auto.
Qed.

Lemma ret_Ok {A} (a : A) rs b rs' : ret a rs = Ok (b, rs') -> b = a /\ rs' = rs.
Proof. unfold ret. intros H; inversion H; auto. Qed.

Lemma rand_Ok rs r rs' : rand rs = Ok (r, rs') -> rs = r :: rs'.
Proof. destruct rs; simpl; intros H; inversion H; reflexivity. Qed.

(** Splits a successful run of a sequence of binds into its steps. *)
Ltac run_inv :=
  repeat match goal with
    | H : bind _ _ _ = Ok _ |- _ =>
        let a := fresh "a" in
        let rs := fresh "rs" in
        let H1 := fresh "Hrun" in
        apply bind_Ok in H; destruct H as (a & rs & H1 & H)
    | H : lift _ _ = Ok _ |- _ =>
        apply lift_Ok in H; destruct H as [H ?]; subst
    | H : ret _ _ = Ok _ |- _ =>
        apply ret_Ok in H; destruct H as [H ?]; inversion H; clear H; subst
    | H : rand _ = Ok _ |- _ => apply rand_Ok in H; subst
    | H : undefined _ = Ok _ |- _ => discriminate H
    | H : Undefined = Ok _ |- _ => discriminate H
    | H : Starved = Ok _ |- _ => discriminate H
    end.

(** ** The order of [double] *)

Module FloatOrder.

Lemma SFltb_irrefl (u : spec_float) : SFltb u u = false.
Proof.
  unfold SFltb.
  destruct u as [s | s | | s m e]; try destruct s; simpl;
    rewrite ?Z.compare_refl, ?Pos.compare_cont_refl; reflexivity.
Qed.

Ltac order_cases eu ev ew mu mv mw :=
  destruct (Z.compare_spec eu ev), (Z.compare_spec ev ew),
    (Z.compare_spec eu ew); subst;
  try discriminate; try reflexivity; try lia;
  fold (Pos.compare mu mv) (Pos.compare mv mw) (Pos.compare mu mw);
  destruct (Pos.compare_spec mu mv), (Pos.compare_spec mv mw),
    (Pos.compare_spec mu mw); subst; simpl;
  try discriminate; try reflexivity; lia.

Lemma SFltb_trans (u v w : spec_float) :
  SFltb u v = true -> SFltb v w = true -> SFltb u w = true.
Proof.
  unfold SFltb.
  destruct u as [su | su | | su mu eu], v as [sv | sv | | sv mv ev],
    w as [sw | sw | | sw mw ew]; simpl;
    try destruct su; try destruct sv; try destruct sw; simpl;
    try discriminate; try reflexivity;
    order_cases eu ev ew mu mv mw.
Qed.

Lemma ltb_irrefl (u : float) : (u <? u)%float = false.
Proof. rewrite FloatAxioms.ltb_spec. apply SFltb_irrefl. Qed.

Lemma ltb_trans (u v w : float) :
  (u <? v)%float = true -> (v <? w)%float = true -> (u <? w)%float = true.
Proof. rewrite !FloatAxioms.ltb_spec. apply SFltb_trans. Qed.

Lemma ltb_asym (u v : float) : (u <? v)%float = true -> (v <? u)%float = false.
Proof.
  intros H. destruct (v <? u)%float eqn:E; [| reflexivity].
  rewrite <- (ltb_irrefl u). symmetry. exact (ltb_trans _ _ _ H E).
Qed.

(** Equal under [==] is not below under [<]. *)
Lemma eqb_not_ltb (u v : float) : (u =? v)%float = true -> (u <? v)%float = false.
Proof.
  rewrite FloatAxioms.eqb_spec, FloatAxioms.ltb_spec. unfold SFeqb, SFltb.
  destruct (SFcompare (Prim2SF u) (Prim2SF v)) as [[| |] |];
    intros H; try discriminate H; reflexivity.
Qed.

(** For numbers, not above is at most. *)
Lemma not_ltb_leb (u v : float) :
  (u =? u)%float = true -> (v =? v)%float = true ->
  (v <? u)%float = false -> (u <=? v)%float = true.
Proof.
  rewrite !FloatAxioms.eqb_spec, FloatAxioms.ltb_spec, FloatAxioms.leb_spec.
  unfold SFeqb, SFltb, SFleb.
  destruct (Prim2SF u) as [su | su | | su mu eu], (Prim2SF v) as [sv | sv | | sv mv ev];
    simpl; try destruct su; try destruct sv; simpl;
    try discriminate; try reflexivity; intros _ _;
    rewrite (Z.compare_antisym eu ev);
    destruct (eu ?= ev)%Z; simpl; try discriminate; try reflexivity;
    fold (Pos.compare mv mu) (Pos.compare mu mv);
    rewrite (Pos.compare_antisym mu mv);
    destruct (mu ?= mv)%positive; simpl; try discriminate; reflexivity.
Qed.

Lemma ltb_leb (u v : float) : (u <? v)%float = true -> (u <=? v)%float = true.
Proof.
  rewrite FloatAxioms.ltb_spec, FloatAxioms.leb_spec. unfold SFltb, SFleb.
  destruct (SFcompare (Prim2SF u) (Prim2SF v)) as [[| |] |];
    intros H; try discriminate H; reflexivity.
Qed.

Lemma eqb_leb (u v : float) : (u =? v)%float = true -> (u <=? v)%float = true.
Proof.
  rewrite FloatAxioms.eqb_spec, FloatAxioms.leb_spec. unfold SFeqb, SFleb.
  destruct (SFcompare (Prim2SF u) (Prim2SF v)) as [[| |] |];
    intros H; try discriminate H; reflexivity.
Qed.

End FloatOrder.

(** ** The sign of distances and lengths *)

Module FloatSign.

Lemma iter_pos_inv {A} (P : A -> Prop) (f : A -> A) :
  (forall u, P u -> P (f u)) -> forall n u, P u -> P (iter_pos f n u).
Proof.
  intros Hf. induction n as [n IH | n IH |]; intros u Hu; simpl; auto.
Qed.

Lemma shr_1_nonneg (mrs : shr_record) :
  (0 <= shr_m mrs)%Z -> (0 <= shr_m (shr_1 mrs))%Z.
Proof.
  destruct mrs as [m r s]. simpl.
  destruct m as [| [p | p |] | [p | p |]]; simpl; lia.
Qed.

Lemma shr_nonneg (mrs : shr_record) (e n : Z) :
  (0 <= shr_m mrs)%Z -> (0 <= shr_m (fst (shr mrs e n)))%Z.
Proof.
  intros H. unfold shr. destruct n; simpl; auto.
  apply iter_pos_inv; auto. apply shr_1_nonneg.
Qed.

Lemma shr_fexp_nonneg prec emax (m e : Z) (l : location) :
  (0 <= m)%Z -> (0 <= shr_m (fst (shr_fexp prec emax m e l)))%Z.
Proof.
  intros H. unfold shr_fexp. apply shr_nonneg.
  destruct l as [| []]; simpl; exact H.
Qed.

Lemma round_nearest_even_nonneg (m : Z) (l : location) :
  (0 <= m)%Z -> (0 <= round_nearest_even m l)%Z.
Proof.
  intros H. unfold round_nearest_even.
  destruct l as [| []]; try destruct (Z.even m); lia.
Qed.

Lemma binary_round_aux_nonneg prec emax (m e : Z) (l : location) :
  (0 <= m)%Z -> sf_nonneg (binary_round_aux prec emax false m e l) = true.
Proof.
  intros H. unfold binary_round_aux.
  pose proof (shr_fexp_nonneg prec emax m e l H) as H1.
  destruct (shr_fexp prec emax m e l) as [mrs' e']. simpl in H1.
  pose proof (shr_fexp_nonneg prec emax _ e' loc_Exact
                (round_nearest_even_nonneg _ (loc_of_shr_record mrs') H1)) as H2.
  destruct (shr_fexp prec emax _ e' loc_Exact) as [mrs'' e'']. simpl in H2.
  destruct (shr_m mrs'') as [| p | p]; [reflexivity | | lia].
  destruct (Z.leb e'' (emax - prec)); reflexivity.
Qed.

Lemma binary_normalize_nonneg prec emax (m e : Z) :
  (0 <= m)%Z -> sf_nonneg (binary_normalize prec emax m e false) = true.
Proof.
  intros H. unfold binary_normalize. destruct m as [| p | p]; [reflexivity | | lia].
  unfold binary_round. destruct (shl_align _ _ _) as [mz ez].
  apply binary_round_aux_nonneg. lia.
Qed.

Lemma SFadd_nonneg prec emax (u v : spec_float) :
  sf_nonneg u = true -> sf_nonneg v = true ->
  sf_nonneg (SFadd prec emax u v) = true.
Proof.
  destruct u as [[] | [] | | [] mu eu], v as [[] | [] | | [] mv ev]; simpl;
    try discriminate; try reflexivity; intros _ _.
  unfold binary_round.
  match goal with
  | |- context [let '(_, _) := ?s in _] => destruct s as [mz ez]
  end.
  apply binary_round_aux_nonneg. lia.
Qed.

Lemma SFsqrt_nonneg prec emax (u : spec_float) :
  sf_nonneg u = true -> sf_nonneg (SFsqrt prec emax u) = true.
Proof.
  destruct u as [[] | [] | | [] mu eu]; simpl; try discriminate; try reflexivity.
  intros _. unfold SFsqrt_core_binary.
  set (m' := match _ with Zpos _ => _ | Z0 => _ | Zneg _ => _ end).
  assert (Hm : (0 <= m')%Z).
  { subst m'. destruct (_ - _)%Z; try lia. apply Z.shiftl_nonneg. lia. }
  pose proof (Z.sqrtrem_spec m' Hm) as Hs.
  destruct (Z.sqrtrem m') as [q r].
  apply binary_round_aux_nonneg. lia.
Qed.

Lemma add_nonneg (c d : float) : nonneg c -> nonneg d -> nonneg (c + d).
Proof. unfold nonneg. rewrite FloatAxioms.add_spec. apply SFadd_nonneg. Qed.

Lemma sqrt_nonneg (d : float) : nonneg d -> nonneg (PrimFloat.sqrt d).
Proof. unfold nonneg. rewrite FloatAxioms.sqrt_spec. apply SFsqrt_nonneg. Qed.

Lemma of_uint63_nonneg (n : int) : nonneg (PrimFloat.of_uint63 n).
Proof.
  unfold nonneg. rewrite FloatAxioms.of_uint63_spec. apply binary_normalize_nonneg.
  apply Uint63.to_Z_bounded.
Qed.

(** What is not negative is a number: it compares equal to itself. *)
Lemma nonneg_number (d : float) : nonneg d -> (d =? d)%float = true.
Proof.
  unfold nonneg. rewrite FloatAxioms.eqb_spec. unfold SFeqb.
  destruct (Prim2SF d) as [[] | [] | | [] m e]; simpl; try discriminate;
    intros _; try reflexivity.
  rewrite Z.compare_refl, Pos.compare_cont_refl. reflexivity.
Qed.

End FloatSign.

(** ** Cities on the map *)

Lemma distance_total (m : Map) (c d : nat) :
  c < size m -> d < size m -> exists len, distance m c d = Some len.
Proof.
  unfold distance, size. intros Hc Hd.
  destruct (nth_error (cities m) c) eqn:Ec; [| apply nth_error_None in Ec; lia].
  destruct (nth_error (cities m) d) eqn:Ed; [| apply nth_error_None in Ed; lia].
  eexists; reflexivity.
Qed.

Lemma length_loop_total (m : Map) : forall rest prev len,
  prev < size m -> Forall (fun c => c < size m) rest ->
  exists len', length_loop m prev rest len = Some len'.
Proof.
  induction rest as [| c rest IH]; simpl; intros prev len Hp Hall.
  - eexists; reflexivity.
  - inversion Hall; subst.
    destruct (distance_total m prev c) as [d ->]; auto.
Qed.

Lemma lengthOfItinerary_total (m : Map) (it : list nat) :
  it <> [] -> Forall (fun c => c < size m) it ->
  exists len, lengthOfItinerary it m = Some len.
Proof.
  destruct it as [| c0 rest]; [congruence | intros _ Hall].
  unfold lengthOfItinerary.
  assert (Hlast : last (c0 :: rest) c0 < size m).
  { rewrite Forall_forall in Hall. apply Hall.
    destruct (exists_last (l := c0 :: rest)) as (l' & z & E); [discriminate |].
    rewrite E, last_last. apply in_or_app. right. left. reflexivity. }
  inversion Hall; subst.
  destruct (distance_total m c0 (last (c0 :: rest) c0)) as [d ->]; auto.
  apply length_loop_total; auto.
Qed.

Lemma Tour_of_total (m : Map) (it : list nat) :
  it <> [] -> Forall (fun c => c < size m) it ->
  exists len, Tour_of it m = Some (mkTour it len).
Proof.
  intros Hne Hall. unfold Tour_of.
  destruct (lengthOfItinerary_total m it Hne Hall) as [len ->]. eauto.
Qed.

(** Distances and lengths are numbers, and not negative. *)
Lemma distance_nonneg (m : Map) (i j : nat) (d : float) :
  distance m i j = Some d -> nonneg d.
Proof.
  unfold distance.
  destruct (nth_error (cities m) i) as [a |]; [| discriminate].
  destruct (nth_error (cities m) j) as [b |]; [| discriminate].
  intros H. inversion H; subst.
  apply FloatSign.sqrt_nonneg, FloatSign.of_uint63_nonneg.
Qed.

Lemma length_loop_nonneg (m : Map) : forall rest prev len len',
  nonneg len -> length_loop m prev rest len = Some len' ->
  nonneg len'.
Proof.
  induction rest as [| c rest IH]; simpl; intros prev len len' Hlen H.
  - inversion H; subst. exact Hlen.
  - destruct (distance m prev c) as [d |] eqn:Hd; [| discriminate H].
    apply (IH c (len + d)%float len'); [| exact H].
    apply FloatSign.add_nonneg; [exact Hlen |].
    eapply distance_nonneg. exact Hd.
Qed.

Lemma lengthOfItinerary_nonneg (m : Map) (it : list nat) (len : float) :
  lengthOfItinerary it m = Some len -> nonneg len.
Proof.
  unfold lengthOfItinerary. destruct it as [| c0 rest]; [discriminate |].
  destruct (distance m c0 (last (c0 :: rest) c0)) as [d0 |] eqn:Hd;
    [| discriminate].
  apply length_loop_nonneg. eapply distance_nonneg. exact Hd.
Qed.

Lemma distance_number (m : Map) (i j : nat) (d : float) :
  distance m i j = Some d -> (d =? d)%float = true.
Proof. intros H. eapply FloatSign.nonneg_number, distance_nonneg, H. Qed.

(** A cached length that is fresh is a number. *)
Lemma cache_number (m : Map) (t : Tour) :
  cache_ok m t -> (_length t =? _length t)%float = true.
Proof.
  intros H. eapply FloatSign.nonneg_number, lengthOfItinerary_nonneg, H.
Qed.

(** ** Vectors: assignment, swap and shuffle *)

Section Vectors.
Context {A : Type}.

Lemma set_nth_length (l : list A) i v : length (set_nth l i v) = length l.
Proof.
  revert i; induction l as [| a l IH]; intros [| i]; simpl; auto.
Qed.

Lemma nth_error_set_nth (l : list A) i j v :
  i < length l ->
  nth_error (set_nth l i v) j = if i =? j then Some v else nth_error l j.
Proof.
  revert i j; induction l as [| a l IH]; intros [| i] [| j] Hi; simpl in *;
    try lia; auto.
  apply IH. lia.
Qed.

(** Overwriting position [i] trades the old element for the new one. *)
Lemma set_nth_perm (l : list A) i a v :
  nth_error l i = Some a -> Permutation (v :: l) (a :: set_nth l i v).
Proof.
  revert i; induction l as [| c l IH]; intros [| i] H; simpl in *;
    try discriminate.
  - inversion H; subst. apply perm_swap.
  - apply IH in H.
    rewrite (perm_swap c v l), H. apply perm_swap.
Qed.

Lemma swap_at_perm (l l' : list A) i j :
  swap_at l i j = Some l' -> Permutation l l'.
Proof.
  unfold swap_at.
  destruct (nth_error l i) as [a |] eqn:Hi; [| discriminate].
  destruct (nth_error l j) as [b |] eqn:Hj; [| discriminate].
  intros H; inversion H; subst; clear H.
  assert (Hlt : i < length l) by (apply nth_error_Some; congruence).
  assert (Hb : nth_error (set_nth l i b) j = Some b).
  { rewrite nth_error_set_nth by exact Hlt.
    destruct (i =? j); [reflexivity | exact Hj]. }
  apply (Permutation_cons_inv (a := b)).
  rewrite (set_nth_perm l i a b Hi).
  apply (set_nth_perm _ j b a Hb).
Qed.

Lemma swap_at_in_range (l : list A) i j :
  i < length l -> j < length l -> exists l', swap_at l i j = Some l'.
Proof.
  intros Hi Hj. unfold swap_at.
  destruct (nth_error l i) eqn:Ei; [| apply nth_error_None in Ei; lia].
  destruct (nth_error l j) eqn:Ej; [| apply nth_error_None in Ej; lia].
  eexists; reflexivity.
Qed.

Lemma shuffle_loop_perm k : forall i (l l' : list A) rs rs',
  shuffle_loop k i l rs = Ok (l', rs') -> Permutation l l'.
Proof.
  induction k as [| k IH]; cbn [shuffle_loop]; intros i l l' rs rs' H.
  - run_inv. reflexivity.
  - apply bind_Ok in H as (r & rs1 & _ & H).
    apply bind_Ok in H as (l1 & rs2 & Hswap & H).
    apply lift_Ok in Hswap as [Hswap _].
    apply IH in H. rewrite <- H.
    destruct (_ =? i); [inversion Hswap; reflexivity |].
    eapply swap_at_perm; eassumption.
Qed.

(** A shuffle rearranges: it neither drops nor repeats an element. *)
Lemma random_shuffle_perm (l l' : list A) rs rs' :
  random_shuffle l rs = Ok (l', rs') -> Permutation l l'.
Proof. apply shuffle_loop_perm. Qed.

(** A shuffle of [k] passes succeeds on [k] draws, and reads exactly those. *)
Lemma shuffle_loop_total k : forall i (l : list A) rs,
  i + k <= length l -> k <= length rs ->
  exists l', shuffle_loop k i l rs = Ok (l', skipn k rs).
Proof.
  induction k as [| k IH]; simpl; intros i l rs Hi Hrs.
  - exists l. reflexivity.
  - destruct rs as [| r rs]; simpl in Hrs; [lia |].
    unfold bind at 1. simpl.
    set (j := Z.to_nat (r mod (Z.of_nat i + 1))).
    assert (Hj : j <= i).
    { subst j. pose proof (Z.mod_pos_bound r (Z.of_nat i + 1)). lia. }
    assert (Hstep : exists l1, (if j =? i then Some l else swap_at l i j) = Some l1
                               /\ length l1 = length l).
    { destruct (j =? i); [exists l; auto |].
      destruct (swap_at_in_range l i j) as [l1 H1]; try lia.
      exists l1. split; [exact H1 |].
      symmetry. apply Permutation_length. eapply swap_at_perm; eassumption. }
    destruct Hstep as (l1 & -> & Hlen).
    unfold bind, lift, ret. apply IH; lia.
Qed.

Lemma random_shuffle_total (l : list A) rs :
  length l - 1 <= length rs ->
  exists l', random_shuffle l rs = Ok (l', skipn (length l - 1) rs).
Proof.
  intros H. unfold random_shuffle.
  destruct l as [| a l]; [exists []; reflexivity |].
  apply shuffle_loop_total; simpl in *; lia.
Qed.

End Vectors.

(** ** [max_element] and the order of tours *)

Lemma max_element_loop_spec rest : forall seen largest tl,
  nth_error (seen ++ rest) largest = Some tl ->
  shortest_in seen tl ->
  exists r,
    nth_error (seen ++ rest) (max_element_loop largest tl (length seen) rest) = Some r
    /\ shortest_in (seen ++ rest) r.
Proof.
  induction rest as [| t rest IH]; simpl; intros seen largest tl Hnth Hmin.
  - exists tl. rewrite app_nil_r in *. auto.
  - replace (seen ++ t :: rest) with ((seen ++ [t]) ++ rest) in *
      by (rewrite <- app_assoc; reflexivity).
    replace (S (length seen)) with (length (seen ++ [t]))
      by (rewrite length_app; simpl; lia).
    unfold Tour_lt. destruct (_length t <? _length tl)%float eqn:E.
    + apply IH.
      * rewrite nth_error_app1 by (rewrite length_app; simpl; lia).
        rewrite nth_error_app2, Nat.sub_diag by lia. reflexivity.
      * intros u Hu. apply in_app_or in Hu. destruct Hu as [Hu | [<- | []]].
        -- destruct (_length u <? _length t)%float eqn:E'; [| reflexivity].
           rewrite <- (Hmin u Hu). symmetry.
           exact (FloatOrder.ltb_trans _ _ _ E' E).
        -- apply FloatOrder.ltb_irrefl.
    + apply IH; [exact Hnth |].
      intros u Hu. apply in_app_or in Hu. destruct Hu as [Hu | [<- | []]]; auto.
Qed.

(** On a range that is not empty, [max_element] points at a tour of the
    range than which none is strictly shorter. *)
Lemma max_element_spec (range : list Tour) :
  range <> [] ->
  exists r, nth_error range (max_element range) = Some r /\ shortest_in range r.
Proof.
  destruct range as [| t rest]; [congruence | intros _].
  apply (max_element_loop_spec rest [t] 0 t); [reflexivity |].
  intros u [<- | []]. apply FloatOrder.ltb_irrefl.
Qed.

Lemma fittest_spec (ts : list Tour) (f : Tour) :
  fittest ts = Some f -> In f ts /\ shortest_in ts f.
Proof.
  unfold fittest. intros H.
  assert (Hne : ts <> []) by (intros ->; discriminate H).
  destruct (max_element_spec ts Hne) as (r & Hr & Hmin).
  rewrite Hr in H. inversion H; subst.
  split; [eapply nth_error_In; eassumption | exact Hmin].
Qed.

Lemma shortest_in_perm (l l' : list Tour) r :
  Permutation l l' -> shortest_in l r -> shortest_in l' r.
Proof.
  intros HP H t Ht. apply H. eapply Permutation_in; [symmetry |]; eassumption.
Qed.

(** [max_element] leaves its first candidate only for a strictly shorter
    tour. *)
Lemma max_element_loop_first rest : forall full largest tl i r,
  nth_error full largest = Some tl ->
  (forall k t, nth_error rest k = Some t -> nth_error full (i + k) = Some t) ->
  nth_error full (max_element_loop largest tl i rest) = Some r ->
  r = tl \/ (_length r <? _length tl)%float = true.
Proof.
  induction rest as [| t rest IH]; simpl; intros full largest tl i r Hl Hrest Hr.
  - left. congruence.
  - assert (Hrest' : forall k u, nth_error rest k = Some u ->
                                 nth_error full (S i + k) = Some u).
    { intros k u Hk. replace (S i + k) with (i + S k) by lia. apply Hrest. exact Hk. }
    unfold Tour_lt in Hr. destruct (_length t <? _length tl)%float eqn:E.
    + assert (Ht : nth_error full i = Some t).
      { replace i with (i + 0) by lia. apply Hrest. reflexivity. }
      destruct (IH full i t (S i) r Ht Hrest' Hr) as [-> | Hlt].
      * right. exact E.
      * right. exact (FloatOrder.ltb_trans _ _ _ Hlt E).
    + exact (IH full largest tl (S i) r Hl Hrest' Hr).
Qed.

Lemma fittest_first (t : Tour) (rest : list Tour) (f : Tour) :
  fittest (t :: rest) = Some f ->
  f = t \/ (_length f <? _length t)%float = true.
Proof.
  unfold fittest. simpl. intros H.
  apply (max_element_loop_first rest (t :: rest) 0 t 1 f); auto.
Qed.

(** ** Tournament selection *)

Lemma findParent_Ok depth ts rs k ts' rs' :
  findParent depth ts rs = Ok ((k, ts'), rs') ->
  Permutation ts ts' /\ depth <= length ts' /\ k < length ts'
  /\ k = max_element (firstn depth ts').
Proof.
  unfold findParent. intros H.
  apply bind_Ok in H as (shuffled & rs1 & Hsh & H).
  apply random_shuffle_perm in Hsh.
  destruct (Nat.ltb_spec (length shuffled) depth) as [Hd | Hd];
    [discriminate H |].
  destruct (Nat.ltb_spec (max_element (firstn depth shuffled)) (length shuffled))
    as [Hk | Hk]; [| discriminate H].
  run_inv. auto.
Qed.

(** C8.  On a population that is not empty, and given the draws its shuffle
    reads, tournament selection of depth [n_tours] returns a reference to a
    tour of the population than which no tour of the population is strictly
    shorter; its length ties with the length of [fittest()], and it is at
    most the length of every tour when the cached lengths are fresh. *)
Theorem findParent_full_depth (ts : list Tour) (rs : list Z) :
  ts <> [] -> length ts - 1 <= length rs ->
  exists k ts' r,
    findParent (length ts) ts rs = Ok ((k, ts'), skipn (length ts - 1) rs)
    /\ Permutation ts ts'
    /\ nth_error ts' k = Some r
    /\ In r ts
    /\ shortest_in ts r
    /\ (forall f, fittest ts = Some f ->
          (_length f <? _length r)%float = false
          /\ (_length r <? _length f)%float = false)
    /\ (forall m, Forall (cache_ok m) ts ->
          forall t, In t ts -> (_length r <=? _length t)%float = true).
Proof.
  intros Hne Hrs.
  destruct (random_shuffle_total ts rs Hrs) as (ts' & Hsh).
  pose proof (random_shuffle_perm _ _ _ _ Hsh) as HP.
  pose proof (Permutation_length HP) as Hlen.
  assert (Hne' : ts' <> []) by (intros ->; destruct ts; [congruence | discriminate]).
  destruct (max_element_spec ts' Hne') as (r & Hr & Hmin).
  assert (Hk : max_element ts' < length ts') by (apply nth_error_Some; congruence).
  assert (Hin : In r ts).
  { eapply Permutation_in; [symmetry; exact HP |]. eapply nth_error_In; eassumption. }
  assert (Hmin' : shortest_in ts r).
  { eapply shortest_in_perm; [symmetry; exact HP | exact Hmin]. }
  exists (max_element ts'), ts', r.
  split; [| repeat (split; [assumption |]); split].
  - unfold findParent, bind. rewrite Hsh.
    rewrite Hlen, Nat.ltb_irrefl, firstn_all.
    apply Nat.ltb_lt in Hk. rewrite Hk. reflexivity.
  - intros f Hf. split.
    + apply Hmin'. apply (fittest_spec _ _ Hf).
    + apply (fittest_spec _ _ Hf). exact Hin.
  - intros m Hcache t Ht. rewrite Forall_forall in Hcache.
    apply FloatOrder.not_ltb_leb.
    + apply (cache_number m). auto.
    + apply (cache_number m). auto.
    + apply Hmin'. exact Ht.
Qed.

Lemma findParent_full_depth_witness :
  exists k ts' r,
    findParent 2 [across; around] [0%Z] = Ok ((k, ts'), [])
    /\ Permutation [across; around] ts'
    /\ nth_error ts' k = Some r
    /\ In r [across; around]
    /\ shortest_in [across; around] r
    /\ (forall f, fittest [across; around] = Some f ->
          (_length f <? _length r)%float = false
          /\ (_length r <? _length f)%float = false)
    /\ (forall m, Forall (cache_ok m) [across; around] ->
          forall t, In t [across; around] -> (_length r <=? _length t)%float = true).
Proof.
  apply (findParent_full_depth [across; around] [0%Z]);
    [discriminate | simpl; lia].
Defined.

(** ** Itineraries *)

Lemma visited_In (it : list nat) (c : nat) : visited it c = true <-> In c it.
Proof.
  unfold visited. rewrite existsb_exists. split.
  - intros (d & Hd & E). apply Nat.eqb_eq in E. subst. exact Hd.
  - intros H. exists c. split; [exact H | apply Nat.eqb_refl].
Qed.

Lemma visited_false (it : list nat) (c : nat) : visited it c = false <-> ~ In c it.
Proof.
  rewrite <- visited_In. destruct (visited it c); split; congruence.
Qed.

Lemma is_tourb_sound (n : nat) (a : list nat) : is_tourb n a = true -> is_tour n a.
Proof.
  unfold is_tourb, is_tour. rewrite !andb_true_iff.
  intros [[Hlen Hall] Hhd]. apply Nat.eqb_eq in Hlen.
  rewrite forallb_forall in Hall. split.
  - apply NoDup_Permutation_bis.
    + apply seq_NoDup.
    + rewrite length_seq. lia.
    + intros c Hc. apply Hall in Hc. apply visited_In. exact Hc.
  - destruct a as [| [| c] a']; try discriminate Hhd. reflexivity.
Qed.

Section TourFacts.
Variables (n : nat) (a : list nat).
Hypothesis Ha : is_tour n a.

Lemma tour_length : length a = n.
Proof.
  destruct Ha as [HP _]. apply Permutation_length in HP.
  rewrite length_seq in HP. auto.
Qed.

Lemma tour_NoDup : NoDup a.
Proof.
  destruct Ha as [HP _]. eapply Permutation_NoDup; [exact HP | apply seq_NoDup].
Qed.

Lemma tour_In (c : nat) : In c a <-> c < n.
Proof.
  destruct Ha as [HP _]. split; intros H.
  - apply (Permutation_in c (Permutation_sym HP)) in H. apply in_seq in H. lia.
  - apply (Permutation_in c HP). apply in_seq. lia.
Qed.

Lemma tour_start : nth_error a 0 = Some 0.
Proof. exact (proj2 Ha). Qed.

Lemma tour_size_pos : 0 < n.
Proof. apply tour_In. eapply nth_error_In. exact tour_start. Qed.

(** A tour has a city outside every shorter list of distinct cities. *)
Lemma tour_unvisited (it : list nat) :
  length it < n -> exists k c, nth_error a k = Some c /\ ~ In c it.
Proof.
  intros Hlt.
  destruct (Forall_Exists_dec (fun c => In c it)
              (fun c => in_dec Nat.eq_dec c it) a) as [Hall | Hex].
  - exfalso. rewrite Forall_forall in Hall.
    pose proof (NoDup_incl_length tour_NoDup Hall) as Hle.
    rewrite tour_length in Hle. lia.
  - apply Exists_exists in Hex. destruct Hex as (c & Hc & Hnot).
    apply In_nth_error in Hc. destruct Hc as [k Hk]. exists k, c. auto.
Qed.

End TourFacts.

(** ** The cursors of [sex] *)

(** Where a cursor stops: on the first position from [i] on whose city is
    not in the itinerary, provided there is one. *)
Lemma advance_finds (a it : list nat) : forall fuel i k c,
  length a - i <= fuel ->
  i <= k -> nth_error a k = Some c -> ~ In c it ->
  exists i' c',
    advance fuel a it i = Some i'
    /\ i <= i' <= k
    /\ nth_error a i' = Some c' /\ ~ In c' it
    /\ (forall t d, i <= t < i' -> nth_error a t = Some d -> In d it).
Proof.
  induction fuel as [| fuel IH]; intros i k c Hfuel Hik Hk Hc.
  - assert (k < length a) by (apply nth_error_Some; congruence). lia.
  - assert (Hklt : k < length a) by (apply nth_error_Some; congruence).
    simpl. destruct (nth_error a i) as [d |] eqn:Hi;
      [| apply nth_error_None in Hi; lia].
    destruct (visited it d) eqn:Hv.
    + assert (Hne : i <> k).
      { intros ->. rewrite Hk in Hi. inversion Hi; subst.
        apply visited_In in Hv. contradiction. }
      destruct (IH (S i) k c) as (i' & c' & Hadv & Hrange & Hi' & Hc' & Hskip);
        try lia; auto.
      exists i', c'. repeat split; auto; try lia.
      intros t e Ht He. destruct (Nat.eq_dec t i) as [-> | Hti].
      * rewrite Hi in He. inversion He; subst. apply visited_In. exact Hv.
      * apply (Hskip t e); [lia | exact He].
    + exists i, d. apply visited_false in Hv.
      repeat split; auto; try lia.
Qed.

Lemma advance_Some (a it : list nat) : forall fuel i i',
  advance fuel a it i = Some i' ->
  i <= i' < length a
  /\ exists c, nth_error a i' = Some c /\ visited it c = false.
Proof.
  induction fuel as [| fuel IH]; intros i i' H; simpl in H;
    destruct (nth_error a i) as [c |] eqn:Hi; try discriminate H;
    assert (Hlt : i < length a) by (apply nth_error_Some; congruence);
    destruct (visited it c) eqn:Hv; try discriminate H.
  - inversion H; subst. split; [lia | eauto].
  - apply IH in H. destruct H as [Hr Hc]. split; [lia | exact Hc].
  - inversion H; subst. split; [lia | eauto].
Qed.

(** ** The loop of [sex] on two tours *)

Section Sex.
Variables (m : Map) (a b : list nat).
Hypothesis Ha : is_tour (size m) a.
Hypothesis Hb : is_tour (size m) b.

Lemma sex_inv_init : sex_inv m a b sex_init.
Proof.
  constructor; simpl.
  - constructor; [intros [] | constructor].
  - exists []. reflexivity.
  - constructor; [| constructor]. exact (tour_size_pos _ _ Ha).
  - intros t c Ht H. assert (t = 0) by lia. subst.
    rewrite (tour_start _ _ Ha) in H. inversion H. auto.
  - intros t c Ht H. assert (t = 0) by lia. subst.
    rewrite (tour_start _ _ Hb) in H. inversion H. auto.
Qed.

Lemma inv_length_le st : sex_inv m a b st -> length (itin st) <= size m.
Proof.
  intros I. rewrite <- (length_seq (size m) 0).
  apply NoDup_incl_length; [exact (inv_NoDup I) |].
  intros c Hc. apply in_seq.
  pose proof (inv_range I) as HR. rewrite Forall_forall in HR.
  apply HR in Hc. lia.
Qed.

Lemma inv_back st : sex_inv m a b st -> last (itin st) 0 < size m.
Proof.
  intros I. destruct (inv_start I) as [rest E].
  pose proof (inv_range I) as HR. rewrite Forall_forall in HR. apply HR.
  destruct (exists_last (l := itin st)) as (l' & z & E'); [rewrite E; discriminate |].
  rewrite E', last_last. apply in_or_app. right. left. reflexivity.
Qed.

(** A cursor stops inside its parent, on a city not yet in the itinerary. *)
Lemma cursor_stops (p : list nat) (cur : nat) (it : list nat) :
  is_tour (size m) p -> length it < size m ->
  (forall t c, t < cur -> nth_error p t = Some c -> In c it) ->
  exists i c,
    advance (length p) p it cur = Some i
    /\ cur <= i < length p
    /\ nth_error p i = Some c /\ ~ In c it
    /\ (forall t d, t < i -> nth_error p t = Some d -> In d it).
Proof.
  intros Hp Hlt Hseen.
  destruct (tour_unvisited _ _ Hp it Hlt) as (k & c & Hk & Hc).
  assert (Hcur : cur <= k).
  { destruct (le_lt_dec cur k) as [H | H]; [exact H |].
    exfalso. apply Hc. exact (Hseen k c H Hk). }
  destruct (advance_finds p it (length p) cur k c) as
    (i & c' & Hadv & Hrange & Hi & Hc' & Hskip); auto; try lia.
  assert (Hklt : k < length p) by (apply nth_error_Some; congruence).
  exists i, c'. repeat split; auto; try lia.
  intros t d Ht Hd. destruct (le_lt_dec cur t) as [H | H].
  - apply (Hskip t d); [lia | exact Hd].
  - exact (Hseen t d H Hd).
Qed.

Lemma sex_body_progress st :
  sex_inv m a b st -> length (itin st) < size m ->
  exists i j ai bj da db,
    advance (length a) a (itin st) (cur_i st) = Some i
    /\ advance (length b) b (itin st) (cur_j st) = Some j
    /\ i < length a /\ j < length b
    /\ nth_error a i = Some ai /\ ~ In ai (itin st)
    /\ nth_error b j = Some bj /\ ~ In bj (itin st)
    /\ (forall t d, t < i -> nth_error a t = Some d -> In d (itin st))
    /\ (forall t d, t < j -> nth_error b t = Some d -> In d (itin st))
    /\ distance m (last (itin st) 0) ai = Some da
    /\ distance m (last (itin st) 0) bj = Some db
    /\ sex_body a b m st = Some (pass_outcome st i j ai bj da db).
Proof.
  intros I Hlt.
  destruct (cursor_stops a (cur_i st) (itin st) Ha Hlt (inv_a I))
    as (i & ai & Hadva & Hri & Hai & Hnai & Hskipa).
  destruct (cursor_stops b (cur_j st) (itin st) Hb Hlt (inv_b I))
    as (j & bj & Hadvb & Hrj & Hbj & Hnbj & Hskipb).
  assert (Hai_lt : ai < size m).
  { apply (tour_In _ _ Ha). eapply nth_error_In; eassumption. }
  assert (Hbj_lt : bj < size m).
  { apply (tour_In _ _ Hb). eapply nth_error_In; eassumption. }
  destruct (distance_total m (last (itin st) 0) ai (inv_back _ I) Hai_lt) as [da Hda].
  destruct (distance_total m (last (itin st) 0) bj (inv_back _ I) Hbj_lt) as [db Hdb].
  exists i, j, ai, bj, da, db. repeat split; auto; try lia.
  unfold sex_body, pass_outcome. rewrite Hadva, Hadvb.
  destruct (i =? length a) eqn:Ei; [apply Nat.eqb_eq in Ei; lia |].
  destruct (j =? length b) eqn:Ej; [apply Nat.eqb_eq in Ej; lia |].
  rewrite Hai, Hbj, Hda, Hdb.
  destruct (da <? db)%float; reflexivity.
Qed.

Lemma sex_body_inv st br i j st' :
  sex_inv m a b st -> length (itin st) < size m ->
  sex_body a b m st = Some (br, i, j, st') ->
  sex_inv m a b st' /\ length (itin st') = S (length (itin st)).
Proof.
  intros I Hlt Hbody.
  destruct (sex_body_progress st I Hlt) as
    (i0 & j0 & ai & bj & da & db & _ & _ & Hi & Hj & Hai & Hnai & Hbj & Hnbj
     & Hskipa & Hskipb & _ & _ & Hbody').
  rewrite Hbody' in Hbody. unfold pass_outcome in Hbody.
  assert (Hai_lt : ai < size m).
  { apply (tour_In _ _ Ha). eapply nth_error_In; eassumption. }
  assert (Hbj_lt : bj < size m).
  { apply (tour_In _ _ Hb). eapply nth_error_In; eassumption. }
  destruct (inv_start I) as [rest Hrest].
  destruct (da <? db)%float; inversion Hbody; subst; clear Hbody;
    (split; [constructor; simpl | simpl; rewrite length_app; simpl; lia]).
  - apply NoDup_app; [exact (inv_NoDup I) | repeat constructor; intros [] |].
    intros c Hc [<- | []]. contradiction.
  - rewrite Hrest. eexists. reflexivity.
  - apply Forall_app. split; [exact (inv_range I) | repeat constructor; exact Hai_lt].
  - intros t c Ht Hc. apply in_or_app.
    destruct (Nat.eq_dec t i) as [-> | Hne].
    + right. rewrite Hai in Hc. inversion Hc. left. reflexivity.
    + left. apply (Hskipa t c); [lia | exact Hc].
  - intros t c Ht Hc. apply in_or_app. left. exact (Hskipb t c Ht Hc).
  - apply NoDup_app; [exact (inv_NoDup I) | repeat constructor; intros [] |].
    intros c Hc [<- | []]. contradiction.
  - rewrite Hrest. eexists. reflexivity.
  - apply Forall_app. split; [exact (inv_range I) | repeat constructor; exact Hbj_lt].
  - intros t c Ht Hc. apply in_or_app. left. exact (Hskipa t c Ht Hc).
  - intros t c Ht Hc. apply in_or_app.
    destruct (Nat.eq_dec t j) as [-> | Hne].
    + right. rewrite Hbj in Hc. inversion Hc. left. reflexivity.
    + left. apply (Hskipb t c); [lia | exact Hc].
Qed.

Lemma sex_reach_inv st : sex_reach a b m st -> sex_inv m a b st.
Proof.
  induction 1 as [| st br i j st' _ IH Hlt Hbody].
  - exact sex_inv_init.
  - exact (proj1 (sex_body_inv st br i j st' IH Hlt Hbody)).
Qed.

(** The loop ends, on a state it reaches, with every city of the map in the
    itinerary. *)
Lemma sex_loop_total : forall fuel st,
  sex_reach a b m st -> size m - length (itin st) <= fuel ->
  exists st',
    sex_loop fuel a b m st = Some st'
    /\ sex_reach a b m st'
    /\ length (itin st') = size m.
Proof.
  induction fuel as [| fuel IH]; intros st Hreach Hfuel;
    pose proof (sex_reach_inv st Hreach) as I;
    pose proof (inv_length_le st I) as Hle;
    cbn [sex_loop];
    destruct (Nat.ltb_spec (length (itin st)) (size m)) as [Hc | Hc];
    try lia;
    try (exists st; repeat split; auto; lia).
  destruct (sex_body_progress st I Hc) as
    (i & j & ai & bj & da & db & _ & _ & _ & _ & _ & _ & _ & _ & _ & _ & _ & _ & Hbody).
  rewrite Hbody.
  destruct (pass_outcome st i j ai bj da db) as [[[br i'] j'] st'].
  destruct (sex_body_inv st br i' j' st' I Hc Hbody) as [_ Hlen].
  apply IH; [econstructor; eassumption | lia].
Qed.

(** The itinerary the loop ends with is a permutation of the cities. *)
Lemma sex_itinerary_perm st :
  sex_reach a b m st -> length (itin st) = size m ->
  Permutation (seq 0 (size m)) (itin st).
Proof.
  intros Hreach Hlen. pose proof (sex_reach_inv st Hreach) as I.
  apply Permutation_sym, NoDup_Permutation_bis.
  - exact (inv_NoDup I).
  - rewrite length_seq. lia.
  - intros c Hc. apply in_seq.
    pose proof (inv_range I) as HR. rewrite Forall_forall in HR.
    apply HR in Hc. lia.
Qed.

End Sex.

(** The loop of [sex] only passes through the states of [sex_reach]. *)
Lemma sex_loop_reach (m : Map) (a b : list nat) : forall fuel st st',
  sex_reach a b m st -> sex_loop fuel a b m st = Some st' -> sex_reach a b m st'.
Proof.
  induction fuel as [| fuel IH]; intros st st' Hreach H; cbn [sex_loop] in H;
    destruct (Nat.ltb_spec (length (itin st)) (size m)) as [Hc | Hc];
    try discriminate H; try (inversion H; subst; exact Hreach).
  destruct (sex_body a b m st) as [[[[br i] j] st1] |] eqn:Hbody;
    [| discriminate H].
  apply (IH st1 st'); [| exact H].
  econstructor; eassumption.
Qed.

(** The child of two tours of the map exists and is a tour of the map. *)
Lemma sex_child_tour (m : Map) (a b : Tour) :
  is_tour (size m) (itinerary a) -> is_tour (size m) (itinerary b) ->
  exists child,
    sex a b m = Some child
    /\ is_tour (size m) (itinerary child)
    /\ NoDup (itinerary child).
Proof.
  intros Ha Hb.
  destruct (sex_loop_total m (itinerary a) (itinerary b) Ha Hb (size m) sex_init)
    as (st & Hloop & Hreach & Hlen); [constructor | lia |].
  pose proof (sex_reach_inv m _ _ Ha Hb st Hreach) as I.
  pose proof (sex_itinerary_perm m _ _ Ha Hb st Hreach Hlen) as HP.
  destruct (inv_start I) as [rest Hrest].
  destruct (Tour_of_total m (itin st)) as [len Hlenof].
  { rewrite Hrest. discriminate. }
  { exact (inv_range I). }
  exists (mkTour (itin st) len). unfold sex. rewrite Hloop.
  repeat split; auto; simpl.
  - rewrite Hrest. reflexivity.
  - exact (inv_NoDup I).
Qed.

(** C6.  The child of two tours of the map exists, and its itinerary is a
    permutation of [0, ..., n - 1]: it has [n] cities and every city of the
    map exactly once. *)
Theorem sex_child_is_permutation (m : Map) (a b : Tour) :
  is_tour (size m) (itinerary a) -> is_tour (size m) (itinerary b) ->
  exists child,
    sex a b m = Some child
    /\ Permutation (seq 0 (size m)) (itinerary child)
    /\ length (itinerary child) = size m
    /\ (forall c, c < size m ->
          count_occ Nat.eq_dec (itinerary child) c = 1).
Proof.
  intros Ha Hb.
  destruct (sex_child_tour m a b Ha Hb) as (child & Hsex & Htour & Hnd).
  exists child. repeat split; auto.
  - exact (proj1 Htour).
  - exact (tour_length _ _ Htour).
  - intros c Hc. apply NoDup_count_occ'; [exact Hnd |].
    apply (tour_In _ _ Htour). exact Hc.
Qed.

Lemma sex_child_is_permutation_witness :
  exists child,
    sex around across unit_square = Some child
    /\ Permutation (seq 0 (size unit_square)) (itinerary child)
    /\ length (itinerary child) = size unit_square
    /\ (forall c, c < size unit_square ->
          count_occ Nat.eq_dec (itinerary child) c = 1).
Proof.
  apply (sex_child_is_permutation unit_square around across);
    apply is_tourb_sound; reflexivity.
Defined.

(** C10.  On two tours of the map, before every pass of the loop of [sex]
    each cursor stops strictly inside its parent, on a city that is not yet
    in the itinerary: no scan reads [a[a.size()]] or [b[b.size()]].  The
    pass then compares the two candidates, and the branches for an
    exhausted parent are not taken. *)
Theorem sex_cursors_stay_inside (m : Map) (a b : list nat) (st : sex_state) :
  is_tour (size m) a -> is_tour (size m) b ->
  sex_reach a b m st -> length (itin st) < size m ->
  exists br i j st' ca cb,
    sex_body a b m st = Some (br, i, j, st')
    /\ advance (length a) a (itin st) (cur_i st) = Some i
    /\ advance (length b) b (itin st) (cur_j st) = Some j
    /\ i < length a /\ j < length b
    /\ nth_error a i = Some ca /\ visited (itin st) ca = false
    /\ nth_error b j = Some cb /\ visited (itin st) cb = false
    /\ (br = NearerA \/ br = NoWorseB).
Proof.
  intros Ha Hb Hreach Hlt.
  pose proof (sex_reach_inv m a b Ha Hb st Hreach) as I.
  destruct (sex_body_progress m a b Ha Hb st I Hlt) as
    (i & j & ai & bj & da & db & Hadva & Hadvb & Hi & Hj & Hai & Hnai & Hbj & Hnbj
     & _ & _ & _ & _ & Hbody).
  apply visited_false in Hnai, Hnbj.
  unfold pass_outcome in Hbody.
  destruct (da <? db)%float;
    [exists NearerA | exists NoWorseB]; exists i, j; eexists; exists ai, bj;
    repeat split; eauto.
Qed.

Lemma sex_cursors_stay_inside_witness :
  exists br i j st' ca cb,
    sex_body [0; 1; 2; 3] [0; 2; 1; 3] unit_square sex_init = Some (br, i, j, st')
    /\ advance 4 [0; 1; 2; 3] [0] 1 = Some i
    /\ advance 4 [0; 2; 1; 3] [0] 1 = Some j
    /\ i < 4 /\ j < 4
    /\ nth_error [0; 1; 2; 3] i = Some ca /\ visited [0] ca = false
    /\ nth_error [0; 2; 1; 3] j = Some cb /\ visited [0] cb = false
    /\ (br = NearerA \/ br = NoWorseB).
Proof.
  apply (sex_cursors_stay_inside unit_square [0; 1; 2; 3] [0; 2; 1; 3] sex_init).
  - apply is_tourb_sound. reflexivity.
  - apply is_tourb_sound. reflexivity.
  - constructor.
  - unfold size, unit_square. simpl. lia.
Defined.

(** ** A tour crossed with itself *)

Lemma firstn_snoc {A} (l : list A) : forall k c,
  nth_error l k = Some c -> firstn (S k) l = firstn k l ++ [c].
Proof.
  induction l as [| x l IH]; intros [| k] c H; simpl in *; try discriminate.
  - inversion H. reflexivity.
  - f_equal. apply IH. exact H.
Qed.

Lemma In_firstn {A} (l : list A) (k : nat) (c : A) :
  In c (firstn k l) <-> exists t, t < k /\ nth_error l t = Some c.
Proof.
  split.
  - intros H. apply In_nth_error in H. destruct H as [t Ht].
    assert (Hlt : t < length (firstn k l)) by (apply nth_error_Some; congruence).
    rewrite length_firstn in Hlt.
    exists t. split; [lia |]. rewrite nth_error_firstn in Ht.
    destruct (t <? k) eqn:E; [exact Ht | discriminate Ht].
  - intros (t & Ht & Hc). apply nth_error_In with (n := t).
    rewrite nth_error_firstn. apply Nat.ltb_lt in Ht. rewrite Ht. exact Hc.
Qed.

Section SelfCross.
Variables (m : Map) (a : list nat).
Hypothesis Ha : is_tour (size m) a.

(** In an initial segment of [a], both cursors stop right after it. *)
Lemma cursor_after_prefix (k i : nat) (c : nat) :
  k < length a ->
  nth_error a i = Some c -> ~ In c (firstn k a) ->
  (forall t d, t < i -> nth_error a t = Some d -> In d (firstn k a)) ->
  i = k.
Proof.
  intros Hk Hi Hnot Hskip.
  destruct (lt_eq_lt_dec i k) as [[Hlt | Heq] | Hgt]; [| exact Heq |].
  - exfalso. apply Hnot. apply In_firstn. exists i. auto.
  - exfalso.
    destruct (nth_error a k) as [d |] eqn:Hd; [| apply nth_error_None in Hd; lia].
    pose proof (Hskip k d Hgt Hd) as Hin.
    apply In_firstn in Hin. destruct Hin as (t & Ht & Hdt).
    pose proof (tour_NoDup _ _ Ha) as Hnd.
    rewrite NoDup_nth_error in Hnd.
    assert (t = k); [| lia].
    apply Hnd; [apply nth_error_Some; congruence | congruence].
Qed.

Lemma self_reach_prefix st : sex_reach a a m st -> prefix_of a st.
Proof.
  induction 1 as [| st br i j st' Hreach IH Hlt Hbody].
  - unfold prefix_of. simpl.
    pose proof (tour_start _ _ Ha) as H0. destruct a; [discriminate H0 |].
    simpl in H0. inversion H0. reflexivity.
  - pose proof (sex_reach_inv m a a Ha Ha st Hreach) as I.
    destruct (sex_body_progress m a a Ha Ha st I Hlt) as
      (i0 & j0 & ai & bj & da & db & _ & _ & _ & _ & Hai & Hnai & Hbj & Hnbj
       & Hskipa & Hskipb & _ & _ & Hbody').
    rewrite Hbody' in Hbody. unfold prefix_of in *.
    set (k := length (itin st)) in *.
    assert (Hk : k < length a) by (rewrite (tour_length _ _ Ha); exact Hlt).
    rewrite IH in Hnai, Hnbj, Hskipa, Hskipb.
    assert (Ei : i0 = k) by (eapply cursor_after_prefix; eassumption).
    assert (Ej : j0 = k) by (eapply cursor_after_prefix; eassumption).
    subst i0 j0. rewrite Hai in Hbj. inversion Hbj; subst bj.
    unfold pass_outcome in Hbody.
    destruct (da <? db)%float; inversion Hbody; subst; simpl;
      rewrite length_app; simpl; fold k;
      replace (k + 1) with (S k) by lia;
      rewrite (firstn_snoc a k ai Hai); f_equal; exact IH.
Qed.

Lemma self_cross_itinerary st :
  sex_reach a a m st -> length (itin st) = size m -> itin st = a.
Proof.
  intros Hreach Hlen. rewrite (self_reach_prefix st Hreach), Hlen.
  rewrite <- (tour_length _ _ Ha). apply firstn_all.
Qed.

End SelfCross.

(** C7.  Crossing a tour of the map with itself returns a child with the
    itinerary of that tour. *)
Theorem sex_self (m : Map) (a : Tour) :
  is_tour (size m) (itinerary a) ->
  exists child, sex a a m = Some child /\ itinerary child = itinerary a.
Proof.
  intros Ha.
  destruct (sex_loop_total m (itinerary a) (itinerary a) Ha Ha (size m) sex_init)
    as (st & Hloop & Hreach & Hlen); [constructor | lia |].
  pose proof (self_cross_itinerary m _ Ha st Hreach Hlen) as Hit.
  pose proof (sex_reach_inv m _ _ Ha Ha st Hreach) as I.
  destruct (Tour_of_total m (itin st)) as [len Hlenof].
  { destruct (inv_start I) as [rest ->]. discriminate. }
  { exact (inv_range I). }
  exists (mkTour (itin st) len). unfold sex. rewrite Hloop. auto.
Qed.

Lemma sex_self_witness :
  exists child,
    sex across across unit_square = Some child
    /\ itinerary child = itinerary across.
Proof.
  apply (sex_self unit_square across). apply is_tourb_sound. reflexivity.
Defined.

(** ** Which candidate a pass appends *)

(** A pass that completes has stopped both cursors inside their parents, on
    cities not yet in the itinerary, and has appended one of the two. *)
Lemma sex_body_Some (m : Map) (a b : list nat) (st st' : sex_state)
    (br : branch) (i j : nat) :
  sex_body a b m st = Some (br, i, j, st') ->
  exists ai bj da db,
    advance (length a) a (itin st) (cur_i st) = Some i
    /\ advance (length b) b (itin st) (cur_j st) = Some j
    /\ i < length a /\ j < length b
    /\ nth_error a i = Some ai /\ visited (itin st) ai = false
    /\ nth_error b j = Some bj /\ visited (itin st) bj = false
    /\ distance m (last (itin st) 0) ai = Some da
    /\ distance m (last (itin st) 0) bj = Some db
    /\ (if (da <? db)%float
        then br = NearerA /\ st' = mkSex (S i) j (itin st ++ [ai])
        else br = NoWorseB /\ st' = mkSex i (S j) (itin st ++ [bj])).
Proof.
  unfold sex_body. intros H.
  destruct (advance (length a) a (itin st) (cur_i st)) as [i0 |] eqn:Hadva;
    [| discriminate H].
  destruct (advance (length b) b (itin st) (cur_j st)) as [j0 |] eqn:Hadvb;
    [| discriminate H].
  destruct (advance_Some _ _ _ _ _ Hadva) as (Hri & ai & Hai & Hva).
  destruct (advance_Some _ _ _ _ _ Hadvb) as (Hrj & bj & Hbj & Hvb).
  destruct (Nat.eqb_spec i0 (length a)) as [E | _]; [lia |].
  destruct (Nat.eqb_spec j0 (length b)) as [E | _]; [lia |].
  rewrite Hai, Hbj in H.
  destruct (distance m (last (itin st) 0) ai) as [da |] eqn:Hda; [| discriminate H].
  destruct (distance m (last (itin st) 0) bj) as [db |] eqn:Hdb; [| discriminate H].
  exists ai, bj, da, db.
  destruct (da <? db)%float eqn:Hlt; inversion H; subst; clear H;
    rewrite ?Hlt; repeat split; auto; lia.
Qed.

(** Every pass that completes appends exactly one city. *)
Lemma sex_body_grows (m : Map) (a b : list nat) (st st' : sex_state)
    (br : branch) (i j : nat) :
  sex_body a b m st = Some (br, i, j, st') ->
  length (itin st') = S (length (itin st)).
Proof.
  intros H. apply sex_body_Some in H.
  destruct H as (ai & bj & da & db & _ & _ & _ & _ & _ & _ & _ & _ & _ & _ & H).
  destruct (da <? db)%float; destruct H as [_ ->]; simpl;
    rewrite length_app; simpl; lia.
Qed.

(** C2, as the program has it.  A pass of the loop of [sex] that completes
    has stopped both cursors inside their parents, on cities [ai] and [bj]
    not yet in the itinerary.  It appends [ai] when [ai] is strictly nearer
    to the last city than [bj], and [bj] otherwise; so the appended
    candidate is at least as near as the other, and of two candidates at
    equal distance the one of parent [b] is appended. *)
Theorem sex_body_nearest (m : Map) (a b : list nat) (st st' : sex_state)
    (br : branch) (i j : nat) :
  sex_body a b m st = Some (br, i, j, st') ->
  exists ai bj da db,
    advance (length a) a (itin st) (cur_i st) = Some i
    /\ advance (length b) b (itin st) (cur_j st) = Some j
    /\ i < length a /\ j < length b
    /\ nth_error a i = Some ai /\ visited (itin st) ai = false
    /\ nth_error b j = Some bj /\ visited (itin st) bj = false
    /\ distance m (last (itin st) 0) ai = Some da
    /\ distance m (last (itin st) 0) bj = Some db
    /\ (if (da <? db)%float
        then br = NearerA /\ st' = mkSex (S i) j (itin st ++ [ai])
             /\ (da <=? db)%float = true
        else br = NoWorseB /\ st' = mkSex i (S j) (itin st ++ [bj])
             /\ (db <=? da)%float = true)
    /\ ((da =? db)%float = true -> itin st' = itin st ++ [bj]).
Proof.
  intros H. apply sex_body_Some in H.
  destruct H as (ai & bj & da & db & Hadva & Hadvb & Hi & Hj & Hai & Hva
                 & Hbj & Hvb & Hda & Hdb & Hst).
  exists ai, bj, da, db. repeat (split; [assumption |]).
  pose proof (distance_number _ _ _ _ Hda) as Hna.
  pose proof (distance_number _ _ _ _ Hdb) as Hnb.
  destruct (da <? db)%float eqn:Hlt; destruct Hst as [-> ->]; split.
  - repeat split. apply FloatOrder.ltb_leb. exact Hlt.
  - intros Heq. apply FloatOrder.eqb_not_ltb in Heq. congruence.
  - repeat split. apply FloatOrder.not_ltb_leb; assumption.
  - intros _. reflexivity.
Qed.

Lemma sex_body_nearest_witness :
  exists ai bj da db,
    advance 4 [0; 1; 2; 3] [0] 1 = Some 1
    /\ advance 4 [0; 2; 1; 3] [0] 1 = Some 1
    /\ 1 < 4 /\ 1 < 4
    /\ nth_error [0; 1; 2; 3] 1 = Some ai /\ visited [0] ai = false
    /\ nth_error [0; 2; 1; 3] 1 = Some bj /\ visited [0] bj = false
    /\ distance unit_square 0 ai = Some da
    /\ distance unit_square 0 bj = Some db
    /\ (if (da <? db)%float
        then NearerA = NearerA /\ mkSex 2 1 [0; 1] = mkSex 2 1 ([0] ++ [ai])
             /\ (da <=? db)%float = true
        else NearerA = NoWorseB /\ mkSex 2 1 [0; 1] = mkSex 1 2 ([0] ++ [bj])
             /\ (db <=? da)%float = true)
    /\ ((da =? db)%float = true -> [0; 1] = [0] ++ [bj]).
Proof.
  apply (sex_body_nearest unit_square [0; 1; 2; 3] [0; 2; 1; 3]
           sex_init (mkSex 2 1 [0; 1]) NearerA 1 1).
  vm_compute. reflexivity.
Defined.

(** C2, the tie.  On the line map, cities [1] and [2] are both at distance
    [1] from city [0]; parent [a] offers [1], parent [b] offers [2], and the
    pass appends [2]. *)
Lemma sex_tie_appends_b :
  advance 3 [0; 1; 2] [0] 1 = Some 1
  /\ nth_error [0; 1; 2] 1 = Some 1
  /\ advance 3 [0; 2; 1] [0] 1 = Some 1
  /\ nth_error [0; 2; 1] 1 = Some 2
  /\ distance line3 0 1 = Some 1%float
  /\ distance line3 0 2 = Some 1%float
  /\ (1 =? 1)%float = true
  /\ sex_body [0; 1; 2] [0; 2; 1] line3 sex_init
     = Some (NoWorseB, 1, 1, mkSex 1 2 [0; 2])
  /\ option_map itinerary (sex (tour_on line3 [0; 1; 2]) (tour_on line3 [0; 2; 1]) line3)
     = Some [0; 2; 1].
Proof. vm_compute. repeat split; reflexivity. Qed.

(** ** The fuel of the loops *)

(** The loops are given as many passes as they can make: one more would
    change nothing. *)
Lemma advance_fuel (a it : list nat) : forall fuel i,
  length a - i <= fuel -> advance (S fuel) a it i = advance fuel a it i.
Proof.
  induction fuel as [| fuel IH]; intros i H.
  - cbn [advance].
    destruct (nth_error a i) eqn:E; [| reflexivity].
    assert (i < length a) by (apply nth_error_Some; congruence). lia.
  - change (advance (S (S fuel)) a it i)
      with (match nth_error a i with
            | None => None
            | Some c => if visited it c then advance (S fuel) a it (S i) else Some i
            end).
    change (advance (S fuel) a it i)
      with (match nth_error a i with
            | None => None
            | Some c => if visited it c then advance fuel a it (S i) else Some i
            end).
    destruct (nth_error a i) as [c |]; [| reflexivity].
    destruct (visited it c); [| reflexivity].
    apply IH. lia.
Qed.

Lemma sex_loop_fuel (m : Map) (a b : list nat) : forall fuel st,
  size m - length (itin st) <= fuel ->
  sex_loop (S fuel) a b m st = sex_loop fuel a b m st.
Proof.
  induction fuel as [| fuel IH]; intros st H.
  - cbn [sex_loop].
    destruct (Nat.ltb_spec (length (itin st)) (size m)); [lia | reflexivity].
  - change (sex_loop (S (S fuel)) a b m st)
      with (if length (itin st) <? size m
            then match sex_body a b m st with
                 | Some (_, _, _, st') => sex_loop (S fuel) a b m st'
                 | None => None
                 end
            else Some st).
    change (sex_loop (S fuel) a b m st)
      with (if length (itin st) <? size m
            then match sex_body a b m st with
                 | Some (_, _, _, st') => sex_loop fuel a b m st'
                 | None => None
                 end
            else Some st).
    destruct (length (itin st) <? size m); [| reflexivity].
    destruct (sex_body a b m st) as [[[[br i] j] st'] |] eqn:Hbody;
      [| reflexivity].
    apply IH. apply sex_body_grows in Hbody. lia.
Qed.

Lemma breed_pass (fuel depth : nat) (m : Map) (ts children : list Tour) :
  breed (S fuel) depth m ts children
  = if length children <? length ts then
      ' (a, ts1) <- findParent depth ts ;;
      ' (b, ts2) <- findParent depth ts1 ;;
      ta <- lift (nth_error ts2 a) ;;
      tb <- lift (nth_error ts2 b) ;;
      child <- (if negb (vector_eqb (itinerary ta) (itinerary tb))
                then lift (sex ta tb m) else ret ta) ;;
      breed fuel depth m ts2 (children ++ [child])
    else ret (ts, children).
Proof. reflexivity. Qed.

Lemma breed_fuel (depth : nat) (m : Map) : forall fuel ts children rs,
  length ts - length children <= fuel ->
  breed (S fuel) depth m ts children rs = breed fuel depth m ts children rs.
Proof.
  induction fuel as [| fuel IH]; intros ts children rs H.
  - cbn [breed].
    destruct (Nat.ltb_spec (length children) (length ts)); [lia | reflexivity].
  - rewrite (breed_pass (S fuel) depth m ts children),
      (breed_pass fuel depth m ts children).
    destruct (length children <? length ts) eqn:Hc; [| reflexivity].
    apply Nat.ltb_lt in Hc. unfold bind at 1 6.
    destruct (findParent depth ts rs) as [[[ka ts1] rs1] | |] eqn:E1;
      try reflexivity.
    unfold bind at 1 5.
    destruct (findParent depth ts1 rs1) as [[[kb ts2] rs2] | |] eqn:E2;
      try reflexivity.
    apply findParent_Ok in E1, E2.
    destruct E1 as (HP1 & _), E2 as (HP2 & _).
    apply Permutation_length in HP1, HP2.
    unfold bind at 1 4.
    destruct (lift (nth_error ts2 ka) rs2) as [[ta rs3] | |]; try reflexivity.
    unfold bind at 1 3.
    destruct (lift (nth_error ts2 kb) rs3) as [[tb rs4] | |]; try reflexivity.
    unfold bind.
    destruct ((if negb (vector_eqb (itinerary ta) (itinerary tb))
               then lift (sex ta tb m) else ret ta) rs4)
      as [[child rs5] | |]; try reflexivity.
    apply (IH ts2 (children ++ [child]) rs5).
    rewrite length_app. simpl. lia.
Qed.

(** ** The unit square *)

(** Around the square the tour has length [4]; across the diagonals,
    [1 + sqrt 2 + 1 + sqrt 2]. *)
Example unit_square_lengths :
  lengthOfItinerary [0; 1; 2; 3] unit_square = Some 4%float
  /\ exists len,
       lengthOfItinerary [0; 2; 1; 3] unit_square = Some len
       /\ (4.8125 <? len)%float = true /\ (len <? 4.875)%float = true.
Proof.
  split; [vm_compute; reflexivity |].
  eexists. split; [vm_compute; reflexivity |].
  split; vm_compute; reflexivity.
Qed.

(** Crossing the two gives the tour around the square. *)
Example unit_square_crossover :
  sex around across unit_square = Some around
  /\ itinerary around = [0; 1; 2; 3]
  /\ _length around = 4%float.
Proof. vm_compute. repeat split; reflexivity. Qed.

(** ** The cached length *)

Lemma Tour_of_Some (m : Map) (it : list nat) (t : Tour) :
  Tour_of it m = Some t -> itinerary t = it /\ cache_ok m t.
Proof.
  unfold Tour_of, cache_ok.
  destruct (lengthOfItinerary it m) as [len |] eqn:E; [| discriminate].
  intros H. inversion H; subst. simpl. auto.
Qed.

Lemma Tour_random_cache (m : Map) (rs rs' : list Z) (t : Tour) :
  Tour_random m rs = Ok (t, rs') -> cache_ok m t.
Proof.
  unfold Tour_random. destruct (seq 0 (size m)) as [| c0 rest]; [discriminate |].
  intros H. apply bind_Ok in H as (rest' & rs1 & _ & H).
  apply lift_Ok in H as [H _]. apply (Tour_of_Some _ _ _ H).
Qed.

Lemma sex_cache (m : Map) (a b child : Tour) :
  sex a b m = Some child -> cache_ok m child.
Proof.
  unfold sex. destruct (sex_loop _ _ _ _ _) as [st |]; [| discriminate].
  intros H. apply (Tour_of_Some _ _ _ H).
Qed.

Lemma mutate_cache (m : Map) (t t' : Tour) (p : float) (kind : Z)
    (rs rs' : list Z) :
  cache_ok m t -> mutate t p m rs = Ok ((kind, t'), rs') -> cache_ok m t'.
Proof.
  unfold mutate. intros Hc H.
  apply bind_Ok in H as (d & rs1 & _ & H).
  destruct (p <? d)%float.
  - apply ret_Ok in H as [H _]. inversion H; subst. exact Hc.
  - apply bind_Ok in H as (i & rs2 & _ & H).
    apply bind_Ok in H as (j & rs3 & _ & H).
    apply bind_Ok in H as ([mutation it'] & rs4 & _ & H).
    apply bind_Ok in H as (len & rs5 & Hlen & H).
    apply lift_Ok in Hlen as [Hlen _].
    apply ret_Ok in H as [H _]. inversion H; subst. exact Hlen.
Qed.

Lemma mutate_each_cache (m : Map) (p : float) : forall cs rs cs' rs',
  Forall (cache_ok m) cs -> mutate_each p m cs rs = Ok (cs', rs') ->
  Forall (cache_ok m) cs'.
Proof.
  induction cs as [| c cs IH]; cbn [mutate_each]; intros rs cs' rs' Hall H.
  - apply ret_Ok in H as [-> _]. constructor.
  - apply Forall_cons_iff in Hall as [Hc Hcs].
    apply bind_Ok in H as ([kind c'] & rs1 & Hmut & H).
    apply bind_Ok in H as (cs1 & rs2 & Hrest & H).
    apply ret_Ok in H as [-> _].
    constructor; [eapply mutate_cache; eassumption | eapply IH; eassumption].
Qed.

Lemma breed_cache (depth : nat) (m : Map) :
  forall fuel ts children rs ts' children' rs',
    Forall (cache_ok m) ts -> Forall (cache_ok m) children ->
    breed fuel depth m ts children rs = Ok ((ts', children'), rs') ->
    Forall (cache_ok m) children'.
Proof.
  induction fuel as [| fuel IH];
    intros ts children rs ts' children' rs' Hts Hcs H; cbn [breed] in H;
    destruct (length children <? length ts);
    try discriminate H;
    try (apply ret_Ok in H as [H _]; inversion H; subst; exact Hcs).
  apply bind_Ok in H as ([ka ts1] & rs1 & Ha & H).
  apply bind_Ok in H as ([kb ts2] & rs2 & Hb & H).
  apply bind_Ok in H as (ta & rs3 & Hta & H).
  apply bind_Ok in H as (tb & rs4 & Htb & H).
  apply bind_Ok in H as (child & rs5 & Hchild & H).
  apply findParent_Ok in Ha, Hb.
  destruct Ha as (HP1 & _), Hb as (HP2 & _).
  assert (Hts2 : Forall (cache_ok m) ts2) by (rewrite <- HP2, <- HP1; exact Hts).
  apply lift_Ok in Hta as [Hta _].
  apply (IH _ _ _ _ _ _ Hts2) in H; [exact H |].
  apply Forall_app. split; [exact Hcs |].
  constructor; [| constructor].
  destruct (negb (vector_eqb (itinerary ta) (itinerary tb))).
  - apply lift_Ok in Hchild as [Hchild _]. eapply sex_cache. exact Hchild.
  - apply ret_Ok in Hchild as [-> _].
    rewrite Forall_forall in Hts2. apply Hts2.
    eapply nth_error_In. exact Hta.
Qed.

(** A generation of fresh caches follows a generation of fresh caches. *)
Lemma evolve_cache (p_mutate : float) (depth : nat) (pop pop' : Population)
    (rs rs' : list Z) :
  Forall (cache_ok (map pop)) (tours pop) ->
  evolve p_mutate depth pop rs = Ok (pop', rs') ->
  Forall (cache_ok (map pop')) (tours pop').
Proof.
  unfold evolve. intros Hall H.
  apply bind_Ok in H as (best & rs1 & Hbest & H).
  apply lift_Ok in Hbest as [Hbest _].
  apply bind_Ok in H as ([ts' children] & rs2 & Hbreed & H).
  apply bind_Ok in H as (mutated & rs3 & Hmut & H).
  apply ret_Ok in H as [-> _]. simpl.
  assert (Hbest_ok : cache_ok (map pop) best).
  { rewrite Forall_forall in Hall. apply Hall.
    eapply nth_error_In. exact Hbest. }
  apply breed_cache in Hbreed; [| exact Hall | constructor; [exact Hbest_ok | constructor]].
  apply mutate_each_cache in Hmut.
  - apply Forall_app. split; [| exact Hmut].
    destruct children; simpl; [constructor |].
    apply Forall_cons_iff in Hbreed as [Hc _]. constructor; [exact Hc | constructor].
  - destruct children; simpl; [constructor |].
    apply Forall_cons_iff in Hbreed as [_ Hcs]. exact Hcs.
Qed.

(** C9.  The tour that comes out of each operation caches the length of its
    itinerary, as [lengthOfItinerary] computes it: the random tour of a
    map, the tour built from an itinerary, the child of a crossover, and a
    tour after [mutate]. *)
Theorem length_cache_fresh (m : Map) :
  (forall rs rs' t, Tour_random m rs = Ok (t, rs') -> cache_ok m t)
  /\ (forall it t, Tour_of it m = Some t -> itinerary t = it /\ cache_ok m t)
  /\ (forall a b child, sex a b m = Some child -> cache_ok m child)
  /\ (forall t p rs kind t' rs',
        cache_ok m t -> mutate t p m rs = Ok ((kind, t'), rs') -> cache_ok m t').
Proof.
  split; [| split; [| split]].
  - intros rs rs' t. apply Tour_random_cache.
  - intros it t. apply Tour_of_Some.
  - intros a b child. apply sex_cache.
  - intros t p rs kind t' rs'. apply mutate_cache.
Qed.

Lemma length_cache_fresh_witness :
  cache_ok unit_square (tour_on unit_square [0; 3; 1; 2])
  /\ cache_ok unit_square across
  /\ cache_ok unit_square around
  /\ cache_ok unit_square (tour_on unit_square [0; 1; 3; 2]).
Proof.
  destruct (length_cache_fresh unit_square) as (Hrandom & Hof & Hsex & Hmutate).
  split; [| split; [| split]].
  - apply (Hrandom [0; 0]%Z []). vm_compute. reflexivity.
  - apply (proj2 (Hof [0; 2; 1; 3] across eq_refl)).
  - apply (Hsex around across). vm_compute. reflexivity.
  - apply (Hmutate around 1%float [7; 1; 1; 1]%Z 1%Z _ []).
    + vm_compute. reflexivity.
    + vm_compute. reflexivity.
Defined.

(** ** Mutation with probability zero *)

(** [mutate] leaves the tour alone exactly when the number it draws is
    above [p]. *)
Lemma mutate_skips (t : Tour) (p : float) (m : Map) (r : Z) (rs : list Z) :
  (p <? to_double r / to_double RAND_MAX * (1 - 0) + 0)%float = true ->
  mutate t p m (r :: rs) = Ok (((-1)%Z, t), rs).
Proof.
  intros H. unfold mutate, randomDouble, bind, rand, ret. rewrite H. reflexivity.
Qed.

Example mutate_skips_at_one :
  mutate around 0 unit_square [1%Z] = Ok (((-1)%Z, around), []).
Proof. apply mutate_skips. vm_compute. reflexivity. Qed.

(** C3.  A first draw of [0] makes [randomDouble(0, 1)] return [0.0]; with
    [p = 0.0] the test [0.0 > 0.0] fails, and [mutate] goes on to swap two
    cities and to recompute the length. *)
Theorem mutate_zero_probability_mutates :
  randomDouble 0 1 [0%Z] = Ok (0%float, [])
  /\ (0 <? 0)%float = false
  /\ mutate around 0 unit_square [0; 0; 0; 0]%Z = Ok ((0%Z, across), [])
  /\ itinerary around = [0; 1; 2; 3]
  /\ itinerary across = [0; 2; 1; 3]
  /\ (_length around <? _length across)%float = true.
Proof. vm_compute. repeat split; reflexivity. Qed.

(** ** Runs that are defined *)

(** A run that follows one more draw. *)
Lemma run_ok_cons {A} n (Q : A -> Prop) r rs res :
  run_ok n Q rs res -> run_ok (S n) Q (r :: rs) res.
Proof.
  destruct res as [[a rs'] | |]; simpl; auto.
  - intros (HQ & used & -> & Hused). split; [exact HQ |].
    exists (r :: used). split; [reflexivity |].
    intros Hall. inversion Hall; subst. simpl. apply le_n_S. auto.
  - intros H [Hall Hlen]. apply H. inversion Hall; subst.
    split; [assumption | lia].
Qed.

(** A run that follows a draw asking for a rotation. *)
Lemma run_ok_skip {A} n (Q : A -> Prop) r rs res :
  ~ plain r -> run_ok n Q rs res -> run_ok n Q (r :: rs) res.
Proof.
  intros Hr. destruct res as [[a rs'] | |]; simpl; auto.
  - intros (HQ & used & -> & Hused). split; [exact HQ |].
    exists (r :: used). split; [reflexivity |].
    intros Hall. inversion Hall; subst. contradiction.
  - intros H [Hall Hlen]. inversion Hall; subst. contradiction.
Qed.

Lemma runs_ret {A} (a : A) (Q : A -> Prop) : Q a -> runs (ret a) 0 Q.
Proof.
  intros H rs. simpl. split; [exact H |]. exists []. simpl. auto.
Qed.

Lemma runs_lift {A} (o : option A) (a : A) (Q : A -> Prop) :
  o = Some a -> Q a -> runs (lift o) 0 Q.
Proof. intros -> H. apply runs_ret. exact H. Qed.

Lemma runs_rand : runs rand 1 (fun _ => True).
Proof.
  intros [| r rs]; simpl.
  - intros [_ H]. simpl in H. lia.
  - split; [exact I |]. exists [r]. simpl. auto.
Qed.

Lemma runs_bind {A B} (c : Rand A) (k : A -> Rand B) n1 n2 n
    (Q : A -> Prop) (R : B -> Prop) :
  runs c n1 Q -> (forall a, Q a -> runs (k a) n2 R) -> n1 + n2 <= n ->
  runs (bind c k) n R.
Proof.
  intros Hc Hk Hn rs. specialize (Hc rs). unfold bind.
  destruct (c rs) as [[a rs1] | |].
  - destruct Hc as (HQ & used & -> & Hused).
    specialize (Hk a HQ rs1).
    destruct (k a rs1) as [[b rs2] | |].
    + destruct Hk as (HR & used' & -> & Hused').
      split; [exact HR |]. exists (used ++ used').
      split; [apply app_assoc |].
      intros Hall. rewrite length_app.
      pose proof (Hused Hall). apply Forall_app in Hall.
      pose proof (Hused' (proj2 Hall)). lia.
    + exact Hk.
    + intros [Hall Hlen]. apply Hk.
      pose proof (Hused Hall). apply Forall_app in Hall.
      rewrite length_app in Hlen. split; [tauto | lia].
  - exact Hc.
  - intros [Hall Hlen]. apply Hc. split; [exact Hall | lia].
Qed.

Lemma runs_weaken {A} (c : Rand A) n n' (Q Q' : A -> Prop) :
  runs c n Q -> n <= n' -> (forall a, Q a -> Q' a) -> runs c n' Q'.
Proof.
  intros Hc Hn HQ rs. specialize (Hc rs).
  destruct (c rs) as [[a rs1] | |].
  - destruct Hc as (H & used & -> & Hused).
    split; [auto |]. exists used. split; [reflexivity |].
    intros Hall. specialize (Hused Hall). lia.
  - exact Hc.
  - intros [Hall Hlen]. apply Hc. split; [exact Hall | lia].
Qed.

(** What [runs] says of a run that is given enough plain draws. *)
Lemma runs_returns {A} (c : Rand A) n (Q : A -> Prop) rs :
  runs c n Q -> Forall plain rs -> n <= length rs ->
  exists a rs', c rs = Ok (a, rs') /\ Q a /\ length rs <= length rs' + n.
Proof.
  intros Hc Hall Hlen. specialize (Hc rs).
  destruct (c rs) as [[a rs1] | |].
  - destruct Hc as (HQ & used & E & Hused). exists a, rs1.
    repeat split; auto. specialize (Hused Hall).
    rewrite E at 1. rewrite length_app. lia.
  - contradiction.
  - exfalso. apply Hc. auto.
Qed.

Lemma runs_defined {A} (c : Rand A) n (Q : A -> Prop) rs :
  runs c n Q -> c rs <> Undefined.
Proof.
  intros Hc E. specialize (Hc rs). rewrite E in Hc. exact Hc.
Qed.

Lemma wrap32_small (z : Z) : (0 <= z < 2 ^ 32)%Z -> wrap32 z = z.
Proof. apply Z.mod_small. Qed.

Lemma runs_randomIndex (a b : Z) :
  (0 <= a < b)%Z -> (b < 2 ^ 32)%Z ->
  runs (randomIndex a b) 1 (fun v => (a <= v < b)%Z).
Proof.
  intros Hab Hb. unfold randomIndex.
  apply (runs_bind _ _ 1 0 _ (fun _ => True)); [exact runs_rand | | lia].
  intros r _.
  rewrite (wrap32_small (b - a)) by lia.
  destruct (Z.eqb_spec (b - a) 0) as [E | _]; [lia |].
  apply runs_ret.
  pose proof (Z.mod_pos_bound (wrap32 r) (b - a)).
  rewrite wrap32_small; lia.
Qed.

Lemma runs_randomDouble (a b : float) :
  runs (randomDouble a b) 1 (fun _ => True).
Proof.
  unfold randomDouble.
  apply (runs_bind _ _ 1 0 _ (fun _ => True)); [exact runs_rand | | lia].
  intros r _. apply runs_ret. exact I.
Qed.

Lemma runs_shuffle_loop {A} k : forall i (l : list A),
  i + k <= length l ->
  runs (shuffle_loop k i l) k (fun l' => Permutation l l').
Proof.
  induction k as [| k IH]; intros i l Hi; cbn [shuffle_loop].
  - apply runs_ret. reflexivity.
  - apply (runs_bind _ _ 1 k _ (fun _ => True)); [exact runs_rand | | lia].
    intros r _.
    set (j := Z.to_nat (r mod (Z.of_nat i + 1))).
    assert (Hj : j <= i).
    { subst j. pose proof (Z.mod_pos_bound r (Z.of_nat i + 1)). lia. }
    assert (Hstep : exists l1, (if j =? i then Some l else swap_at l i j) = Some l1
                               /\ Permutation l l1).
    { destruct (j =? i); [exists l; auto |].
      destruct (swap_at_in_range l i j) as [l1 H1]; try lia.
      exists l1. split; [exact H1 | eapply swap_at_perm; eassumption]. }
    destruct Hstep as (l1 & Hl1 & HP).
    apply (runs_bind _ _ 0 k _ (fun l' => l' = l1)); [| | lia].
    + apply (runs_lift _ l1); auto.
    + intros ? ->.
      apply (runs_weaken _ k k (fun l' => Permutation l1 l')); auto.
      * apply IH. apply Permutation_length in HP. lia.
      * intros l' H. rewrite HP. exact H.
Qed.

Lemma runs_random_shuffle {A} (l : list A) :
  runs (random_shuffle l) (length l - 1) (fun l' => Permutation l l').
Proof.
  unfold random_shuffle. destruct l as [| a l].
  - simpl. apply runs_ret. reflexivity.
  - apply runs_shuffle_loop. simpl. lia.
Qed.

Lemma max_element_lt (range : list Tour) :
  range <> [] -> max_element range < length range.
Proof.
  intros Hne. destruct (max_element_spec range Hne) as (r & Hr & _).
  apply nth_error_Some. congruence.
Qed.

Lemma runs_findParent (depth : nat) (ts : list Tour) :
  ts <> [] -> depth <= length ts ->
  runs (findParent depth ts) (length ts - 1)
    (fun sel => Permutation ts (snd sel) /\ fst sel < length (snd sel)).
Proof.
  intros Hne Hd. unfold findParent.
  apply (runs_bind _ _ (length ts - 1) 0 _ (fun ts' => Permutation ts ts'));
    [apply runs_random_shuffle | | lia].
  intros ts' HP.
  pose proof (Permutation_length HP) as Hlen.
  destruct (Nat.ltb_spec (length ts') depth) as [H | _]; [lia |].
  assert (Hk : max_element (firstn depth ts') < length ts').
  { destruct (firstn depth ts') as [| t range] eqn:E.
    - simpl. destruct ts; [congruence | simpl in *; lia].
    - rewrite <- E.
      apply Nat.lt_le_trans with (length (firstn depth ts')).
      + apply max_element_lt. rewrite E. discriminate.
      + rewrite length_firstn. lia. }
  apply Nat.ltb_lt in Hk. rewrite Hk. apply runs_ret. simpl.
  apply Nat.ltb_lt in Hk. auto.
Qed.

(** ** Mutations keep a tour a tour *)

Lemma slice_skipn {A} (l : list A) (first last : nat) :
  first <= last -> skipn first l = slice l first last ++ skipn last l.
Proof.
  intros H. unfold slice.
  rewrite <- (firstn_skipn (last - first) (skipn first l)) at 1.
  rewrite skipn_skipn. replace (last - first + first) with last by lia.
  reflexivity.
Qed.

Lemma slice_split {A} (l : list A) (first last : nat) :
  first <= last -> l = firstn first l ++ slice l first last ++ skipn last l.
Proof.
  intros H. rewrite <- slice_skipn by exact H.
  symmetry. apply firstn_skipn.
Qed.

Lemma nth_error_0_firstn_app {A} (l rest : list A) (first : nat) :
  1 <= first -> l <> [] ->
  nth_error (firstn first l ++ rest) 0 = nth_error l 0.
Proof.
  intros Hf Hl. destruct first as [| first]; [lia |].
  destruct l as [| c l]; [congruence | reflexivity].
Qed.

Section Mutations.
Variables (n : nat) (it : list nat).
Hypothesis Hit : is_tour n it.

Lemma tour_nonempty : it <> [].
Proof.
  intros E. pose proof (tour_start _ _ Hit) as H. rewrite E in H. discriminate H.
Qed.

Lemma swap_at_tour (i j : nat) :
  1 <= i < n -> 1 <= j < n ->
  exists it', swap_at it i j = Some it' /\ is_tour n it'.
Proof.
  intros Hi Hj. pose proof (tour_length _ _ Hit) as Hlen.
  destruct (swap_at_in_range it i j) as [it' H]; try lia.
  exists it'. split; [exact H |]. split.
  - rewrite (proj1 Hit). eapply swap_at_perm. exact H.
  - unfold swap_at in H.
    destruct (nth_error it i) as [a |]; [| discriminate H].
    destruct (nth_error it j) as [b |]; [| discriminate H].
    inversion H; subst.
    rewrite nth_error_set_nth by (rewrite set_nth_length; lia).
    destruct (Nat.eqb_spec j 0) as [E | _]; [lia |].
    rewrite nth_error_set_nth by lia.
    destruct (Nat.eqb_spec i 0) as [E | _]; [lia |].
    exact (tour_start _ _ Hit).
Qed.

Lemma reverse_range_tour (first last : nat) :
  1 <= first <= last -> last <= n ->
  exists it', reverse_range it first last = Some it' /\ is_tour n it'.
Proof.
  intros Hf Hl. pose proof (tour_length _ _ Hit) as Hlen.
  unfold reverse_range.
  destruct (Nat.leb_spec first last) as [_ | H]; [| lia].
  destruct (Nat.leb_spec last (length it)) as [_ | H]; [| lia]. simpl.
  eexists. split; [reflexivity |]. split.
  - rewrite (proj1 Hit). rewrite (slice_split it first last) at 1 by lia.
    apply Permutation_app_head, Permutation_app_tail, Permutation_rev.
  - rewrite nth_error_0_firstn_app; [exact (tour_start _ _ Hit) | lia |].
    exact tour_nonempty.
Qed.

Lemma rotate_range_tour (first middle last : nat) :
  1 <= first <= middle -> middle <= last -> last <= n ->
  exists it', rotate_range it first middle last = Some it' /\ is_tour n it'.
Proof.
  intros Hf Hm Hl. pose proof (tour_length _ _ Hit) as Hlen.
  unfold rotate_range.
  destruct (Nat.leb_spec first middle) as [_ | H]; [| lia].
  destruct (Nat.leb_spec middle last) as [_ | H]; [| lia].
  destruct (Nat.leb_spec last (length it)) as [_ | H]; [| lia]. simpl.
  eexists. split; [reflexivity |]. split.
  - rewrite (proj1 Hit). rewrite (slice_split it first middle) at 1 by lia.
    rewrite (slice_skipn it middle last) by lia.
    apply Permutation_app_head. rewrite !app_assoc.
    apply Permutation_app_tail, Permutation_app_comm.
  - rewrite nth_error_0_firstn_app; [exact (tour_start _ _ Hit) | lia |].
    exact tour_nonempty.
Qed.

End Mutations.

(** ** [mutate] on a tour of three cities or more *)

Lemma runs_post {A} (c : Rand A) n (Q Q' : A -> Prop) :
  runs c n Q -> (forall rs a rs', c rs = Ok (a, rs') -> Q' a) ->
  runs c n (fun a => Q a /\ Q' a).
Proof.
  intros Hc HQ' rs. specialize (Hc rs). specialize (HQ' rs).
  unfold run_ok in *. destruct (c rs) as [[a rs'] | |]; auto.
  destruct Hc as [HQ Hused]. repeat split; eauto.
Qed.

Section Mutate.
Variables (m : Map) (n : nat).
Hypothesis Hn : n = size m.
Hypothesis Hthree : 3 <= n.
Hypothesis Hword : (Z.of_nat n < 2 ^ 32)%Z.

Lemma runs_mutate_loop (it : list nat) (i j : Z) :
  is_tour n it -> (1 <= i < j)%Z -> (j < Z.of_nat n)%Z ->
  runs (mutate_loop i j it) 2 (fun res => is_tour n (snd res)).
Proof.
  intros Hit Hij Hj rs. induction rs as [| r rs IH]; cbn [mutate_loop].
  - simpl. intros [_ H]. simpl in H. lia.
  - destruct (Z.eqb_spec (r mod 3) 0) as [E0 | N0].
    + destruct (swap_at_tour n it Hit (Z.to_nat i) (Z.to_nat j))
        as (it' & -> & Hit'); try lia.
      apply run_ok_cons.
      apply (runs_weaken _ 0 1 (fun res => is_tour n (snd res)));
        [apply runs_ret; exact Hit' | lia | auto].
    + destruct (Z.eqb_spec (r mod 3) 1) as [E1 | N1].
      * destruct (reverse_range_tour n it Hit (Z.to_nat i) (Z.to_nat j + 1))
          as (it' & -> & Hit'); try lia.
        apply run_ok_cons.
        apply (runs_weaken _ 0 1 (fun res => is_tour n (snd res)));
          [apply runs_ret; exact Hit' | lia | auto].
      * rewrite (wrap32_small (j - i)) by lia.
        destruct (Z.ltb_spec 2 (j - i)) as [Hfar | Hnear].
        -- apply run_ok_cons.
           rewrite (wrap32_small (i + 1)) by lia.
           apply (runs_bind _ _ 1 0 _ (fun k => (i + 1 <= k < j)%Z)); [| | lia].
           ++ apply runs_randomIndex; lia.
           ++ intros k Hk. cbv beta.
              destruct (rotate_range_tour n it Hit (Z.to_nat i) (Z.to_nat k)
                          (Z.to_nat j + 1)) as (it' & -> & Hit'); try lia.
              apply runs_ret. exact Hit'.
        -- apply run_ok_skip; [| exact IH].
           unfold plain. pose proof (Z.mod_pos_bound r 3). lia.
Qed.

Lemma runs_mutate (t : Tour) (p : float) :
  is_tour n (itinerary t) ->
  runs (mutate t p m) 5 (fun res => is_tour n (itinerary (snd res))).
Proof.
  intros Hit. unfold mutate.
  pose proof (tour_length _ _ Hit) as Hlen. rewrite Hlen.
  apply (runs_bind _ _ 1 4 _ (fun _ => True));
    [apply runs_randomDouble | | lia].
  intros d _.
  destruct (p <? d)%float.
  - apply (runs_weaken _ 0 4 (fun res => is_tour n (itinerary (snd res))));
      [apply runs_ret; exact Hit | lia | auto].
  - rewrite (wrap32_small (Z.of_nat n - 1)) by lia.
    rewrite (wrap32_small (Z.of_nat n)) by lia.
    apply (runs_bind _ _ 1 3 _ (fun i => (1 <= i < Z.of_nat n - 1)%Z));
      [apply runs_randomIndex; lia | | lia].
    intros i Hi. rewrite (wrap32_small (i + 1)) by lia.
    apply (runs_bind _ _ 1 2 _ (fun j => (i + 1 <= j < Z.of_nat n)%Z));
      [apply runs_randomIndex; lia | | lia].
    intros j Hj.
    apply (runs_bind _ _ 2 0 _ (fun res => is_tour n (snd res)));
      [apply runs_mutate_loop; auto; lia | | lia].
    intros [mutation it'] Hit'. simpl in Hit'.
    destruct (lengthOfItinerary_total m it') as [len Hlenof].
    { exact (tour_nonempty _ _ Hit'). }
    { apply Forall_forall. intros c Hc. rewrite <- Hn.
      apply (tour_In _ _ Hit'). exact Hc. }
    rewrite Hlenof. cbn [lift].
    apply (runs_bind _ _ 0 0 _ (fun _ => True)); [| | lia].
    { apply runs_ret. exact I. }
    intros len' _. apply runs_ret. exact Hit'.
Qed.

Lemma runs_mutate_each (p : float) : forall cs,
  Forall (fun t => is_tour n (itinerary t)) cs ->
  runs (mutate_each p m cs) (5 * length cs)
    (fun cs' => length cs' = length cs
                /\ Forall (fun t => is_tour n (itinerary t)) cs').
Proof.
  induction cs as [| c cs IH]; intros Hall; cbn [mutate_each].
  - apply runs_ret. auto.
  - apply Forall_cons_iff in Hall as [H1 H2].
    apply (runs_bind _ _ 5 (5 * length cs) _ _ _ (runs_mutate c p H1));
      [| simpl; lia].
    intros [kind c'] Hc'. simpl in Hc'.
    apply (runs_bind _ _ (5 * length cs) 0 _ _ _ (IH H2)); [| lia].
    intros cs' [Hlen Hcs']. apply runs_ret. simpl. auto.
Qed.

End Mutate.

(** ** Generations *)

Lemma breed_Ok fuel depth m : forall ts children rs ts' children' rs',
  breed fuel depth m ts children rs = Ok ((ts', children'), rs') ->
  length ts' = length ts
  /\ (exists born, children' = children ++ born)
  /\ (length children <= length ts -> length children' = length ts).
Proof.
  induction fuel as [| fuel IH]; intros ts children rs ts' children' rs' H;
    cbn [breed] in H;
    destruct (Nat.ltb_spec (length children) (length ts)) as [Hc | Hc];
    try discriminate H;
    try (apply ret_Ok in H as [H _]; inversion H; subst;
         repeat split; [exists []; symmetry; apply app_nil_r | lia]).
  apply bind_Ok in H as ([ka ts1] & rs1 & Ha & H).
  apply bind_Ok in H as ([kb ts2] & rs2 & Hb & H).
  apply bind_Ok in H as (ta & rs3 & _ & H).
  apply bind_Ok in H as (tb & rs4 & _ & H).
  apply bind_Ok in H as (child & rs5 & _ & H).
  apply findParent_Ok in Ha, Hb.
  destruct Ha as (HP1 & _), Hb as (HP2 & _).
  apply Permutation_length in HP1, HP2.
  apply IH in H. destruct H as (Hlen & (born & ->) & Hfull).
  repeat split.
  - congruence.
  - exists (child :: born). rewrite <- app_assoc. reflexivity.
  - intros _. rewrite Hfull; [congruence |].
    rewrite length_app. simpl. lia.
Qed.

Lemma mutate_each_length p m : forall cs rs cs' rs',
  mutate_each p m cs rs = Ok (cs', rs') -> length cs' = length cs.
Proof.
  induction cs as [| c cs IH]; cbn [mutate_each]; intros rs cs' rs' H.
  - apply ret_Ok in H as [-> _]. reflexivity.
  - apply bind_Ok in H as ([kind c'] & rs1 & _ & H).
    apply bind_Ok in H as (cs1 & rs2 & Hrest & H).
    apply ret_Ok in H as [-> _]. simpl. f_equal. eauto.
Qed.

Lemma tours_ok_perm (m : Map) (ts ts' : list Tour) :
  Permutation ts ts' -> tours_ok m ts -> tours_ok m ts'.
Proof. intros HP H. unfold tours_ok. rewrite <- HP. exact H. Qed.

Lemma tours_ok_nth (m : Map) (ts : list Tour) (k : nat) :
  tours_ok m ts -> k < length ts ->
  exists t, nth_error ts k = Some t /\ is_tour (size m) (itinerary t).
Proof.
  intros Hok Hk.
  destruct (nth_error ts k) as [t |] eqn:E; [| apply nth_error_None in E; lia].
  exists t. split; [reflexivity |].
  unfold tours_ok in Hok. rewrite Forall_forall in Hok.
  apply Hok. eapply nth_error_In. exact E.
Qed.

Lemma runs_breed (depth : nat) (m : Map) : forall fuel ts children,
  ts <> [] -> depth <= length ts ->
  tours_ok m ts -> tours_ok m children ->
  length ts - length children <= fuel ->
  runs (breed fuel depth m ts children)
    ((length ts - length children) * (2 * (length ts - 1)))
    (fun res => tours_ok m (snd res)).
Proof.
  induction fuel as [| fuel IH]; intros ts children Hne Hd Hts Hcs Hfuel;
    cbn [breed];
    destruct (Nat.ltb_spec (length children) (length ts)) as [Hlt | Hge];
    try lia;
    try (apply (runs_weaken _ 0 _ (fun res => tours_ok m (snd res)));
         [apply runs_ret; exact Hcs | lia | auto]).
  set (N := length ts) in *.
  apply (runs_bind _ _ (N - 1) ((N - 1) + (N - S (length children)) * (2 * (N - 1))) _
           _ _ (runs_findParent depth ts Hne Hd)); [| nia].
  intros [ka ts1] [HP1 Hka]. simpl in HP1, Hka.
  pose proof (Permutation_length HP1) as Hlen1.
  assert (Hne1 : ts1 <> []) by (intros ->; simpl in Hka; lia).
  apply (runs_bind _ _ (N - 1) ((N - S (length children)) * (2 * (N - 1))) _
           (fun sel => Permutation ts1 (snd sel) /\ fst sel < length (snd sel)));
    [| | lia].
  { apply (runs_weaken _ (length ts1 - 1) _ _ _ (runs_findParent depth ts1 Hne1 ltac:(lia)));
      [lia | auto]. }
  intros [kb ts2] [HP2 Hkb]. simpl in HP2, Hkb.
  pose proof (Permutation_length HP2) as Hlen2.
  assert (Hts2 : tours_ok m ts2).
  { eapply tours_ok_perm; [exact HP2 |]. eapply tours_ok_perm; eassumption. }
  destruct (tours_ok_nth m ts2 ka Hts2) as (ta & Hta & Htour_a); [lia |].
  destruct (tours_ok_nth m ts2 kb Hts2) as (tb & Htb & Htour_b); [lia |].
  rewrite Hta, Htb. cbn [lift].
  apply (runs_bind _ _ 0 ((N - S (length children)) * (2 * (N - 1))) _ (eq ta));
    [apply runs_ret; reflexivity | | lia].
  intros ? <-.
  apply (runs_bind _ _ 0 ((N - S (length children)) * (2 * (N - 1))) _ (eq tb));
    [apply runs_ret; reflexivity | | lia].
  intros ? <-.
  apply (runs_bind _ _ 0 ((N - S (length children)) * (2 * (N - 1))) _
           (fun child => is_tour (size m) (itinerary child))); [| | lia].
  { destruct (negb (vector_eqb (itinerary ta) (itinerary tb))).
    - destruct (sex_child_tour m ta tb Htour_a Htour_b) as (child & -> & Hchild & _).
      apply runs_ret. exact Hchild.
    - apply runs_ret. exact Htour_a. }
  intros child Hchild.
  assert (Hlen' : length (children ++ [child]) = S (length children))
    by (rewrite length_app; simpl; lia).
  apply (runs_weaken _ ((length ts2 - length (children ++ [child]))
                          * (2 * (length ts2 - 1))) _
           (fun res => tours_ok m (snd res)));
    [| rewrite Hlen'; subst N; rewrite <- Hlen2, <- Hlen1; lia | auto].
  apply IH; auto.
  - intros ->. simpl in Hkb. lia.
  - lia.
  - apply Forall_app. split; [exact Hcs |]. constructor; [exact Hchild | constructor].
  - rewrite Hlen'. subst N. lia.
Qed.

(** On a valid population over three cities or more, [evolve] has no
    undefined behaviour, returns when it is given [evolve_draws] plain
    draws, and returns tours that fit the map. *)
Lemma runs_evolve (p_mutate : float) (depth : nat) (pop : Population) :
  tours pop <> [] -> tours_ok (map pop) (tours pop) ->
  3 <= size (map pop) -> (Z.of_nat (size (map pop)) < 2 ^ 32)%Z ->
  depth <= length (tours pop) ->
  runs (evolve p_mutate depth pop) (evolve_draws (length (tours pop)))
    (fun pop' => tours_ok (map pop') (tours pop')).
Proof.
  intros Hne Hok Hthree Hword Hd. unfold evolve, evolve_draws.
  set (N := length (tours pop)).
  destruct (max_element_spec (tours pop) Hne) as (best & Hbest & _).
  assert (Hbest_ok : is_tour (size (map pop)) (itinerary best)).
  { unfold tours_ok in Hok. rewrite Forall_forall in Hok.
    apply Hok. eapply nth_error_In. exact Hbest. }
  unfold fittest. rewrite Hbest. cbn [lift].
  apply (runs_bind _ _ 0 ((N - 1) * (2 * (N - 1)) + 5 * (N - 1)) _ (eq best));
    [apply runs_ret; reflexivity | | lia].
  intros ? <-.
  apply (runs_bind _ _ ((N - 1) * (2 * (N - 1))) (5 * (N - 1)) _
           (fun res => tours_ok (map pop) (snd res)
                       /\ (exists born, snd res = best :: born
                                        /\ length (snd res) = N))); [| | lia].
  { apply runs_post.
    - apply (runs_breed depth (map pop) N (tours pop) [best]); auto.
      + constructor; [exact Hbest_ok | constructor].
      + simpl. subst N. lia.
    - intros rs [ts' children] rs' Hrun. simpl.
      apply breed_Ok in Hrun. destruct Hrun as (_ & (born & ->) & Hfull).
      exists born. split; [reflexivity |]. apply Hfull.
      simpl. destruct (tours pop); [congruence | simpl; lia]. }
  intros [ts' children] [Hchildren (born & E & Hlen)]. simpl in *. subst children.
  apply Forall_cons_iff in Hchildren as [_ Hborn]. simpl in Hlen.
  cbn [skipn firstn app].
  apply (runs_bind _ _ (5 * (N - 1)) 0 _
           (fun cs' => length cs' = length born
                       /\ Forall (fun t => is_tour (size (map pop)) (itinerary t)) cs'));
    [| | lia].
  { replace (N - 1) with (length born) by lia.
    apply (runs_mutate_each (map pop) (size (map pop))); auto. }
  intros others [Hlen' Hothers]. apply runs_ret. simpl.
  constructor; assumption.
Qed.

Lemma evolve_Ok (p_mutate : float) (depth : nat) (pop pop' : Population)
    (rs rs' : list Z) :
  evolve p_mutate depth pop rs = Ok (pop', rs') ->
  length (tours pop') = length (tours pop)
  /\ map pop' = map pop
  /\ exists old others,
       fittest (tours pop) = Some old /\ tours pop' = old :: others.
Proof.
  unfold evolve. intros H.
  apply bind_Ok in H as (best & rs1 & Hbest & H).
  apply lift_Ok in Hbest as [Hbest ->].
  apply bind_Ok in H as ([ts' children] & rs2 & Hbreed & H).
  apply breed_Ok in Hbreed. destruct Hbreed as (_ & (born & Hborn) & Hfull).
  assert (Hne : 1 <= length (tours pop)).
  { destruct (tours pop); [discriminate Hbest | simpl; lia]. }
  specialize (Hfull Hne). simpl in Hborn. subst children.
  cbn [skipn firstn app] in H.
  apply bind_Ok in H as (others & rs3 & Hmut & H).
  apply ret_Ok in H as [-> _].
  apply mutate_each_length in Hmut. simpl in Hfull |- *.
  split; [lia |]. split; [reflexivity |].
  exists best, others. auto.
Qed.

(** A population of one tour evolves into itself, without a draw. *)
Lemma evolve_single (p_mutate : float) (depth : nat) (m : Map) (t : Tour)
    (rs : list Z) :
  evolve p_mutate depth (mkPopulation m [t]) rs = Ok (mkPopulation m [t], rs).
Proof. unfold evolve, bind. simpl. reflexivity. Qed.

(** C1.  When [evolve] returns, the population has as many tours as before
    and the same map, its first tour is the tour that [fittest()] returned
    before the call, and the new fittest tour is not longer than that one:
    the old fittest length is not below the new one and, when it is a
    number, the new one is at most the old one.

    And [evolve] does return: on a valid population over a map of three
    cities or more, and with a depth of at most the number of tours, no
    stream of draws leads it into undefined behaviour; what it returns is a
    valid population again, whose fittest length is at most the one before;
    and [evolve_draws] draws of which none asks for a rotation are enough
    for it to return. *)
Theorem evolve_elitism (p_mutate : float) (depth : nat) (pop : Population) :
  (forall rs pop' rs',
     evolve p_mutate depth pop rs = Ok (pop', rs') ->
     length (tours pop') = length (tours pop)
     /\ map pop' = map pop
     /\ exists old new,
          fittest (tours pop) = Some old
          /\ nth_error (tours pop') 0 = Some old
          /\ fittest (tours pop') = Some new
          /\ (_length old <? _length new)%float = false
          /\ ((_length old =? _length old)%float = true ->
              (_length new <=? _length old)%float = true))
  /\ (valid_population pop ->
      3 <= size (map pop) -> (Z.of_nat (size (map pop)) < 2 ^ 32)%Z ->
      depth <= length (tours pop) ->
      forall rs,
        evolve p_mutate depth pop rs <> Undefined
        /\ (forall pop' rs',
              evolve p_mutate depth pop rs = Ok (pop', rs') ->
              valid_population pop'
              /\ exists old new,
                   fittest (tours pop) = Some old
                   /\ fittest (tours pop') = Some new
                   /\ (_length new <=? _length old)%float = true)
        /\ (Forall plain rs -> evolve_draws (length (tours pop)) <= length rs ->
            exists pop' rs', evolve p_mutate depth pop rs = Ok (pop', rs'))).
Proof.
  assert (Hpost : forall rs pop' rs',
    evolve p_mutate depth pop rs = Ok (pop', rs') ->
    length (tours pop') = length (tours pop)
    /\ map pop' = map pop
    /\ exists old new,
         fittest (tours pop) = Some old
         /\ nth_error (tours pop') 0 = Some old
         /\ fittest (tours pop') = Some new
         /\ (_length old <? _length new)%float = false
         /\ ((_length old =? _length old)%float = true ->
             (_length new <=? _length old)%float = true)).
  { intros rs pop' rs' H.
    destruct (evolve_Ok _ _ _ _ _ _ H) as (Hlen & Hmap & old & others & Hold & Hnext).
    split; [exact Hlen |]. split; [exact Hmap |].
    rewrite Hnext.
    destruct (max_element_spec (old :: others)) as (new & Hnew & Hmin);
      [discriminate |].
    exists old, new. repeat split; auto.
    - apply Hmin. left. reflexivity.
    - intros Hnum. destruct (fittest_first old others new Hnew) as [-> | Hlt].
      + apply FloatOrder.eqb_leb. exact Hnum.
      + apply FloatOrder.ltb_leb. exact Hlt. }
  split; [exact Hpost |].
  intros (Hne & Hok & Hcache) Hthree Hword Hdepth rs.
  pose proof (runs_evolve p_mutate depth pop Hne Hok Hthree Hword Hdepth) as Hruns.
  split; [eapply runs_defined; exact Hruns |]. split.
  - intros pop' rs' H.
    destruct (Hpost rs pop' rs' H) as (Hlen & Hmap & old & new & Hold & _ & Hnew & _ & Hle).
    split.
    + split; [| split].
      * intros E. rewrite E in Hlen. destruct (tours pop); [congruence | discriminate].
      * specialize (Hruns rs). rewrite H in Hruns. exact (proj1 Hruns).
      * eapply evolve_cache; eassumption.
    + exists old, new. repeat split; auto. apply Hle.
      apply (cache_number (map pop)).
      rewrite Forall_forall in Hcache. apply Hcache.
      exact (proj1 (fittest_spec _ _ Hold)).
  - intros Hplain Hlen.
    destruct (runs_returns _ _ _ rs Hruns Hplain Hlen) as (pop' & rs' & H & _).
    eauto.
Qed.

Lemma evolve_elitism_witness :
  (length (tours trio_next) = length (tours trio)
   /\ map trio_next = map trio
   /\ exists old new,
        fittest (tours trio) = Some old
        /\ nth_error (tours trio_next) 0 = Some old
        /\ fittest (tours trio_next) = Some new
        /\ (_length old <? _length new)%float = false
        /\ ((_length old =? _length old)%float = true ->
            (_length new <=? _length old)%float = true))
  /\ (evolve 0.5 2 trio plain_draws <> Undefined
      /\ exists pop' rs', evolve 0.5 2 trio plain_draws = Ok (pop', rs')).
Proof.
  destruct (evolve_elitism 0.5%float 2 trio) as [Hpost Hruns].
  split.
  - apply (Hpost trio_draws trio_next []). vm_compute. reflexivity.
  - assert (Hvalid : valid_population trio).
    { split; [discriminate |]. split.
      - repeat constructor; apply is_tourb_sound; reflexivity.
      - repeat constructor; vm_compute; reflexivity. }
    destruct (Hruns Hvalid) with (rs := plain_draws) as (Hdef & _ & Hret);
      try (vm_compute; lia); [vm_compute; reflexivity |].
    split; [exact Hdef |]. apply Hret.
    + unfold plain_draws, plain. repeat constructor; vm_compute; discriminate.
    + vm_compute. lia.
Defined.

(** ** The parents of a child *)

(** C4.  Two tours, tournaments of depth 1.  The first selection leaves the
    vector as it is and returns position [0], which holds [around]; the
    second selection swaps the two tours and returns position [0] as well,
    which now holds [across].  The two selected tours differ and their
    crossover has the itinerary of [around]; but [a] and [b] both refer to
    position [0] of the vector after the second shuffle, so [evolve] finds
    them equal and the child is a copy of [across]. *)
Theorem evolve_first_parent_overwritten :
  findParent 1 [around; across] [1%Z] = Ok ((0, [around; across]), [])
  /\ nth_error [around; across] 0 = Some around
  /\ findParent 1 [around; across] [0%Z] = Ok ((0, [across; around]), [])
  /\ nth_error [across; around] 0 = Some across
  /\ vector_eqb (itinerary around) (itinerary across) = false
  /\ option_map itinerary (sex around across unit_square) = Some [0; 1; 2; 3]
  /\ breed 2 1 unit_square [around; across] [around] [1; 0]%Z
     = Ok (([across; around], [around; across]), [])
  /\ evolve 0 1 (mkPopulation unit_square [around; across]) [1; 0; 5]%Z
     = Ok (mkPopulation unit_square [around; across], [])
  /\ itinerary across = [0; 2; 1; 3].
Proof. vm_compute. repeat split; reflexivity. Qed.

(** ** The constructor of [Map] *)

Lemma City_eqb_eq (c d : City) : City_eqb c d = true <-> c = d.
Proof.
  unfold City_eqb. rewrite andb_true_iff, !Z.eqb_eq.
  destruct c, d; simpl. split.
  - intros [-> ->]. reflexivity.
  - intros H. inversion H. auto.
Qed.

Lemma City_absent_spec (c : City) (l : list City) :
  City_absent c l = true <-> ~ In c l.
Proof.
  unfold City_absent. rewrite negb_true_iff, <- not_true_iff_false, existsb_exists.
  split; intros H Hin; apply H.
  - exists c. split; [exact Hin | apply City_eqb_eq; reflexivity].
  - destruct Hin as (d & Hd & E). apply City_eqb_eq in E. subst. exact Hd.
Qed.

(** A pass of the loop of the constructor: draw a city, keep it if it is
    new. *)
Lemma Map_fill_pass (w h : Z) (n : nat) (acc : list City) (rs : list Z) :
  length acc < n ->
  Map_fill w h n acc rs
  = match City_random w h rs with
    | Ok (city, rs') =>
        Map_fill w h n (if City_absent city acc then acc ++ [city] else acc) rs'
    | Undefined => Undefined
    | Starved => Starved
    end.
Proof.
  intros Hlt. unfold City_random, bind, rand.
  destruct rs as [| rx [| ry rs2]]; cbn [Map_fill];
    destruct (Nat.leb_spec n (length acc)); try lia;
    destruct (w =? 0)%Z; try reflexivity;
    destruct (h =? 0)%Z; reflexivity.
Qed.

Section MapFill.
Variables (w h : Z).
Hypothesis Hw : (0 < w)%Z.
Hypothesis Hh : (0 < h)%Z.

Lemma cell_bound (c : City) : on_map w h c -> cell h c < Z.to_nat (w * h).
Proof.
  unfold on_map, cell. intros [Hx Hy]. apply Z2Nat.inj_lt; nia.
Qed.

Lemma cell_inj (c d : City) : on_map w h c -> on_map w h d -> cell h c = cell h d -> c = d.
Proof.
  unfold on_map, cell. destruct c as [xc yc], d as [xd yd]; simpl.
  intros [Hxc Hyc] [Hxd Hyd] E. apply Z2Nat.inj in E; try nia.
  assert (xc = xd) by nia. subst. f_equal. lia.
Qed.

(** The box holds at most [w * h] distinct cities. *)
Lemma distinct_cities_bound (acc : list City) :
  NoDup acc -> Forall (on_map w h) acc -> length acc <= Z.to_nat (w * h).
Proof.
  intros Hnd Hall. rewrite Forall_forall in Hall.
  rewrite <- (length_map (cell h)), <- (length_seq (Z.to_nat (w * h)) 0).
  apply NoDup_incl_length.
  - apply NoDup_map_NoDup_ForallPairs; [| exact Hnd].
    intros c d Hc Hd. apply cell_inj; auto.
  - intros k Hk. apply in_map_iff in Hk. destruct Hk as (c & <- & Hc).
    apply in_seq. pose proof (cell_bound c (Hall c Hc)). lia.
Qed.

(** Asked for more cities than the box holds, the loop is still running
    when the draws it was given are used up, however many they were. *)
Lemma Map_fill_starves (n : nat) :
  Z.to_nat (w * h) < n ->
  forall k rs acc,
    length rs <= k -> NoDup acc -> Forall (on_map w h) acc ->
    Map_fill w h n acc rs = Starved.
Proof.
  intros Hn. induction k as [| k IH]; intros rs acc Hk Hnd Hall;
    pose proof (distinct_cities_bound acc Hnd Hall) as Hlen;
    (destruct rs as [| rx [| ry rs2]]; simpl in Hk; try lia; cbn [Map_fill];
     destruct (Nat.leb_spec n (length acc)) as [Hle | _]; try lia;
     try reflexivity;
     destruct (Z.eqb_spec w 0) as [E | _]; try lia; try reflexivity;
     destruct (Z.eqb_spec h 0) as [E | _]; try lia).
  set (city := mkCity (wrap32 rx mod w) (wrap32 ry mod h)).
  assert (Hcity : on_map w h city).
  { split; simpl; apply Z.mod_pos_bound; assumption. }
  apply IH; [lia | |].
  - destruct (City_absent city acc) eqn:Habs; [| exact Hnd].
    apply City_absent_spec in Habs.
    apply NoDup_app; [exact Hnd | repeat constructor; intros [] |].
    intros c Hc [<- | []]. contradiction.
  - destruct (City_absent city acc); [| exact Hall].
    apply Forall_app. split; [exact Hall |].
    apply Forall_cons; [exact Hcity | constructor].
Qed.

End MapFill.

(** C5, as the program has it.  The constructor of [Map] checks none of its
    arguments and reports no error.  Asked for no city, it returns the empty
    map, whatever the width and the height.  Asked for more cities than a
    box of positive width and height holds, it does not return: however
    many draws it is given, the loop is still running when they are used
    up.  Asked for a city in a box of width or height zero, it computes
    [rand() % 0]. *)
Theorem Map_new_unchecked :
  (forall w h rs, Map_new w h 0 rs = Ok (mkMap [] w h, rs))
  /\ (forall w h n rs,
        (0 < w)%Z -> (0 < h)%Z -> (w * h < Z.of_nat n)%Z ->
        Map_new w h n rs = Starved)
  /\ (forall h n r rs, 0 < n -> Map_new 0 h n (r :: rs) = Undefined)
  /\ (forall w n rx ry rs,
        0 < n -> w <> 0%Z -> Map_new w 0 n (rx :: ry :: rs) = Undefined).
Proof.
  split; [| split; [| split]].
  - intros w h rs. destruct rs; reflexivity.
  - intros w h n rs Hw Hh Hn. unfold Map_new, bind.
    rewrite (Map_fill_starves w h Hw Hh n) with (k := length rs);
      auto; try constructor.
    lia.
  - intros h n r rs Hn. unfold Map_new, bind. cbn [Map_fill].
    destruct (Nat.leb_spec n (length (@nil City))) as [Hle | _];
      [simpl in Hle; lia | reflexivity].
  - intros w n rx ry rs Hn Hw. unfold Map_new, bind. cbn [Map_fill].
    destruct (Nat.leb_spec n (length (@nil City))) as [Hle | _];
      [simpl in Hle; lia |].
    destruct (Z.eqb_spec w 0) as [E | _]; [contradiction | reflexivity].
Qed.

Lemma Map_new_unchecked_witness :
  Map_new 1 1 2 [5; 7; 9; 11; 13; 15]%Z = Starved
  /\ Map_new 0 1 1 [5]%Z = Undefined
  /\ Map_new 1 0 1 [5; 7]%Z = Undefined.
Proof.
  destruct Map_new_unchecked as (_ & Hfull & Hw & Hh).
  split; [| split].
  - apply Hfull; lia.
  - apply Hw. lia.
  - apply Hh; [lia | discriminate].
Defined.

(** C5, a count of zero.  [Map(1, 1, 0)] returns a map, the empty one; so
    does [Map(0, 0, 0)]. *)
Lemma Map_new_zero_cities :
  Map_new 1 1 0 [] = Ok (mkMap [] 1 1, [])
  /\ Map_new 0 0 0 [] = Ok (mkMap [] 0 0, []).
Proof. split; reflexivity. Qed.

(** ** Random numbers *)

Lemma randomIndex_Ok (a b v : Z) (rs rs' : list Z) :
  (0 <= a < b)%Z -> (b < 2 ^ 32)%Z ->
  randomIndex a b rs = Ok (v, rs') -> (a <= v < b)%Z.
Proof.
  intros Hab Hb H. pose proof (runs_randomIndex a b Hab Hb rs) as Hr.
  rewrite H in Hr. exact (proj1 Hr).
Qed.

(** X1.  [randomIndex(a, b)] with [a < b] reads one draw and returns an
    index in [[a, b)]; with [a = b] it divides by zero. *)
Theorem randomIndex_in_range (a b r : Z) (rs : list Z) :
  (0 <= a <= b)%Z -> (b < 2 ^ 32)%Z ->
  (a < b ->
   exists v, randomIndex a b (r :: rs) = Ok (v, rs) /\ (a <= v < b)%Z)%Z
  /\ (a = b -> randomIndex a b (r :: rs) = Undefined).
Proof.
  intros Hab Hb. unfold randomIndex, bind, rand. split.
  - intros Hlt. rewrite (wrap32_small (b - a)) by lia.
    destruct (Z.eqb_spec (b - a) 0) as [E | _]; [lia |].
    eexists. split; [reflexivity |].
    pose proof (Z.mod_pos_bound (wrap32 r) (b - a)).
    rewrite wrap32_small; lia.
  - intros ->. rewrite Z.sub_diag. reflexivity.
Qed.

Lemma randomIndex_in_range_witness :
  (exists v, randomIndex 1 3 [7%Z] = Ok (v, []) /\ (1 <= v < 3)%Z)
  /\ randomIndex 1 1 [7%Z] = Undefined.
Proof.
  split.
  - apply (randomIndex_in_range 1 3 7 []); lia.
  - apply (randomIndex_in_range 1 1 7 []); lia.
Defined.

(** ** Distances *)

Lemma wrap32_id (z : Z) : (0 <= z < 4294967296)%Z -> wrap32 z = z.
Proof. intros H. apply Z.mod_small. exact H. Qed.

Lemma wrap32_square (u : Z) : wrap32 (wrap32 u * wrap32 u) = wrap32 (u * u).
Proof. unfold wrap32. rewrite <- Z.mul_mod; [reflexivity | lia]. Qed.

Lemma wrap32_square_opp (u v : Z) :
  wrap32 (wrap32 (u - v) * wrap32 (u - v)) = wrap32 (wrap32 (v - u) * wrap32 (v - u)).
Proof. rewrite !wrap32_square. f_equal. ring. Qed.

(** X2.  The distance between two cities does not depend on their order, is
    zero from a city to itself, and is never negative nor [NaN]; so is the
    distance of a map between two of its positions. *)
Theorem distance_symmetric :
  (forall a b, distanceBetweenCities a b = distanceBetweenCities b a)
  /\ (forall a, distanceBetweenCities a a = 0%float)
  /\ (forall a b, nonneg (distanceBetweenCities a b))
  /\ (forall m i j, distance m i j = distance m j i).
Proof.
  assert (Hsym : forall a b, distanceBetweenCities a b = distanceBetweenCities b a).
  { intros a b. unfold distanceBetweenCities. cbv zeta.
    rewrite (wrap32_square_opp (x a) (x b)), (wrap32_square_opp (y a) (y b)).
    reflexivity. }
  split; [exact Hsym |]. split; [| split].
  - intros a. unfold distanceBetweenCities. cbv zeta.
    rewrite !Z.sub_diag. vm_compute. reflexivity.
  - intros a b. apply FloatSign.sqrt_nonneg, FloatSign.of_uint63_nonneg.
  - intros m i j. unfold distance.
    destruct (nth_error (cities m) i), (nth_error (cities m) j);
      try reflexivity.
    f_equal. apply Hsym.
Qed.

(** X3.  In a box of width and height up to [46341], the number whose
    square root is taken is the squared distance itself: the sum of squares
    does not wrap around. *)
Theorem distance_exact (w h : Z) (a b : City) :
  (w <= 46341)%Z -> (h <= 46341)%Z -> on_map w h a -> on_map w h b ->
  distanceBetweenCities a b
  = PrimFloat.sqrt
      (to_double ((x a - x b) * (x a - x b) + (y a - y b) * (y a - y b))).
Proof.
  intros Hw Hh [Hxa Hya] [Hxb Hyb]. unfold distanceBetweenCities. cbv zeta.
  rewrite !wrap32_square.
  assert (Hsq : forall d, (-46340 <= d <= 46340 -> 0 <= d * d <= 2147395600)%Z).
  { intros d Hd. split; [apply Z.square_nonneg |].
    destruct (Z.le_gt_cases 0 d); nia. }
  pose proof (Hsq (x a - x b)%Z ltac:(lia)) as Hx.
  pose proof (Hsq (y a - y b)%Z ltac:(lia)) as Hy.
  rewrite (wrap32_id ((x a - x b) * (x a - x b))) by lia.
  rewrite (wrap32_id ((y a - y b) * (y a - y b))) by lia.
  rewrite wrap32_id by lia. reflexivity.
Qed.

Lemma distance_exact_witness :
  distanceBetweenCities (mkCity 0 0) (mkCity 3 4)
  = PrimFloat.sqrt (to_double ((0 - 3) * (0 - 3) + (0 - 4) * (0 - 4))).
Proof.
  apply (distance_exact 600 400); try lia; split; simpl; lia.
Defined.

(** X4.  Two cities of one row whose columns are a multiple of [65536]
    apart are at distance zero: the square wraps around to [0]. *)
Theorem distance_wraps (a b : City) (k : Z) :
  (x a - x b = 65536 * k)%Z -> y a = y b ->
  distanceBetweenCities a b = 0%float.
Proof.
  intros Hx Hy. unfold distanceBetweenCities. cbv zeta.
  rewrite !wrap32_square, Hx, Hy, Z.sub_diag.
  replace (65536 * k * (65536 * k))%Z with (k * k * 2 ^ 32)%Z by ring.
  unfold wrap32 at 2. rewrite Z.mod_mul by lia.
  vm_compute. reflexivity.
Qed.

Lemma distance_wraps_witness :
  distanceBetweenCities (mkCity 65536 7) (mkCity 0 7) = 0%float.
Proof. apply (distance_wraps _ _ 1); reflexivity. Defined.

(** ** Itineraries and their length *)

Lemma distance_Some (m : Map) (c d : nat) (len : float) :
  distance m c d = Some len -> c < size m /\ d < size m.
Proof.
  unfold distance, size.
  destruct (nth_error (cities m) c) eqn:Ec; [| discriminate].
  destruct (nth_error (cities m) d) eqn:Ed; [| discriminate].
  intros _. split; apply nth_error_Some; congruence.
Qed.

Lemma length_loop_Some (m : Map) : forall rest prev len len',
  length_loop m prev rest len = Some len' ->
  Forall (fun c => c < size m) rest.
Proof.
  induction rest as [| c rest IH]; simpl; intros prev len len' H.
  - constructor.
  - destruct (distance m prev c) as [d |] eqn:Hd; [| discriminate H].
    apply distance_Some in Hd. constructor; [tauto | eauto].
Qed.

(** X5.  [lengthOfItinerary] is defined exactly on the itineraries that are
    not empty and name only cities of the map; the length it returns is
    never negative nor [NaN]. *)
Theorem lengthOfItinerary_defined (it : list nat) (m : Map) :
  ((exists len, lengthOfItinerary it m = Some len)
   <-> it <> [] /\ Forall (fun c => c < size m) it)
  /\ (forall len, lengthOfItinerary it m = Some len -> nonneg len).
Proof.
  split; [split |].
  - intros [len H]. unfold lengthOfItinerary in H.
    destruct it as [| c0 rest]; [discriminate H |].
    split; [discriminate |].
    destruct (distance m c0 (last (c0 :: rest) c0)) as [d0 |] eqn:Hd;
      [| discriminate H].
    apply distance_Some in Hd. apply length_loop_Some in H.
    constructor; tauto.
  - intros [Hne Hall]. apply lengthOfItinerary_total; assumption.
  - intros len. apply lengthOfItinerary_nonneg.
Qed.

(** ** Construction of the map, of a tour and of the population *)

Lemma Map_fill_Ok (w h : Z) (n : nat) :
  (0 <= w)%Z -> (0 <= h)%Z ->
  forall k rs acc cs rs',
    length rs <= k -> length acc <= n ->
    NoDup acc -> Forall (on_map w h) acc ->
    Map_fill w h n acc rs = Ok (cs, rs') ->
    length cs = n /\ NoDup cs /\ Forall (on_map w h) cs
    /\ exists used, rs = used ++ rs'.
Proof.
  intros Hw Hh. induction k as [| k IH]; intros rs acc cs rs' Hk Hacc Hnd Hall H;
    (destruct rs as [| rx [| ry rs2]]; simpl in Hk; try lia; cbn [Map_fill] in H;
     destruct (Nat.leb_spec n (length acc)) as [Hle | Hlt];
     try (inversion H; subst; repeat split; auto; try lia; exists []; reflexivity);
     try discriminate H;
     destruct (Z.eqb_spec w 0) as [Ew | Nw]; try discriminate H;
     destruct (Z.eqb_spec h 0) as [Eh | Nh]; try discriminate H).
  set (city := mkCity (wrap32 rx mod w) (wrap32 ry mod h)) in H.
  assert (Hcity : on_map w h city).
  { split; simpl; apply Z.mod_pos_bound; lia. }
  apply IH in H; try lia.
  - destruct H as (Hlen & Hnd' & Hall' & used & ->).
    repeat split; auto. exists (rx :: ry :: used). reflexivity.
  - destruct (City_absent city acc); [rewrite length_app; simpl; lia | lia].
  - destruct (City_absent city acc) eqn:Habs; [| exact Hnd].
    apply City_absent_spec in Habs.
    apply NoDup_app; [exact Hnd | repeat constructor; intros [] |].
    intros c Hc [<- | []]. contradiction.
  - destruct (City_absent city acc); [| exact Hall].
    apply Forall_app. split; [exact Hall |].
    apply Forall_cons; [exact Hcity | constructor].
Qed.

Lemma Map_new_Ok (w h : Z) (n : nat) (rs rs' : list Z) (m : Map) :
  (0 <= w)%Z -> (0 <= h)%Z ->
  Map_new w h n rs = Ok (m, rs') ->
  size m = n /\ NoDup (cities m) /\ Forall (on_map w h) (cities m).
Proof.
  intros Hw Hh H. unfold Map_new in H.
  apply bind_Ok in H as (cs & rs1 & Hfill & H).
  apply ret_Ok in H as [-> ->].
  apply (Map_fill_Ok w h n Hw Hh (length rs)) in Hfill;
    [| lia | simpl; lia | constructor | constructor].
  unfold size. simpl. tauto.
Qed.

(** X6.  A map that [Map(w, h, n)] returns has exactly [n] cities, no two
    of them equal and all of them in [[0, w) x [0, h)], and records [w] and
    [h]; the draws left are the end of the stream. *)
Theorem Map_new_cities (w h : Z) (n : nat) (rs rs' : list Z) (m : Map) :
  (0 <= w)%Z -> (0 <= h)%Z ->
  Map_new w h n rs = Ok (m, rs') ->
  size m = n
  /\ NoDup (cities m)
  /\ Forall (on_map w h) (cities m)
  /\ _width m = w /\ _height m = h
  /\ exists used, rs = used ++ rs'.
Proof.
  intros Hw Hh H. unfold Map_new in H.
  apply bind_Ok in H as (cs & rs1 & Hfill & H).
  apply ret_Ok in H as [-> ->].
  apply (Map_fill_Ok w h n Hw Hh (length rs)) in Hfill;
    [| lia | simpl; lia | constructor | constructor].
  destruct Hfill as (Hlen & Hnd & Hall & Hused).
  unfold size. simpl. auto 10.
Qed.

Lemma Map_new_cities_witness :
  size (mkMap [mkCity 1 0; mkCity 2 0; mkCity 1 2] 3 3) = 3
  /\ NoDup [mkCity 1 0; mkCity 2 0; mkCity 1 2]
  /\ Forall (on_map 3 3) [mkCity 1 0; mkCity 2 0; mkCity 1 2]
  /\ 3%Z = 3%Z /\ 3%Z = 3%Z
  /\ exists used, [1; 0; 5; 6; 4; 3; 7; 8; 9]%Z = used ++ [9%Z].
Proof.
  apply (Map_new_cities 3 3 3 [1; 0; 5; 6; 4; 3; 7; 8; 9]%Z [9%Z]
           (mkMap [mkCity 1 0; mkCity 2 0; mkCity 1 2] 3 3)); try lia.
  vm_compute. reflexivity.
Defined.

Lemma seq_from_zero (n : nat) : seq 0 (S n) = 0 :: seq 1 n.
Proof. reflexivity. Qed.

Lemma Tour_random_Ok (m : Map) (rs rs' : list Z) (t : Tour) :
  Tour_random m rs = Ok (t, rs') ->
  is_tour (size m) (itinerary t) /\ cache_ok m t.
Proof.
  unfold Tour_random. destruct (size m) as [| n] eqn:Hn; [discriminate |].
  cbn [seq]. intros H.
  apply bind_Ok in H as (rest' & rs1 & Hsh & H).
  apply lift_Ok in H as [H _].
  apply random_shuffle_perm in Hsh.
  apply Tour_of_Some in H. destruct H as [Hit Hc].
  split; [| exact Hc]. rewrite Hit. cbn [seq].
  split; [apply perm_skip; exact Hsh | reflexivity].
Qed.

(** X7.  On a map that is not empty, [Tour(map)] reads [size - 2] draws and
    returns a tour of the map: a permutation of its cities that starts with
    city [0], with the length of that itinerary cached.  On the empty map
    it is undefined. *)
Theorem Tour_random_tour (m : Map) (rs : list Z) :
  (0 < size m -> size m - 2 <= length rs ->
   exists t,
     Tour_random m rs = Ok (t, skipn (size m - 2) rs)
     /\ is_tour (size m) (itinerary t)
     /\ cache_ok m t)
  /\ (size m = 0 -> Tour_random m rs = Undefined).
Proof.
  split.
  - intros Hpos Hrs.
    assert (Hrun : exists t, Tour_random m rs = Ok (t, skipn (size m - 2) rs)).
    { unfold Tour_random. destruct (size m) as [| n] eqn:Hn; [lia |].
      cbn [seq]. unfold bind.
      destruct (random_shuffle_total (seq 1 n) rs) as [rest' Hsh].
      { rewrite length_seq. lia. }
      rewrite Hsh. rewrite length_seq.
      replace (S n - 2) with (n - 1) by lia.
      pose proof (random_shuffle_perm _ _ _ _ Hsh) as HP.
      destruct (Tour_of_total m (0 :: rest')) as [len Hlen];
        [discriminate | | rewrite Hlen; eexists; reflexivity].
      apply Forall_forall. intros c Hc. rewrite Hn.
      assert (Hin : In c (0 :: seq 1 n)).
      { eapply Permutation_in; [| exact Hc]. apply perm_skip.
        symmetry. exact HP. }
      change (0 :: seq 1 n) with (seq 0 (S n)) in Hin.
      apply in_seq in Hin. lia. }
    destruct Hrun as [t Ht]. exists t. split; [exact Ht |].
    eapply Tour_random_Ok. exact Ht.
  - intros H0. unfold Tour_random. rewrite H0. reflexivity.
Qed.

Lemma Tour_random_tour_witness :
  exists t,
    Tour_random unit_square [0; 0; 5]%Z = Ok (t, [5%Z])
    /\ is_tour 4 (itinerary t)
    /\ cache_ok unit_square t.
Proof.
  apply (Tour_random_tour unit_square [0; 0; 5]%Z);
    unfold size, unit_square; simpl; lia.
Defined.

Lemma Tour_randoms_Ok (m : Map) : forall n rs ts rs',
  Tour_randoms m n rs = Ok (ts, rs') ->
  length ts = n /\ tours_ok m ts /\ Forall (cache_ok m) ts.
Proof.
  induction n as [| n IH]; cbn [Tour_randoms]; intros rs ts rs' H.
  - apply ret_Ok in H as [-> _]. repeat split; constructor.
  - apply bind_Ok in H as (t & rs1 & Ht & H).
    apply bind_Ok in H as (ts1 & rs2 & Hts & H).
    apply ret_Ok in H as [-> _].
    apply Tour_random_Ok in Ht. apply IH in Hts.
    destruct Ht as [Htour Hc], Hts as (Hlen & Hok & Hcs).
    repeat split; [simpl; lia | constructor; assumption | constructor; assumption].
Qed.

(** X8.  A population that [Population(width, height, n_cities, n_tours)]
    returns has a map of [n_cities] distinct cities inside the box and
    [n_tours] tours, each a tour of that map with a fresh cached length; so
    it is a valid population as soon as it has a tour. *)
Theorem Population_new_valid (width height : Z) (n_cities n_tours : nat)
    (rs rs' : list Z) (pop : Population) :
  (0 <= width)%Z -> (0 <= height)%Z ->
  Population_new width height n_cities n_tours rs = Ok (pop, rs') ->
  size (map pop) = n_cities
  /\ NoDup (cities (map pop))
  /\ Forall (on_map width height) (cities (map pop))
  /\ length (tours pop) = n_tours
  /\ tours_ok (map pop) (tours pop)
  /\ Forall (cache_ok (map pop)) (tours pop)
  /\ (0 < n_tours -> valid_population pop).
Proof.
  intros Hw Hh H. unfold Population_new in H.
  apply bind_Ok in H as (m & rs1 & Hm & H).
  apply bind_Ok in H as (ts & rs2 & Hts & H).
  apply ret_Ok in H as [-> _]. simpl.
  apply Map_new_Ok in Hm; try assumption.
  apply Tour_randoms_Ok in Hts.
  destruct Hm as (Hsize & Hnd & Hall), Hts as (Hlen & Hok & Hcache).
  repeat split; auto.
  simpl. intros ->. simpl in Hlen. lia.
Qed.

Lemma Population_new_valid_witness :
  size (map box3_population) = 4
  /\ NoDup (cities (map box3_population))
  /\ Forall (on_map 3 3) (cities (map box3_population))
  /\ length (tours box3_population) = 2
  /\ tours_ok (map box3_population) (tours box3_population)
  /\ Forall (cache_ok (map box3_population)) (tours box3_population)
  /\ (0 < 2 -> valid_population box3_population).
Proof.
  apply (Population_new_valid 3 3 4 2
           [1; 0; 5; 6; 7; 8; 9; 10; 1; 1; 0; 2; 4]%Z [4%Z]); try lia.
  vm_compute. reflexivity.
Defined.

(** X9.  A population of at least one tour over no city at all is
    undefined: the map is built, empty, and the first [Tour(map)] shuffles
    from past its end. *)
Theorem Population_new_no_city (width height : Z) (n_tours : nat) (rs : list Z) :
  0 < n_tours -> Population_new width height 0 n_tours rs = Undefined.
Proof.
  intros Hn. unfold Population_new, Map_new, bind.
  assert (Hfill : Map_fill width height 0 [] rs = Ok ([], rs))
    by (destruct rs; reflexivity).
  rewrite Hfill. unfold ret at 1.
  destruct n_tours as [| n]; [lia |]. reflexivity.
Qed.

Lemma Population_new_no_city_witness :
  Population_new 600 400 0 150 [3; 1; 4]%Z = Undefined.
Proof. apply Population_new_no_city. lia. Defined.

(** ** Selection *)

(** X10.  Tournament selection loses no tour: the vector it leaves is a
    rearrangement of the one it found.  The position it returns is among
    the first [depth] of that vector and holds a tour than which none of
    those [depth] is strictly shorter; with depth [1], and with depth [0],
    it is position [0]. *)
Theorem findParent_tournament (depth : nat) (ts ts' : list Tour) (k : nat)
    (rs rs' : list Z) :
  findParent depth ts rs = Ok ((k, ts'), rs') ->
  Permutation ts ts'
  /\ depth <= length ts'
  /\ (1 <= depth -> k < depth)
  /\ (depth <= 1 -> k = 0)
  /\ exists r,
       nth_error ts' k = Some r
       /\ shortest_in (firstn depth ts') r.
Proof.
  intros H. apply findParent_Ok in H. destruct H as (HP & Hd & Hk & Hmax).
  split; [exact HP |]. split; [exact Hd |].
  destruct (firstn depth ts') as [| t range] eqn:E.
  - assert (depth = 0).
    { destruct depth; [reflexivity |]. destruct ts'; [simpl in Hd; lia | discriminate E]. }
    subst depth. simpl in Hmax. subst k.
    split; [lia |]. split; [reflexivity |].
    destruct (nth_error ts' 0) as [r |] eqn:Hr;
      [| apply nth_error_None in Hr; lia].
    exists r. split; [reflexivity |]. intros u [].
  - assert (Hne : t :: range <> []) by discriminate.
    destruct (max_element_spec (t :: range) Hne) as (r & Hr & Hmin).
    pose proof (max_element_lt (t :: range) Hne) as Hlt.
    rewrite <- Hmax in Hr, Hlt.
    assert (Hlen : length (t :: range) = depth).
    { rewrite <- E, length_firstn. lia. }
    rewrite Hlen in Hlt.
    split; [intros _; exact Hlt |]. split; [lia |].
    exists r. split; [| exact Hmin].
    rewrite <- E, nth_error_firstn in Hr.
    destruct (Nat.ltb_spec k depth); [exact Hr | discriminate Hr].
Qed.

Lemma findParent_tournament_witness :
  Permutation [around; across] [across; around]
  /\ 1 <= length [across; around]
  /\ (1 <= 1 -> 0 < 1)
  /\ (1 <= 1 -> 0 = 0)
  /\ exists r,
       nth_error [across; around] 0 = Some r
       /\ shortest_in (firstn 1 [across; around]) r.
Proof.
  apply (findParent_tournament 1 [around; across] [across; around] 0 [0%Z] []).
  vm_compute. reflexivity.
Defined.

(** X11.  A depth above the number of tours is undefined: once the vector
    is shuffled, [tours.begin() + depth] lies past its end. *)
Theorem findParent_depth_too_large (depth : nat) (ts : list Tour) (rs : list Z) :
  length ts < depth -> length ts - 1 <= length rs ->
  findParent depth ts rs = Undefined.
Proof.
  intros Hd Hrs. unfold findParent, bind.
  destruct (random_shuffle_total ts rs Hrs) as [ts' Hsh]. rewrite Hsh.
  apply random_shuffle_perm, Permutation_length in Hsh.
  destruct (Nat.ltb_spec (length ts') depth); [reflexivity | lia].
Qed.

Lemma findParent_depth_too_large_witness :
  findParent 3 [around; across] [0%Z] = Undefined.
Proof. apply findParent_depth_too_large; simpl; lia. Defined.

(** ** What a mutation does to the itinerary *)

Section Changed.
Context {A : Type}.

Lemma slice_length (l : list A) (first last : nat) :
  first <= last -> last <= length l -> length (slice l first last) = last - first.
Proof.
  intros Hf Hl. unfold slice. rewrite length_firstn, length_skipn. lia.
Qed.

Lemma slice_nth (l : list A) (first last k : nat) :
  k < last - first ->
  nth_error (slice l first last) k = nth_error l (first + k).
Proof.
  intros Hk. unfold slice. rewrite nth_error_firstn.
  destruct (Nat.ltb_spec k (last - first)); [| lia].
  apply nth_error_skipn.
Qed.

Lemma nth_after_firstn (l rest : list A) (i : nat) :
  i <= length l -> nth_error (firstn i l ++ rest) i = nth_error rest 0.
Proof.
  intros Hi. rewrite nth_error_app2 by (rewrite length_firstn; lia).
  rewrite length_firstn. f_equal. lia.
Qed.

(** After a swap, position [i] holds what position [j] held. *)
Lemma swap_at_nth (l l' : list A) (i j : nat) :
  i <> j -> swap_at l i j = Some l' -> nth_error l' i = nth_error l j.
Proof.
  intros Hne. unfold swap_at.
  destruct (nth_error l i) as [a |] eqn:Hi; [| discriminate].
  destruct (nth_error l j) as [b |] eqn:Hj; [| discriminate].
  intros H. inversion H; subst; clear H.
  assert (i < length l) by (apply nth_error_Some; congruence).
  assert (j < length l) by (apply nth_error_Some; congruence).
  rewrite nth_error_set_nth by (rewrite set_nth_length; lia).
  destruct (Nat.eqb_spec j i); [congruence |].
  rewrite nth_error_set_nth by lia. rewrite Nat.eqb_refl. reflexivity.
Qed.

(** After a reversal of the positions [first .. last - 1], position
    [first] holds what position [last - 1] held. *)
Lemma reverse_range_nth (l l' : list A) (first last : nat) :
  first < last -> reverse_range l first last = Some l' ->
  nth_error l' first = nth_error l (last - 1).
Proof.
  intros Hlt. unfold reverse_range.
  destruct (Nat.leb_spec first last) as [_ | H]; [| lia].
  destruct (Nat.leb_spec last (length l)) as [Hl | H]; [| discriminate].
  simpl. intros H. inversion H; subst; clear H.
  rewrite nth_after_firstn by lia.
  rewrite nth_error_app1 by (rewrite length_rev, slice_length; lia).
  rewrite nth_error_rev, slice_length by lia.
  destruct (Nat.ltb_spec 0 (last - first)); [| lia].
  rewrite slice_nth by lia. f_equal. lia.
Qed.

(** After a rotation about [middle], position [first] holds what position
    [middle] held. *)
Lemma rotate_range_nth (l l' : list A) (first middle last : nat) :
  middle < last -> rotate_range l first middle last = Some l' ->
  nth_error l' first = nth_error l middle.
Proof.
  intros Hlt. unfold rotate_range.
  destruct (Nat.leb_spec first middle) as [Hf | H]; [| discriminate].
  destruct (Nat.leb_spec middle last) as [_ | H]; [| lia].
  destruct (Nat.leb_spec last (length l)) as [Hl | H]; [| discriminate].
  simpl. intros H. inversion H; subst; clear H.
  rewrite nth_after_firstn by lia.
  rewrite nth_error_app1 by (rewrite slice_length; lia).
  rewrite slice_nth by lia. f_equal. lia.
Qed.

(** A list without repetition differs from one that holds, at some
    position, what it holds elsewhere. *)
Lemma changed_at (l l' : list A) (i q : nat) :
  NoDup l -> i < length l -> i <> q ->
  nth_error l' i = nth_error l q -> l' <> l.
Proof.
  intros Hnd Hi Hne Hnth ->. rewrite NoDup_nth_error in Hnd.
  apply Hne. apply Hnd; assumption.
Qed.

End Changed.

Section MutateEffect.
Variables (n : nat) (it : list nat).
Hypothesis Hit : is_tour n it.
Hypothesis Hword : (Z.of_nat n < 2 ^ 32)%Z.

Lemma mutate_loop_Ok (i j : Z) : forall rs kind it' rs',
  (1 <= i < j)%Z -> (j < Z.of_nat n)%Z ->
  mutate_loop i j it rs = Ok ((kind, it'), rs') ->
  (0 <= kind <= 2)%Z /\ it' <> it.
Proof.
  pose proof (tour_length _ _ Hit) as Hlen.
  pose proof (tour_NoDup _ _ Hit) as Hnd.
  induction rs as [| r rs IH]; intros kind it' rs' Hij Hj H;
    cbn [mutate_loop] in H; [discriminate H |].
  pose proof (Z.mod_pos_bound r 3 ltac:(lia)) as Hkind.
  destruct (Z.eqb_spec (r mod 3) 0) as [E0 | N0].
  - apply lift_Ok in H as [H _].
    destruct (swap_at it (Z.to_nat i) (Z.to_nat j)) as [l' |] eqn:Hsw;
      [| discriminate H].
    injection H as <- <-. split; [lia |].
    apply (changed_at it l' (Z.to_nat i) (Z.to_nat j)); auto; try lia.
    apply swap_at_nth; [lia | exact Hsw].
  - destruct (Z.eqb_spec (r mod 3) 1) as [E1 | N1].
    + apply lift_Ok in H as [H _].
      destruct (reverse_range it (Z.to_nat i) (Z.to_nat j + 1)) as [l' |] eqn:Hrev;
        [| discriminate H].
      injection H as <- <-. split; [lia |].
      apply (changed_at it l' (Z.to_nat i) (Z.to_nat j)); auto; try lia.
      rewrite (reverse_range_nth it l' (Z.to_nat i) (Z.to_nat j + 1));
        [f_equal; lia | lia | exact Hrev].
    + rewrite (wrap32_small (j - i)) in H by lia.
      destruct (Z.ltb_spec 2 (j - i)) as [Hfar | Hnear].
      * rewrite (wrap32_small (i + 1)) in H by lia.
        apply bind_Ok in H as (k & rs1 & Hk & H).
        apply randomIndex_Ok in Hk; [| lia | lia].
        apply lift_Ok in H as [H _].
        destruct (rotate_range it (Z.to_nat i) (Z.to_nat k) (Z.to_nat j + 1))
          as [l' |] eqn:Hrot; [| discriminate H].
        injection H as <- <-. split; [lia |].
        apply (changed_at it l' (Z.to_nat i) (Z.to_nat k)); auto; try lia.
        apply (rotate_range_nth it l' _ _ (Z.to_nat j + 1)); [lia | exact Hrot].
      * eapply IH; eassumption.
Qed.

End MutateEffect.

(** A mutation that fires returns the kind of a mutation that changed the
    itinerary. *)
Lemma mutate_fires (m : Map) (t t' : Tour) (p : float) (kind : Z)
    (r : Z) (rs rs' : list Z) :
  3 <= size m -> (Z.of_nat (size m) < 2 ^ 32)%Z ->
  is_tour (size m) (itinerary t) ->
  (p <? to_double r / to_double RAND_MAX * (1 - 0) + 0)%float = false ->
  mutate t p m (r :: rs) = Ok ((kind, t'), rs') ->
  (0 <= kind <= 2)%Z /\ itinerary t' <> itinerary t.
Proof.
  intros H3 Hword Hit Hp H. unfold mutate in H.
  pose proof (tour_length _ _ Hit) as Hlen. rewrite Hlen in H.
  apply bind_Ok in H as (d & rs1 & Hd & H).
  change (randomDouble 0 1 (r :: rs))
    with (Ok ((to_double r / to_double RAND_MAX * (1 - 0) + 0)%float, rs)) in Hd.
  assert (Ed : d = (to_double r / to_double RAND_MAX * (1 - 0) + 0)%float)
    by congruence.
  assert (Ers : rs1 = rs) by congruence.
  subst d rs1. rewrite Hp in H.
  rewrite (wrap32_small (Z.of_nat (size m) - 1)) in H by lia.
  rewrite (wrap32_small (Z.of_nat (size m))) in H by lia.
  apply bind_Ok in H as (i & rs2 & Hi & H).
  apply randomIndex_Ok in Hi; [| lia | lia].
  rewrite (wrap32_small (i + 1)) in H by lia.
  apply bind_Ok in H as (j & rs3 & Hj & H).
  apply randomIndex_Ok in Hj; [| lia | lia].
  apply bind_Ok in H as ([mutation it'] & rs4 & Hloop & H).
  apply (mutate_loop_Ok (size m) (itinerary t) Hit Hword) in Hloop;
    [| lia | lia].
  apply bind_Ok in H as (len & rs5 & _ & H).
  apply ret_Ok in H as [H _]. injection H as -> ->. exact Hloop.
Qed.

(** X12.  On a map of three cities or more, [mutate] keeps a tour a tour:
    no stream of draws leads it into undefined behaviour; what it returns is
    a tour of the map again, starting at city [0], with the length of its
    itinerary cached; and five draws of which none asks for a rotation are
    enough for it to return. *)
Theorem mutate_keeps_tour (m : Map) (t : Tour) (p : float) (rs : list Z) :
  3 <= size m -> (Z.of_nat (size m) < 2 ^ 32)%Z ->
  is_tour (size m) (itinerary t) -> cache_ok m t ->
  mutate t p m rs <> Undefined
  /\ (forall kind t' rs',
        mutate t p m rs = Ok ((kind, t'), rs') ->
        is_tour (size m) (itinerary t') /\ cache_ok m t'
        /\ exists used, rs = used ++ rs')
  /\ (Forall plain rs -> 5 <= length rs ->
      exists kind t' rs', mutate t p m rs = Ok ((kind, t'), rs')).
Proof.
  intros H3 Hword Hit Hcache.
  pose proof (runs_mutate m (size m) eq_refl H3 Hword t p Hit) as Hruns.
  split; [exact (runs_defined _ _ _ rs Hruns) |]. split.
  - intros kind t' rs' H. specialize (Hruns rs). rewrite H in Hruns.
    destruct Hruns as (Ht' & used & Hused & _). simpl in Ht'.
    split; [exact Ht' |]. split; [exact (mutate_cache _ _ _ _ _ _ _ Hcache H) |].
    exists used. exact Hused.
  - intros Hplain Hlen.
    destruct (runs_returns _ _ _ rs Hruns Hplain Hlen) as ([kind t'] & rs' & H & _).
    exists kind, t', rs'. exact H.
Qed.

Lemma mutate_keeps_tour_witness :
  mutate around 1 unit_square [7; 1; 1; 1; 1]%Z <> Undefined
  /\ (forall kind t' rs',
        mutate around 1 unit_square [7; 1; 1; 1; 1]%Z = Ok ((kind, t'), rs') ->
        is_tour (size unit_square) (itinerary t') /\ cache_ok unit_square t'
        /\ exists used, [7; 1; 1; 1; 1]%Z = used ++ rs')
  /\ (Forall plain [7; 1; 1; 1; 1]%Z -> 5 <= length [7; 1; 1; 1; 1]%Z ->
      exists kind t' rs',
        mutate around 1 unit_square [7; 1; 1; 1; 1]%Z = Ok ((kind, t'), rs')).
Proof.
  apply (mutate_keeps_tour unit_square around 1 [7; 1; 1; 1; 1]%Z).
  - vm_compute. lia.
  - reflexivity.
  - apply is_tourb_sound. reflexivity.
  - reflexivity.
Defined.

(** X13.  The kind [mutate] returns tells what happened to the tour.  When
    the number drawn is above [p] it is [-1], the tour is returned as it was
    and no further draw is read; otherwise it is [0], [1] or [2] and the
    itinerary has changed, still a permutation of the old one starting at
    city [0]: [mutate] does not return before a mutation has taken effect. *)
Theorem mutate_reports (m : Map) (t t' : Tour) (p : float) (kind : Z)
    (r : Z) (rs rs' : list Z) :
  3 <= size m -> (Z.of_nat (size m) < 2 ^ 32)%Z ->
  is_tour (size m) (itinerary t) ->
  mutate t p m (r :: rs) = Ok ((kind, t'), rs') ->
  if (p <? to_double r / to_double RAND_MAX * (1 - 0) + 0)%float
  then kind = (-1)%Z /\ t' = t /\ rs' = rs
  else (0 <= kind <= 2)%Z /\ itinerary t' <> itinerary t
       /\ nth_error (itinerary t') 0 = Some 0
       /\ Permutation (itinerary t) (itinerary t').
Proof.
  intros H3 Hword Hit H.
  destruct (p <? _)%float eqn:Hp.
  - rewrite (mutate_skips t p m r rs Hp) in H. injection H as <- <- <-. auto.
  - pose proof (runs_mutate m (size m) eq_refl H3 Hword t p Hit (r :: rs)) as Hruns.
    rewrite H in Hruns. destruct Hruns as [Ht' _]. simpl in Ht'.
    destruct (mutate_fires _ _ _ _ _ _ _ _ H3 Hword Hit Hp H) as [Hk Hne].
    repeat split; auto; try lia.
    + exact (tour_start _ _ Ht').
    + rewrite <- (proj1 Hit). exact (proj1 Ht').
Qed.

Lemma mutate_reports_witness :
  if (1 <? to_double 7 / to_double RAND_MAX * (1 - 0) + 0)%float
  then 1%Z = (-1)%Z /\ tour_on unit_square [0; 1; 3; 2] = around /\ [] = [1; 1; 1]%Z
  else (0 <= 1 <= 2)%Z
       /\ itinerary (tour_on unit_square [0; 1; 3; 2]) <> itinerary around
       /\ nth_error (itinerary (tour_on unit_square [0; 1; 3; 2])) 0 = Some 0
       /\ Permutation (itinerary around)
            (itinerary (tour_on unit_square [0; 1; 3; 2])).
Proof.
  apply (mutate_reports unit_square around (tour_on unit_square [0; 1; 3; 2]) 1 1
           7 [1; 1; 1]%Z []).
  - vm_compute. lia.
  - reflexivity.
  - apply is_tourb_sound. reflexivity.
  - vm_compute. reflexivity.
Defined.

(** X14.  A tour of two cities cannot be mutated: once the number drawn is
    not above [p], [randomIndex(1, itinerary.size() - 1)] is
    [randomIndex(1, 1)], which divides by zero. *)
Theorem mutate_two_cities (m : Map) (t : Tour) (p : float) (r r' : Z)
    (rs : list Z) :
  length (itinerary t) = 2 ->
  (p <? to_double r / to_double RAND_MAX * (1 - 0) + 0)%float = false ->
  mutate t p m (r :: r' :: rs) = Undefined.
Proof.
  intros Hlen Hp. unfold mutate, randomDouble, bind, rand, ret.
  rewrite Hp, Hlen. reflexivity.
Qed.

Lemma mutate_two_cities_witness :
  mutate (tour_on line3 [0; 1]) 1 line3 [0; 0]%Z = Undefined.
Proof.
  apply (mutate_two_cities line3 (tour_on line3 [0; 1]) 1 0 0 []).
  - reflexivity.
  - vm_compute. reflexivity.
Defined.

(** X15.  The child of a crossover can be longer than both of its parents:
    appending the nearer candidate at every step does not bound the length
    of the whole itinerary.  On the kite, the parents [0 1 3 2] and
    [0 2 3 1] have the child [0 2 1 3]. *)
Theorem sex_child_can_be_longer :
  exists (m : Map) (a b child : Tour),
    is_tour (size m) (itinerary a) /\ cache_ok m a
    /\ is_tour (size m) (itinerary b) /\ cache_ok m b
    /\ sex a b m = Some child
    /\ (_length a <? _length child)%float = true
    /\ (_length b <? _length child)%float = true.
Proof.
  exists kite, (tour_on kite [0; 1; 3; 2]), (tour_on kite [0; 2; 3; 1]),
    (tour_on kite [0; 2; 1; 3]).
  split; [apply is_tourb_sound; reflexivity |].
  split; [reflexivity |].
  split; [apply is_tourb_sound; reflexivity |].
  split; [reflexivity |].
  vm_compute. repeat split; reflexivity.
Qed.

(** ** The order on tours *)

(** Below a number that is not below: [t < tl] and [x >= tl] give [t < x]
    when [x] is a number. *)
Lemma SFltb_below (t tl x : spec_float) :
  SFeqb x x = true -> SFltb t tl = true -> SFltb x tl = false ->
  SFltb t x = true.
Proof.
  unfold SFeqb, SFltb.
  destruct t as [st | st | | st mt et], tl as [sl | sl | | sl ml el],
    x as [sx | sx | | sx mx ex]; simpl;
    try destruct st; try destruct sl; try destruct sx; simpl;
    try discriminate; try reflexivity; intros _;
    destruct (Z.compare_spec et el), (Z.compare_spec ex el),
      (Z.compare_spec et ex); subst;
    try discriminate; try reflexivity; try lia;
    fold (Pos.compare mt ml) (Pos.compare mx ml) (Pos.compare mt mx);
    destruct (Pos.compare_spec mt ml), (Pos.compare_spec mx ml),
      (Pos.compare_spec mt mx); subst; simpl;
    try discriminate; try reflexivity; lia.
Qed.

Lemma ltb_below (t tl x : float) :
  (x =? x)%float = true -> (t <? tl)%float = true -> (x <? tl)%float = false ->
  (t <? x)%float = true.
Proof.
  rewrite FloatAxioms.eqb_spec, !FloatAxioms.ltb_spec. apply SFltb_below.
Qed.

(** What [max_element] maintains over the part of the range it has seen:
    [largest] is the position of [tl], which is strictly shorter than every
    tour before it and not longer than any tour seen. *)
Lemma max_element_loop_earliest rest : forall seen largest tl,
  Forall (fun t => (_length t =? _length t)%float = true) (seen ++ rest) ->
  nth_error seen largest = Some tl ->
  (forall k x, k < largest -> nth_error seen k = Some x ->
     (_length tl <? _length x)%float = true) ->
  (forall x, In x seen -> (_length x <? _length tl)%float = false) ->
  exists r,
    nth_error (seen ++ rest) (max_element_loop largest tl (length seen) rest) = Some r
    /\ (forall k x,
          k < max_element_loop largest tl (length seen) rest ->
          nth_error (seen ++ rest) k = Some x ->
          (_length r <? _length x)%float = true)
    /\ (forall x, In x (seen ++ rest) -> (_length x <? _length r)%float = false).
Proof.
  induction rest as [| t rest IH]; intros seen largest tl Hnum Hnth Hbefore Hseen;
    cbn [max_element_loop].
  - rewrite app_nil_r. exists tl. auto.
  - assert (Hl : largest < length seen) by (apply nth_error_Some; congruence).
    assert (E : seen ++ t :: rest = (seen ++ [t]) ++ rest)
      by (rewrite <- app_assoc; reflexivity).
    assert (El : S (length seen) = length (seen ++ [t]))
      by (rewrite length_app; simpl; lia).
    rewrite E in Hnum |- *. rewrite El.
    unfold Tour_lt. destruct (_length t <? _length tl)%float eqn:Hlt.
    + apply IH; [exact Hnum | | |].
      * rewrite nth_error_app2 by lia. rewrite Nat.sub_diag. reflexivity.
      * intros k x Hk Hx. rewrite nth_error_app1 in Hx by lia.
        apply (ltb_below _ (_length tl)); [| exact Hlt |].
        -- rewrite Forall_forall in Hnum. apply Hnum.
           apply in_or_app. left. apply in_or_app. left.
           exact (nth_error_In _ _ Hx).
        -- apply Hseen. exact (nth_error_In _ _ Hx).
      * intros x Hx. apply in_app_or in Hx as [Hx | [<- | []]].
        -- apply FloatOrder.ltb_asym.
           apply (ltb_below _ (_length tl)); [| exact Hlt | exact (Hseen x Hx)].
           rewrite Forall_forall in Hnum. apply Hnum.
           apply in_or_app. left. apply in_or_app. left. exact Hx.
        -- apply FloatOrder.ltb_irrefl.
    + apply IH; [exact Hnum | | |].
      * rewrite nth_error_app1 by lia. exact Hnth.
      * intros k x Hk Hx. rewrite nth_error_app1 in Hx by lia.
        exact (Hbefore k x Hk Hx).
      * intros x Hx. apply in_app_or in Hx as [Hx | [<- | []]].
        -- exact (Hseen x Hx).
        -- exact Hlt.
Qed.

(** X16.  [fittest] returns a tour exactly when the population has one.
    Among tours whose cached lengths are fresh it returns the first of the
    shortest: no tour is shorter, and every tour before it is strictly
    longer. *)
Theorem fittest_first_shortest (m : Map) (ts : list Tour) :
  Forall (cache_ok m) ts ->
  (fittest ts = None <-> ts = [])
  /\ (forall f, fittest ts = Some f ->
        nth_error ts (max_element ts) = Some f
        /\ (forall t, In t ts -> (_length f <=? _length t)%float = true)
        /\ (forall k t, k < max_element ts -> nth_error ts k = Some t ->
              (_length f <? _length t)%float = true)).
Proof.
  intros Hcache.
  assert (Hnum : Forall (fun t => (_length t =? _length t)%float = true) ts).
  { eapply Forall_impl; [| exact Hcache]. intros t. apply cache_number. }
  split.
  - split.
    + intros H. destruct ts as [| t rest]; [reflexivity |].
      assert (Hne : t :: rest <> []) by discriminate.
      destruct (max_element_spec _ Hne) as (r & Hr & _).
      unfold fittest in H. congruence.
    + intros ->. reflexivity.
  - intros f Hf. unfold fittest in Hf. split; [exact Hf |].
    destruct ts as [| t rest]; [discriminate Hf |].
    destruct (max_element_loop_earliest rest [t] 0 t Hnum eq_refl) as (r & Hr & Hbefore & Hall).
    { intros k x Hk. lia. }
    { intros x [<- | []]. apply FloatOrder.ltb_irrefl. }
    change (max_element_loop 0 t (length [t]) rest) with (max_element (t :: rest))
      in Hr, Hbefore.
    change ([t] ++ rest) with (t :: rest) in Hr, Hbefore, Hall.
    assert (r = f) by congruence. subst r. split.
    + intros x Hx. apply FloatOrder.not_ltb_leb; [| | exact (Hall x Hx)].
      * rewrite Forall_forall in Hnum. apply Hnum.
        exact (nth_error_In _ _ Hf).
      * rewrite Forall_forall in Hnum. exact (Hnum x Hx).
    + exact Hbefore.
Qed.

Lemma fittest_first_shortest_witness :
  (fittest [across; around; across; around] = None
   <-> [across; around; across; around] = [])
  /\ (forall f, fittest [across; around; across; around] = Some f ->
        nth_error [across; around; across; around]
          (max_element [across; around; across; around]) = Some f
        /\ (forall t, In t [across; around; across; around] ->
              (_length f <=? _length t)%float = true)
        /\ (forall k t, k < max_element [across; around; across; around] ->
              nth_error [across; around; across; around] k = Some t ->
              (_length f <? _length t)%float = true)).
Proof.
  apply (fittest_first_shortest unit_square [across; around; across; around]).
  repeat constructor.
Defined.

(** X17.  [operator <] on tours, [a < b] when [a] is the longer one, is a
    strict weak order on tours whose cached lengths are fresh, as
    [max_element] asks of it: it is irreflexive and transitive, and tours
    that neither precede a third one nor are preceded by it do not precede
    one another. *)
Theorem Tour_lt_strict_weak_order (m : Map) (a b c : Tour) :
  cache_ok m a -> cache_ok m b -> cache_ok m c ->
  Tour_lt a a = false
  /\ (Tour_lt a b = true -> Tour_lt b a = false)
  /\ (Tour_lt a b = true -> Tour_lt b c = true -> Tour_lt a c = true)
  /\ (Tour_lt a b = false -> Tour_lt b a = false ->
      Tour_lt b c = false -> Tour_lt c b = false ->
      Tour_lt a c = false /\ Tour_lt c a = false).
Proof.
  intros Ha Hb Hc. apply cache_number in Ha, Hb, Hc. unfold Tour_lt.
  split; [apply FloatOrder.ltb_irrefl |].
  split; [apply FloatOrder.ltb_asym |].
  split; [intros Hab Hbc; exact (FloatOrder.ltb_trans _ _ _ Hbc Hab) |].
  intros Hab Hba Hbc Hcb. split.
  - destruct (_length c <? _length a)%float eqn:E; [| reflexivity].
    rewrite <- Hbc. symmetry. exact (ltb_below _ _ _ Hb E Hab).
  - destruct (_length a <? _length c)%float eqn:E; [| reflexivity].
    rewrite <- Hba. symmetry. exact (ltb_below _ _ _ Hb E Hcb).
Qed.

Lemma Tour_lt_strict_weak_order_witness :
  Tour_lt across across = false
  /\ (Tour_lt across around = true -> Tour_lt around across = false)
  /\ (Tour_lt across around = true -> Tour_lt around around = true ->
      Tour_lt across around = true)
  /\ (Tour_lt across around = false -> Tour_lt around across = false ->
      Tour_lt around around = false -> Tour_lt around around = false ->
      Tour_lt across around = false /\ Tour_lt around across = false).
Proof.
  apply (Tour_lt_strict_weak_order unit_square across around around);
    reflexivity.
Defined.

(** ** Generations of small populations *)

(** X18.  [evolve] at the edges.  An empty population has no fittest tour
    to copy: [evolve] dereferences [tours.end()].  A population of one tour
    is returned as it is without a draw being read, whatever the depth and
    the probability.  With two tours or more and a depth above their
    number, the first selection reads past the end of the vector. *)
Theorem evolve_edge_cases (p_mutate : float) (depth : nat) (pop : Population)
    (rs : list Z) :
  (tours pop = [] -> evolve p_mutate depth pop rs = Undefined)
  /\ (forall t, tours pop = [t] -> evolve p_mutate depth pop rs = Ok (pop, rs))
  /\ (2 <= length (tours pop) -> length (tours pop) < depth ->
      length (tours pop) - 1 <= length rs ->
      evolve p_mutate depth pop rs = Undefined).
Proof.
  split; [| split].
  - intros E. unfold evolve. rewrite E. reflexivity.
  - intros t E. destruct pop as [m ts]. simpl in E. subst ts.
    apply evolve_single.
  - intros H2 Hd Hrs. unfold evolve.
    destruct (tours pop) as [| t rest] eqn:E; [simpl in H2; lia |].
    assert (Hne : t :: rest <> []) by discriminate.
    destruct (max_element_spec _ Hne) as (best & Hbest & _).
    fold (fittest (t :: rest)) in Hbest. rewrite Hbest.
    cbn [lift]. unfold bind at 1. unfold ret at 1.
    change (length (t :: rest)) with (S (length rest)) at 1.
    rewrite breed_pass.
    destruct (Nat.ltb_spec (length [best]) (length (t :: rest))) as [_ | Hc];
      [| simpl in Hc, H2; lia].
    unfold bind at 1. unfold bind at 1. unfold findParent, bind.
    destruct (random_shuffle_total (t :: rest) rs Hrs) as [ts' Hsh]. rewrite Hsh.
    apply random_shuffle_perm, Permutation_length in Hsh.
    destruct (Nat.ltb_spec (length ts') depth); [reflexivity | lia].
Qed.

Lemma evolve_edge_cases_witness :
  evolve 0.5 2 (mkPopulation unit_square []) [] = Undefined
  /\ evolve 0.5 2 (mkPopulation unit_square [around]) [] =
     Ok (mkPopulation unit_square [around], [])
  /\ evolve 0.5 3 (mkPopulation unit_square [around; across]) [0%Z] = Undefined.
Proof.
  split; [| split].
  - apply (proj1 (evolve_edge_cases 0.5 2 (mkPopulation unit_square []) [])).
    reflexivity.
  - apply (proj1 (proj2 (evolve_edge_cases 0.5 2
                           (mkPopulation unit_square [around]) [])) around).
    reflexivity.
  - apply (proj2 (proj2 (evolve_edge_cases 0.5 3
                           (mkPopulation unit_square [around; across]) [0%Z])));
      simpl; lia.
Defined.

(** ** What the parents of a crossover agree on *)

Section CommonPrefix.
Variables (m : Map) (a b : list nat) (p : nat).
Hypothesis Ha : is_tour (size m) a.
Hypothesis Hb : is_tour (size m) b.
Hypothesis Hcommon : firstn p a = firstn p b.

Lemma common_firstn (k : nat) : k <= p -> firstn k a = firstn k b.
Proof.
  intros Hk.
  rewrite <- (Nat.min_l k p Hk), <- !firstn_firstn, Hcommon. reflexivity.
Qed.

Lemma common_nth (k : nat) : k < p -> nth_error a k = nth_error b k.
Proof.
  intros Hk.
  pose proof (nth_error_firstn p a k) as Ea.
  pose proof (nth_error_firstn p b k) as Eb.
  destruct (Nat.ltb_spec k p); [| lia]. congruence.
Qed.

(** While the itinerary is shorter than the common beginning of the
    parents it is a beginning of it, and afterwards it begins with it. *)
Lemma common_reach_prefix st :
  sex_reach a b m st ->
  firstn p (itin st) = firstn (Nat.min p (length (itin st))) a.
Proof.
  induction 1 as [| st br i j st' Hreach IH Hlt Hbody].
  - cbn [sex_init itin length].
    destruct (Nat.eq_dec p 0) as [E | E]; [rewrite E; reflexivity |].
    rewrite Nat.min_r by lia. rewrite firstn_all2 by (simpl; lia).
    rewrite (firstn_snoc a 0 0 (tour_start _ _ Ha)). reflexivity.
  - pose proof (sex_reach_inv m a b Ha Hb st Hreach) as I.
    destruct (sex_body_progress m a b Ha Hb st I Hlt) as
      (i0 & j0 & ai & bj & da & db & _ & _ & _ & _ & Hai & Hnai & Hbj & Hnbj
       & Hskipa & Hskipb & _ & _ & Hbody').
    rewrite Hbody' in Hbody.
    set (k := length (itin st)) in *.
    assert (Hgrow : exists c, itin st' = itin st ++ [c]
                              /\ (k < p -> c = ai /\ i0 = k)).
    { destruct (Nat.lt_ge_cases k p) as [Hk | Hk].
      - rewrite Nat.min_r in IH by lia.
        rewrite firstn_all2 in IH by (fold k; lia).
        assert (Hka : k < length a) by (rewrite (tour_length _ _ Ha); exact Hlt).
        assert (Hkb : k < length b) by (rewrite (tour_length _ _ Hb); exact Hlt).
        assert (Ei : i0 = k).
        { apply (cursor_after_prefix m a Ha k i0 ai Hka Hai).
          - rewrite <- IH. exact Hnai.
          - rewrite <- IH. exact Hskipa. }
        assert (Ej : j0 = k).
        { apply (cursor_after_prefix m b Hb k j0 bj Hkb Hbj).
          - rewrite <- (common_firstn k), <- IH by lia. exact Hnbj.
          - rewrite <- (common_firstn k), <- IH by lia. exact Hskipb. }
        subst i0 j0. rewrite (common_nth k Hk), Hbj in Hai.
        injection Hai as ->.
        exists ai. split; [| auto].
        unfold pass_outcome in Hbody.
        destruct (da <? db)%float; injection Hbody as _ _ _ <-; reflexivity.
      - unfold pass_outcome in Hbody.
        destruct (da <? db)%float; injection Hbody as _ _ _ <-;
          eexists; (split; [reflexivity | lia]). }
    destruct Hgrow as (c & -> & Hc).
    rewrite length_app. fold k. cbn [length].
    destruct (Nat.lt_ge_cases k p) as [Hk | Hk].
    + destruct (Hc Hk) as [-> ->].
      rewrite Nat.min_r in IH |- * by lia.
      rewrite firstn_all2 in IH by (fold k; lia).
      rewrite firstn_all2 by (rewrite length_app; fold k; simpl; lia).
      replace (k + 1) with (S k) by lia.
      rewrite (firstn_snoc a k ai Hai). f_equal. exact IH.
    + rewrite firstn_app. replace (p - length (itin st)) with 0 by (fold k; lia).
      rewrite firstn_O, app_nil_r, IH. f_equal. lia.
Qed.

End CommonPrefix.

(** X19.  What the parents agree on at the start, the child inherits: when
    the first [p] cities of two tours of the map are the same, they are the
    first [p] cities of their child as well. *)
Theorem sex_keeps_common_prefix (m : Map) (a b : Tour) (p : nat) :
  is_tour (size m) (itinerary a) -> is_tour (size m) (itinerary b) ->
  firstn p (itinerary a) = firstn p (itinerary b) ->
  exists child,
    sex a b m = Some child
    /\ firstn p (itinerary child) = firstn p (itinerary a).
Proof.
  intros Ha Hb Hcommon.
  destruct (sex_loop_total m (itinerary a) (itinerary b) Ha Hb (size m) sex_init)
    as (st & Hloop & Hreach & Hlen); [constructor | lia |].
  pose proof (common_reach_prefix m _ _ p Ha Hb Hcommon st Hreach) as Hpre.
  pose proof (sex_reach_inv m _ _ Ha Hb st Hreach) as I.
  destruct (Tour_of_total m (itin st)) as [len Hlenof].
  { destruct (inv_start I) as [rest ->]. discriminate. }
  { exact (inv_range I). }
  exists (mkTour (itin st) len). unfold sex. rewrite Hloop.
  split; [exact Hlenof |]. simpl. rewrite Hpre, Hlen.
  pose proof (tour_length _ _ Ha) as Hla.
  destruct (Nat.le_ge_cases p (size m)) as [Hp | Hp].
  - rewrite Nat.min_l by lia. reflexivity.
  - rewrite Nat.min_r by lia. rewrite !firstn_all2 by lia. reflexivity.
Qed.

Lemma sex_keeps_common_prefix_witness :
  exists child,
    sex around (tour_on unit_square [0; 1; 3; 2]) unit_square = Some child
    /\ firstn 2 (itinerary child) = firstn 2 (itinerary around).
Proof.
  apply (sex_keeps_common_prefix unit_square around
           (tour_on unit_square [0; 1; 3; 2]) 2).
  - apply is_tourb_sound. reflexivity.
  - apply is_tourb_sound. reflexivity.
  - reflexivity.
Defined.

(** ** The draws a computation reads *)

Lemma consumes_ret {A} (a : A) : consumes (ret a).
Proof. intros rs b rs' H. apply ret_Ok in H as [_ ->]. lia. Qed.

Lemma consumes_lift {A} (o : option A) : consumes (lift o).
Proof. intros rs b rs' H. apply lift_Ok in H as [_ ->]. lia. Qed.

Lemma consumes_rand : consumes rand.
Proof. intros rs b rs' H. apply rand_Ok in H as ->. simpl. lia. Qed.

Lemma consumes_bind {A B} (c : Rand A) (k : A -> Rand B) :
  consumes c -> (forall a, consumes (k a)) -> consumes (bind c k).
Proof.
  intros Hc Hk rs b rs' H. apply bind_Ok in H as (a & rs1 & H1 & H2).
  apply Hc in H1. apply Hk in H2. lia.
Qed.

Lemma consumes_randomIndex (a b : Z) : consumes (randomIndex a b).
Proof.
  unfold randomIndex. apply consumes_bind; [exact consumes_rand |].
  intros r. destruct (_ =? 0)%Z; [discriminate | apply consumes_ret].
Qed.

Lemma consumes_randomDouble (a b : float) : consumes (randomDouble a b).
Proof.
  unfold randomDouble. apply consumes_bind; [exact consumes_rand |].
  intros r. apply consumes_ret.
Qed.

Lemma consumes_shuffle_loop {A} k : forall i (l : list A),
  consumes (shuffle_loop k i l).
Proof.
  induction k as [| k IH]; intros i l; cbn [shuffle_loop].
  - apply consumes_ret.
  - apply consumes_bind; [exact consumes_rand |]. intros r.
    apply consumes_bind; [apply consumes_lift |]. intros l'. apply IH.
Qed.

Lemma consumes_findParent depth ts : consumes (findParent depth ts).
Proof.
  unfold findParent. apply consumes_bind; [apply consumes_shuffle_loop |].
  intros ts'. destruct (_ <? depth); [discriminate |].
  destruct (_ <? length ts'); [apply consumes_ret | discriminate].
Qed.

Lemma consumes_breed depth m : forall fuel ts children,
  consumes (breed fuel depth m ts children).
Proof.
  induction fuel as [| fuel IH]; intros ts children.
  - cbn [breed]. destruct (_ <? _); [discriminate | apply consumes_ret].
  - rewrite breed_pass. destruct (_ <? _); [| apply consumes_ret].
    apply consumes_bind; [apply consumes_findParent |]. intros [a ts1].
    apply consumes_bind; [apply consumes_findParent |]. intros [b ts2].
    apply consumes_bind; [apply consumes_lift |]. intros ta.
    apply consumes_bind; [apply consumes_lift |]. intros tb.
    apply consumes_bind; [| intros child; apply IH].
    destruct (negb _); [apply consumes_lift | apply consumes_ret].
Qed.

Lemma consumes_mutate_loop i j it : consumes (mutate_loop i j it).
Proof.
  intros rs. induction rs as [| r rs IH]; intros a rs' H; cbn [mutate_loop] in H;
    [discriminate H |].
  destruct (_ =? 0)%Z.
  { apply consumes_lift in H. simpl. lia. }
  destruct (_ =? 1)%Z.
  { apply consumes_lift in H. simpl. lia. }
  destruct (2 <? _)%Z.
  - revert H.
    match goal with |- ?c rs = _ -> _ => assert (Hc : consumes c) end.
    { apply consumes_bind; [apply consumes_randomIndex |].
      intros k. apply consumes_lift. }
    intros H. apply Hc in H. simpl. lia.
  - apply IH in H. simpl. lia.
Qed.

Lemma consumes_mutate t p m : consumes (mutate t p m).
Proof.
  unfold mutate. apply consumes_bind; [apply consumes_randomDouble |].
  intros d. destruct (p <? d)%float; [apply consumes_ret |].
  apply consumes_bind; [apply consumes_randomIndex |]. intros i.
  apply consumes_bind; [apply consumes_randomIndex |]. intros j.
  apply consumes_bind; [apply consumes_mutate_loop |]. intros [mutation it'].
  apply consumes_bind; [apply consumes_lift |]. intros len. apply consumes_ret.
Qed.

Lemma consumes_mutate_each p m : forall cs, consumes (mutate_each p m cs).
Proof.
  induction cs as [| c cs IH]; cbn [mutate_each]; [apply consumes_ret |].
  apply consumes_bind; [apply consumes_mutate |]. intros [kind c'].
  apply consumes_bind; [exact IH |]. intros cs'. apply consumes_ret.
Qed.

Lemma consumes_evolve p depth pop : consumes (evolve p depth pop).
Proof.
  unfold evolve. apply consumes_bind; [apply consumes_lift |]. intros best.
  apply consumes_bind; [apply consumes_breed |]. intros [ts children].
  apply consumes_bind; [apply consumes_mutate_each |]. intros mutated.
  apply consumes_ret.
Qed.

(** A selection among two tours or more reads a draw. *)
Lemma findParent_reads depth ts rs sel rs' :
  2 <= length ts -> findParent depth ts rs = Ok (sel, rs') ->
  length rs' < length rs.
Proof.
  intros H2 H. unfold findParent in H.
  apply bind_Ok in H as (ts' & rs1 & Hsh & H).
  assert (Hrest : length rs' <= length rs1).
  { destruct (_ <? depth); [discriminate H |].
    destruct (_ <? length ts'); [| discriminate H].
    apply ret_Ok in H as [_ ->]. lia. }
  unfold random_shuffle in Hsh.
  destruct (length ts - 1) as [| k] eqn:E; [lia |].
  cbn [shuffle_loop] in Hsh.
  apply bind_Ok in Hsh as (r & rs2 & Hr & Hsh).
  apply rand_Ok in Hr as ->.
  revert Hsh.
  match goal with |- ?c rs2 = _ -> _ => assert (Hc : consumes c) end.
  { apply consumes_bind; [apply consumes_lift |]. intros l'.
    apply consumes_shuffle_loop. }
  intros Hsh. apply Hc in Hsh. simpl. lia.
Qed.

(** A generation of two tours or more reads a draw. *)
Lemma evolve_reads p depth pop rs pop' rs' :
  2 <= length (tours pop) -> evolve p depth pop rs = Ok (pop', rs') ->
  length rs' < length rs.
Proof.
  intros H2 H. unfold evolve in H.
  apply bind_Ok in H as (best & rs1 & Hbest & H).
  apply lift_Ok in Hbest as [_ ->].
  apply bind_Ok in H as ([ts children] & rs2 & Hbreed & H).
  assert (Hrest : length rs' <= length rs2).
  { revert H.
    match goal with |- ?c rs2 = _ -> _ => assert (Hc : consumes c) end.
    { apply consumes_bind; [apply consumes_mutate_each |]. intros mutated.
      apply consumes_ret. }
    intros H. apply Hc in H. exact H. }
  destruct (length (tours pop)) as [| fuel] eqn:E; [lia |].
  rewrite breed_pass in Hbreed. rewrite E in Hbreed.
  change (length [best]) with 1 in Hbreed.
  destruct (Nat.ltb_spec 1 (S fuel)) as [_ | Hc]; [| lia].
  apply bind_Ok in Hbreed as ([a ts1] & rs3 & Hfind & Hbreed).
  apply findParent_reads in Hfind; [| lia].
  revert Hbreed.
  match goal with |- ?c rs3 = _ -> _ => assert (Hc : consumes c) end.
  { apply consumes_bind; [apply consumes_findParent |]. intros [b ts2].
    apply consumes_bind; [apply consumes_lift |]. intros ta.
    apply consumes_bind; [apply consumes_lift |]. intros tb.
    apply consumes_bind; [| intros child; apply consumes_breed].
    destruct (negb _); [apply consumes_lift | apply consumes_ret]. }
  intros Hbreed. apply Hc in Hbreed. lia.
Qed.

Lemma fittest_single (t : Tour) : fittest [t] = Some t.
Proof. reflexivity. Qed.

(** A [for] loop that is left by [break] has read a draw. *)
Lemma stall_improved p depth : forall todo i st rs st' rs',
  settled st ->
  stall todo i p depth st rs = Ok ((st', true), rs') ->
  length rs' < length rs /\ settled st'.
Proof.
  induction todo as [| todo IH]; intros i st rs st' rs' Hst H; cbn [stall] in H.
  - apply ret_Ok in H as [H _]. discriminate H.
  - apply bind_Ok in H as (pop' & rs1 & Hev & H).
    apply bind_Ok in H as (best & rs2 & Hbest & H).
    apply lift_Ok in Hbest as [Hbest ->].
    pose proof (evolve_Ok _ _ _ _ _ _ Hev) as (Hlen & Hmap & _).
    pose proof (consumes_evolve _ _ _ _ _ _ Hev) as Hle.
    destruct (_length best <? s_length st)%float eqn:Hlt.
    + apply ret_Ok in H as [H ->]. injection H as ->.
      split.
      * destruct (tours (population st)) as [| t [| t2 rest]] eqn:E.
        -- unfold evolve in Hev. rewrite E in Hev. discriminate Hev.
        -- exfalso. destruct (population st) as [m ts] eqn:Ep.
           simpl in E. subst ts.
           rewrite evolve_single in Hev. injection Hev as <- <-.
           simpl in Hbest. injection Hbest as <-.
           rewrite (Hst t) in Hlt; [discriminate Hlt |].
           rewrite Ep. reflexivity.
        -- apply (evolve_reads _ _ _ _ _ _) in Hev; [exact Hev |].
           rewrite E. simpl. lia.
      * intros t Ht. simpl in Ht. rewrite Ht in Hbest.
        injection Hbest as <-. simpl. apply FloatOrder.ltb_irrefl.
    + apply IH in H.
      * destruct H as [H Hst']. split; [lia | exact Hst'].
      * intros t Ht. simpl in Ht |- *. rewrite Ht in Hbest.
        injection Hbest as <-. exact Hlt.
Qed.

Lemma search_loop_pass (fuel n_stop : nat) p depth st :
  search_loop fuel n_stop p depth st
  = ' (st', improved) <- stall n_stop 0 p depth st ;;
    if (improved : bool) then
      match fuel with
      | O => fun _ => Starved
      | S fuel' => search_loop fuel' n_stop p depth st'
      end
    else
      ret (mkSearch (population st') (s_length st')
             (wrap32 (n_generations st' + Z.of_nat n_stop))).
Proof. destruct fuel; reflexivity. Qed.

(** As many passes of the [do] loop as there are draws are enough. *)
Lemma search_loop_fuel n_stop p depth : forall fuel st rs,
  settled st -> length rs <= fuel ->
  search_loop (S fuel) n_stop p depth st rs = search_loop fuel n_stop p depth st rs.
Proof.
  induction fuel as [| fuel IH]; intros st rs Hst Hrs;
    [rewrite (search_loop_pass 1), (search_loop_pass 0)
    | rewrite (search_loop_pass (S (S fuel))), (search_loop_pass (S fuel))];
    unfold bind;
    destruct (stall n_stop 0 p depth st rs) as [[[st' [|]] rs'] | |] eqn:E;
    try reflexivity;
    apply stall_improved in E as [Hlt Hst']; try exact Hst.
  - lia.
  - apply IH; [exact Hst' | lia].
Qed.

Lemma search_loop_enough n_stop p depth st rs : forall extra,
  settled st ->
  search_loop (length rs + extra) n_stop p depth st rs
  = search_loop (length rs) n_stop p depth st rs.
Proof.
  induction extra as [| extra IH]; intros Hst.
  - rewrite Nat.add_0_r. reflexivity.
  - rewrite Nat.add_succ_r, search_loop_fuel; [auto | exact Hst | lia].
Qed.

(** ** Generations in a row *)

Lemma generations_app p depth : forall k1 k2 pop rs pop1 rs1 pop2 rs2,
  generations k1 p depth pop rs = Ok (pop1, rs1) ->
  generations k2 p depth pop1 rs1 = Ok (pop2, rs2) ->
  generations (k1 + k2) p depth pop rs = Ok (pop2, rs2).
Proof.
  induction k1 as [| k1 IH]; intros k2 pop rs pop1 rs1 pop2 rs2 H1 H2;
    cbn [generations] in H1 |- *.
  - apply ret_Ok in H1 as [-> ->]. exact H2.
  - apply bind_Ok in H1 as (pop' & rs' & Hev & H1).
    simpl. unfold bind. rewrite Hev. eapply IH; eassumption.
Qed.

Lemma generations_one p depth pop rs pop' rs' :
  evolve p depth pop rs = Ok (pop', rs') ->
  generations 1 p depth pop rs = Ok (pop', rs').
Proof. intros H. simpl. unfold bind. rewrite H. reflexivity. Qed.

Lemma wrap32_add_l (a b : Z) : wrap32 (wrap32 a + b) = wrap32 (a + b).
Proof. unfold wrap32. apply Zplus_mod_idemp_l. Qed.

(** What a [for] loop of the search has done when it is left: by [break],
    after [k] generations of which the last brought a shorter tour, counted
    into [n_generations]; or at its end, after [todo] generations that
    brought none. *)
Lemma stall_generations p depth : forall todo i st rs st' improved rs',
  (Z.of_nat (i + todo) < 2 ^ 32)%Z ->
  stall todo i p depth st rs = Ok ((st', improved), rs') ->
  exists k,
    generations k p depth (population st) rs = Ok (population st', rs')
    /\ if (improved : bool)
       then 1 <= k <= todo
            /\ n_generations st' = wrap32 (n_generations st + Z.of_nat (i + k))
            /\ (s_length st' <? s_length st)%float = true
       else k = todo
            /\ n_generations st' = n_generations st
            /\ s_length st' = s_length st.
Proof.
  induction todo as [| todo IH]; intros i st rs st' improved rs' Hi H;
    cbn [stall] in H.
  - apply ret_Ok in H as [H ->]. injection H as -> ->.
    exists 0. split; [reflexivity | auto].
  - apply bind_Ok in H as (pop' & rs1 & Hev & H).
    apply bind_Ok in H as (best & rs2 & Hbest & H).
    apply lift_Ok in Hbest as [Hbest ->].
    destruct (_length best <? s_length st)%float eqn:Hlt.
    + apply ret_Ok in H as [H ->]. injection H as -> ->.
      exists 1. split; [exact (generations_one _ _ _ _ _ _ Hev) |].
      cbn [population n_generations s_length].
      split; [lia |]. split; [| exact Hlt].
      rewrite (wrap32_small (Z.of_nat i + 1)) by lia. f_equal. lia.
    + apply IH in H; [| lia]. destruct H as (k & Hgen & H).
      cbn [population n_generations s_length] in Hgen, H.
      exists (S k). split.
      * exact (generations_app _ _ 1 k _ _ _ _ _ _
                 (generations_one _ _ _ _ _ _ Hev) Hgen).
      * destruct improved.
        -- destruct H as (Hk & Hn & Hs). split; [lia |]. split; [| exact Hs].
           rewrite Hn. f_equal. lia.
        -- destruct H as (-> & Hn & Hs). auto.
Qed.

(** What the [do] loop has done when it is left: [k] generations, of which
    there are [n_stop] at least, all counted into [n_generations]. *)
Lemma search_loop_generations n_stop p depth : forall fuel st rs st' rs',
  (Z.of_nat n_stop < 2 ^ 32)%Z ->
  search_loop fuel n_stop p depth st rs = Ok (st', rs') ->
  exists k,
    n_stop <= k
    /\ generations k p depth (population st) rs = Ok (population st', rs')
    /\ n_generations st' = wrap32 (n_generations st + Z.of_nat k).
Proof.
  induction fuel as [| fuel IH]; intros st rs st' rs' Hn H;
    rewrite search_loop_pass in H;
    apply bind_Ok in H as ([st1 improved] & rs1 & Hstall & H);
    apply stall_generations in Hstall as (k1 & Hgen1 & Hk1); try (simpl; lia);
    destruct improved; try discriminate H.
  - apply ret_Ok in H as [-> ->]. destruct Hk1 as (-> & Hn1 & _).
    exists n_stop. cbn [population n_generations s_length]. rewrite Hn1. auto.
  - apply IH in H as (k2 & Hk2 & Hgen2 & Hn2); [| exact Hn].
    destruct Hk1 as (Hk1 & Hn1 & _).
    exists (k1 + k2). split; [lia |]. split.
    + exact (generations_app _ _ _ _ _ _ _ _ _ _ Hgen1 Hgen2).
    + rewrite Hn2, Hn1, wrap32_add_l. f_equal. lia.
  - apply ret_Ok in H as [-> ->]. destruct Hk1 as (-> & Hn1 & _).
    exists n_stop. cbn [population n_generations s_length]. rewrite Hn1. auto.
Qed.

Lemma search_generations n_stop p depth pop n rs pop' n' rs' :
  (Z.of_nat n_stop < 2 ^ 32)%Z ->
  search n_stop p depth pop n rs = Ok ((pop', n'), rs') ->
  exists k,
    n_stop <= k
    /\ generations k p depth pop rs = Ok (pop', rs')
    /\ n' = wrap32 (n + Z.of_nat k).
Proof.
  intros Hn H. unfold search in H.
  apply bind_Ok in H as (best & rs1 & Hbest & H).
  apply lift_Ok in Hbest as [_ ->].
  apply bind_Ok in H as (st & rs2 & Hloop & H).
  apply ret_Ok in H as [H ->]. injection H as -> ->.
  apply search_loop_generations in Hloop; [| exact Hn]. exact Hloop.
Qed.

Lemma generations_Ok p depth : forall k pop rs pop' rs',
  generations k p depth pop rs = Ok (pop', rs') ->
  length (tours pop') = length (tours pop) /\ map pop' = map pop.
Proof.
  induction k as [| k IH]; intros pop rs pop' rs' H; cbn [generations] in H.
  - apply ret_Ok in H as [-> _]. auto.
  - apply bind_Ok in H as (pop1 & rs1 & Hev & H).
    apply evolve_Ok in Hev as (Hlen & Hmap & _).
    apply IH in H as [H1 H2]. split; congruence.
Qed.

(** Generations in a row keep the cached lengths fresh and never make the
    fittest tour longer. *)
Lemma generations_never_worse p depth : forall k pop rs pop' rs',
  Forall (cache_ok (map pop)) (tours pop) ->
  generations k p depth pop rs = Ok (pop', rs') ->
  Forall (cache_ok (map pop')) (tours pop')
  /\ forall old new,
       fittest (tours pop) = Some old -> fittest (tours pop') = Some new ->
       (_length old <? _length new)%float = false.
Proof.
  induction k as [| k IH]; intros pop rs pop' rs' Hcache H; cbn [generations] in H.
  - apply ret_Ok in H as [-> _]. split; [exact Hcache |].
    intros old new Ho Hn. assert (new = old) by congruence. subst new.
    apply FloatOrder.ltb_irrefl.
  - apply bind_Ok in H as (pop1 & rs1 & Hev & H).
    pose proof (evolve_cache _ _ _ _ _ _ Hcache Hev) as Hcache1.
    destruct (evolve_Ok _ _ _ _ _ _ Hev) as (_ & _ & old0 & others & Hold & Htours).
    destruct (IH _ _ _ _ Hcache1 H) as [Hcache' Hworse].
    split; [exact Hcache' |].
    intros old new Ho Hn. assert (old0 = old) by congruence. subst old0.
    assert (Hne : tours pop1 <> []) by (rewrite Htours; discriminate).
    destruct (max_element_spec _ Hne) as (mid & Hmid & Hshort).
    fold (fittest (tours pop1)) in Hmid.
    assert (Hom : (_length old <? _length mid)%float = false).
    { apply (proj2 (fittest_spec _ _ Hmid)). rewrite Htours. left. reflexivity. }
    destruct (_length old <? _length new)%float eqn:E; [| reflexivity].
    rewrite <- Hom. symmetry.
    apply (ltb_below (_length old) (_length new) (_length mid));
      [| exact E | exact (Hworse mid new Hmid Hn)].
    apply (cache_number (map pop1)).
    rewrite Forall_forall in Hcache1. apply Hcache1.
    exact (nth_error_In _ _ Hmid).
Qed.

(** X20.  The search of [main] counts its generations.  When it returns it
    has run [k] generations in a row, [n_stop] of them at least: the
    population it leaves is the one after [k] calls of [evolve], on the same
    map and with as many tours, and [n_generations] has grown by [k]. *)
Theorem search_counts_generations (n_stop : nat) (p_mutate : float) (depth : nat)
    (pop pop' : Population) (n n' : Z) (rs rs' : list Z) :
  (Z.of_nat n_stop < 2 ^ 32)%Z ->
  search n_stop p_mutate depth pop n rs = Ok ((pop', n'), rs') ->
  exists k,
    n_stop <= k
    /\ generations k p_mutate depth pop rs = Ok (pop', rs')
    /\ n' = wrap32 (n + Z.of_nat k)
    /\ length (tours pop') = length (tours pop)
    /\ map pop' = map pop.
Proof.
  intros Hn H.
  destruct (search_generations _ _ _ _ _ _ _ _ _ Hn H) as (k & Hk & Hgen & Hn').
  exists k. repeat (split; [assumption |]).
  exact (generations_Ok _ _ _ _ _ _ _ Hgen).
Qed.

Lemma search_counts_generations_witness :
  exists k,
    1 <= k
    /\ generations k 1 1 pair_across [0; 0; 0; 0; 0; 0; 0; 0; 0; 0; 0; 0; 5]%Z
       = Ok (mkPopulation unit_square [around; around], [5%Z])
    /\ 2%Z = wrap32 (0 + Z.of_nat k)
    /\ length (tours (mkPopulation unit_square [around; around]))
       = length (tours pair_across)
    /\ map (mkPopulation unit_square [around; around]) = map pair_across.
Proof.
  apply (search_counts_generations 1 1 1 pair_across _ 0 2
           [0; 0; 0; 0; 0; 0; 0; 0; 0; 0; 0; 0; 5]%Z [5%Z]).
  - reflexivity.
  - vm_compute. reflexivity.
Defined.

(** X21.  Every pass of the [do] loop of the search that is repeated has
    read a draw: a generation of two tours or more shuffles them, and a
    population of one tour is never improved.  So the search makes no more
    passes than it is given draws, and counting more passes than that
    changes nothing. *)
Theorem search_passes_bounded (n_stop : nat) (p_mutate : float) (depth : nat)
    (pop : Population) (n : Z) (rs : list Z) (extra : nat) :
  (best <- lift (fittest (tours pop)) ;;
   st <- search_loop (length rs + extra) n_stop p_mutate depth
           (mkSearch pop (_length best) n) ;;
   ret (population st, n_generations st)) rs
  = search n_stop p_mutate depth pop n rs.
Proof.
  unfold search, bind.
  destruct (lift (fittest (tours pop)) rs) as [[best rs1] | |] eqn:E;
    try reflexivity.
  apply lift_Ok in E as [Hbest ->].
  rewrite search_loop_enough; [reflexivity |].
  intros t Ht. simpl in Ht |- *. rewrite Ht in Hbest.
  injection Hbest as <-. apply FloatOrder.ltb_irrefl.
Qed.

(** X22.  The search never makes the fittest tour longer: on a population
    whose cached lengths are fresh, the fittest tour of the population it
    leaves is at most as long as the fittest tour it started from, and the
    cached lengths are fresh again. *)
Theorem search_never_worse (n_stop : nat) (p_mutate : float) (depth : nat)
    (pop pop' : Population) (n n' : Z) (rs rs' : list Z) :
  (Z.of_nat n_stop < 2 ^ 32)%Z ->
  Forall (cache_ok (map pop)) (tours pop) ->
  search n_stop p_mutate depth pop n rs = Ok ((pop', n'), rs') ->
  Forall (cache_ok (map pop')) (tours pop')
  /\ exists old new,
       fittest (tours pop) = Some old /\ fittest (tours pop') = Some new
       /\ (_length new <=? _length old)%float = true.
Proof.
  intros Hn Hcache H.
  destruct (search_generations _ _ _ _ _ _ _ _ _ Hn H) as (k & _ & Hgen & _).
  destruct (generations_never_worse _ _ _ _ _ _ _ Hcache Hgen) as [Hcache' Hworse].
  split; [exact Hcache' |].
  unfold search in H. apply bind_Ok in H as (old & rs1 & Hold & _).
  apply lift_Ok in Hold as [Hold _].
  assert (Hne : tours pop' <> []).
  { destruct (generations_Ok _ _ _ _ _ _ _ Hgen) as [Hlen _].
    intros E. rewrite E in Hlen. destruct (tours pop); [discriminate Hold |].
    discriminate Hlen. }
  destruct (max_element_spec _ Hne) as (new & Hnew & _).
  fold (fittest (tours pop')) in Hnew.
  exists old, new. repeat (split; [assumption |]).
  apply FloatOrder.not_ltb_leb; [| | exact (Hworse old new Hold Hnew)].
  - apply (cache_number (map pop')).
    rewrite Forall_forall in Hcache'. apply Hcache'.
    exact (nth_error_In _ _ Hnew).
  - apply (cache_number (map pop)).
    rewrite Forall_forall in Hcache. apply Hcache.
    exact (nth_error_In _ _ Hold).
Qed.

Lemma search_never_worse_witness :
  Forall (cache_ok (map (mkPopulation unit_square [around; around])))
    (tours (mkPopulation unit_square [around; around]))
  /\ exists old new,
       fittest (tours pair_across) = Some old
       /\ fittest (tours (mkPopulation unit_square [around; around])) = Some new
       /\ (_length new <=? _length old)%float = true.
Proof.
  apply (search_never_worse 1 1 1 pair_across _ 0 2
           [0; 0; 0; 0; 0; 0; 0; 0; 0; 0; 0; 0; 5]%Z [5%Z]).
  - reflexivity.
  - repeat constructor.
  - vm_compute. reflexivity.
Defined.

(** ** The calls of [tourToBMP] *)

Lemma last_cons {A} (a : A) (l : list A) (d d' : A) :
  last (a :: l) d = last (a :: l) d'.
Proof.
  revert a. induction l as [| b l IH]; intros a; [reflexivity |].
  change (last (b :: l) d = last (b :: l) d'). apply IH.
Qed.

Lemma last_shift {A} (a : A) (l : list A) (d : A) :
  last (a :: l) d = last l a.
Proof.
  destruct l as [| b l]; [reflexivity |].
  change (last (b :: l) d = last (b :: l) a). apply last_cons.
Qed.

Lemma polyline_app (from : City) (stops : list City) (c : City) :
  polyline from (stops ++ [c])
  = polyline from stops
    ++ [line_segment (x (last stops from)) (y (last stops from)) (x c) (y c)].
Proof.
  revert from. induction stops as [| s stops IH]; intros from; [reflexivity |].
  cbn [app polyline]. rewrite IH. do 2 f_equal.
  destruct stops as [| s' stops]; [reflexivity |].
  change (last (s :: s' :: stops) from) with (last (s' :: stops) from).
  rewrite (last_cons s' stops s from). reflexivity.
Qed.

Lemma polyline_length (stops : list City) : forall from,
  length (polyline from stops) = length stops.
Proof.
  induction stops as [| s stops IH]; intros from; simpl; [| rewrite IH];
    reflexivity.
Qed.

Lemma skipn_nth {A} (l : list A) : forall i c,
  nth_error l i = Some c -> skipn i l = c :: skipn (S i) l.
Proof.
  induction l as [| a l IH]; intros [| i] c H; try discriminate H.
  - injection H as ->. reflexivity.
  - exact (IH i c H).
Qed.

Section Picture.
Variables (m : Map) (tour : list nat).
Hypothesis Hrange : Forall (fun c => c < size m) tour.

Lemma city_of_stop (i c : nat) :
  nth_error tour i = Some c -> city_of m tour i = Some (city_nth m c).
Proof.
  intros H. unfold city_of, city_nth. rewrite H. apply nth_error_nth'.
  rewrite Forall_forall in Hrange. apply Hrange.
  exact (nth_error_In _ _ H).
Qed.

Lemma draw_path_polyline : forall todo i c,
  nth_error tour i = Some c -> i + todo < length tour ->
  draw_path m tour i todo
  = Some (polyline (city_nth m c)
            (List.map (city_nth m) (firstn todo (skipn (S i) tour)))).
Proof.
  induction todo as [| todo IH]; intros i c Hc Hi; cbn [draw_path].
  - reflexivity.
  - destruct (nth_error tour (S i)) as [c' |] eqn:Hc';
      [| apply nth_error_None in Hc'; lia].
    rewrite (city_of_stop _ _ Hc), (city_of_stop _ _ Hc').
    rewrite (IH (S i) c' Hc') by lia.
    rewrite (skipn_nth _ _ _ Hc'). reflexivity.
Qed.

End Picture.

Lemma map_nth_seq {A} (l : list A) (d : A) :
  List.map (fun c => nth c l d) (seq 0 (length l)) = l.
Proof.
  induction l as [| a l IH]; [reflexivity |].
  cbn [length seq List.map nth]. f_equal.
  rewrite <- seq_shift, map_map. exact IH.
Qed.

(** X23.  The picture of a tour of the map.  [tourToBMP] draws a closed
    path: as many line segments as the map has cities, each starting where
    the one before it ended, the first starting at the first city of the
    map and the last ending there, and every city of the map the start of
    exactly one of them; then it draws one circle of radius 5 at every city
    of the map. *)
Theorem tourToBMP_closed_path (m : Map) (tour : Tour)
    (file_name : String.string) :
  is_tour (size m) (itinerary tour) ->
  exists first rest,
    nth_error (cities m) 0 = Some first
    /\ Permutation (cities m) (first :: rest)
    /\ length (polyline first (rest ++ [first])) = size m
    /\ tourToBMP tour m file_name
       = Some ([bitmap_image (_width m) (_height m);
                set_all_channels 255 255 255; image_drawer;
                pen_width 2; pen_color 0 0 0]
               ++ polyline first (rest ++ [first])
               ++ [pen_color 255 150 50]
               ++ List.map (fun c => circle (x c) (y c) 5) (cities m)
               ++ [save_image file_name]).
Proof.
  intros Ht.
  assert (Hrange : Forall (fun c => c < size m) (itinerary tour)).
  { apply Forall_forall. intros c Hc. exact (proj1 (tour_In _ _ Ht c) Hc). }
  pose proof (tour_start _ _ Ht) as H0.
  pose proof (tour_length _ _ Ht) as Hlen.
  assert (HP : Permutation (cities m) (List.map (city_nth m) (itinerary tour))).
  { rewrite <- (map_nth_seq (cities m) (mkCity 0 0)) at 1.
    apply Permutation_map. exact (proj1 Ht). }
  unfold tourToBMP.
  destruct (itinerary tour) as [| c0 rest] eqn:E; [discriminate H0 |].
  injection H0 as ->.
  exists (city_nth m 0), (List.map (city_nth m) rest).
  split.
  { unfold city_nth. apply nth_error_nth'.
    simpl in Hlen. unfold size in Hlen. lia. }
  split; [exact HP |].
  split.
  { rewrite polyline_length, length_app, length_map. simpl in Hlen |- *. lia. }
  rewrite (draw_path_polyline m (0 :: rest) Hrange (length rest) 0 0 eq_refl)
    by (simpl; lia).
  cbn [skipn]. rewrite firstn_all.
  destruct (nth_error (0 :: rest) (length rest)) as [cl |] eqn:Hcl;
    [| apply nth_error_None in Hcl; simpl in Hcl; lia].
  rewrite (city_of_stop m (0 :: rest) Hrange _ _ Hcl).
  rewrite (city_of_stop m (0 :: rest) Hrange 0 0 eq_refl).
  rewrite polyline_app.
  assert (Hlast : last (List.map (city_nth m) rest) (city_nth m 0)
                  = city_nth m cl).
  { rewrite <- (last_shift (city_nth m 0) (List.map (city_nth m) rest)
                  (city_nth m 0)).
    change (city_nth m 0 :: List.map (city_nth m) rest)
      with (List.map (city_nth m) (0 :: rest)).
    clear - Hcl.
    assert (Hl : nth_error (0 :: rest) (length (0 :: rest) - 1) = Some cl).
    { simpl. rewrite Nat.sub_0_r. exact Hcl. }
    revert Hl. generalize (0 :: rest). intros l.
    induction l as [| a l IH]; [discriminate |].
    destruct l as [| b l]; [intros H; injection H as <-; reflexivity |].
    intros H.
    change (last (List.map (city_nth m) (b :: l)) (city_nth m 0) = city_nth m cl).
    apply IH. simpl in H |- *. rewrite Nat.sub_0_r. exact H. }
  rewrite Hlast. rewrite <- !app_assoc. reflexivity.
Qed.

Lemma tourToBMP_closed_path_witness :
  exists first rest,
    nth_error (cities unit_square) 0 = Some first
    /\ Permutation (cities unit_square) (first :: rest)
    /\ length (polyline first (rest ++ [first])) = size unit_square
    /\ tourToBMP across unit_square String.EmptyString
       = Some ([bitmap_image (_width unit_square) (_height unit_square);
                set_all_channels 255 255 255; image_drawer;
                pen_width 2; pen_color 0 0 0]
               ++ polyline first (rest ++ [first])
               ++ [pen_color 255 150 50]
               ++ List.map (fun c => circle (x c) (y c) 5) (cities unit_square)
               ++ [save_image String.EmptyString]).
Proof.
  apply (tourToBMP_closed_path unit_square across String.EmptyString).
  apply is_tourb_sound. reflexivity.
Defined.

Lemma draw_path_Some (m : Map) (tour : list nat) : forall todo i path,
  draw_path m tour i todo = Some path ->
  forall k, i <= k < i + todo -> city_of m tour k <> None.
Proof.
  induction todo as [| todo IH]; intros i path H k Hk; [lia |].
  cbn [draw_path] in H.
  destruct (city_of m tour i) as [a |] eqn:Ha; [| discriminate H].
  destruct (city_of m tour (S i)) as [b |]; [| discriminate H].
  destruct (draw_path m tour (S i) todo) as [rest |] eqn:Hrest; [| discriminate H].
  destruct (Nat.eq_dec k i) as [-> | Hne]; [congruence |].
  apply (IH (S i) rest Hrest). lia.
Qed.

(** X24.  [tourToBMP] is defined exactly on the tours that are not empty
    and name cities of the map only; the calls it then makes on the bitmap
    library number [7 + tour.size() + map.size()]. *)
Theorem tourToBMP_defined (m : Map) (tour : Tour) (file_name : String.string) :
  ((exists calls, tourToBMP tour m file_name = Some calls)
   <-> itinerary tour <> [] /\ Forall (fun c => c < size m) (itinerary tour))
  /\ forall calls,
       tourToBMP tour m file_name = Some calls ->
       length calls = 7 + length (itinerary tour) + size m.
Proof.
  split; [split |].
  - intros [calls H]. unfold tourToBMP in H.
    destruct (itinerary tour) as [| c0 rest] eqn:E; [discriminate H |].
    split; [discriminate |].
    destruct (draw_path m (c0 :: rest) 0 (length rest)) as [path |] eqn:Hpath;
      [| discriminate H].
    destruct (city_of m (c0 :: rest) (length rest)) as [a |] eqn:Ha;
      [| discriminate H].
    apply Forall_forall. intros c Hc.
    apply In_nth_error in Hc as [k Hk].
    assert (Hlt : k < length (c0 :: rest)) by (apply nth_error_Some; congruence).
    assert (Hcity : city_of m (c0 :: rest) k <> None).
    { destruct (Nat.eq_dec k (length rest)) as [-> | Hne]; [congruence |].
      apply (draw_path_Some _ _ _ _ _ Hpath). simpl in Hlt. lia. }
    unfold city_of in Hcity. rewrite Hk in Hcity.
    apply nth_error_Some in Hcity. exact Hcity.
  - intros [Hne Hrange]. unfold tourToBMP.
    destruct (itinerary tour) as [| c0 rest] eqn:E; [congruence |].
    rewrite (draw_path_polyline m (c0 :: rest) Hrange (length rest) 0 c0 eq_refl)
      by (simpl; lia).
    destruct (nth_error (c0 :: rest) (length rest)) as [cl |] eqn:Hcl;
      [| apply nth_error_None in Hcl; simpl in Hcl; lia].
    rewrite (city_of_stop m (c0 :: rest) Hrange _ _ Hcl).
    rewrite (city_of_stop m (c0 :: rest) Hrange 0 c0 eq_refl).
    eexists. reflexivity.
  - intros calls H. unfold tourToBMP in H.
    destruct (itinerary tour) as [| c0 rest] eqn:E; [discriminate H |].
    destruct (draw_path m (c0 :: rest) 0 (length rest)) as [path |] eqn:Hpath;
      [| discriminate H].
    destruct (city_of m (c0 :: rest) (length rest)) as [a |]; [| discriminate H].
    destruct (city_of m (c0 :: rest) 0) as [b |]; [| discriminate H].
    injection H as <-.
    assert (Hlen : forall todo i p,
               draw_path m (c0 :: rest) i todo = Some p -> length p = todo).
    { induction todo as [| todo IH]; intros i p Hp; cbn [draw_path] in Hp.
      - injection Hp as <-. reflexivity.
      - destruct (city_of m (c0 :: rest) i); [| discriminate Hp].
        destruct (city_of m (c0 :: rest) (S i)); [| discriminate Hp].
        destruct (draw_path m (c0 :: rest) (S i) todo) as [p' |] eqn:Hp';
          [| discriminate Hp].
        injection Hp as <-. simpl. f_equal. exact (IH _ _ Hp'). }
    cbn [app length]. rewrite !length_app. cbn [app length].
    rewrite !length_app, length_map, (Hlen _ _ _ Hpath).
    unfold size. cbn [length]. lia.
Qed.
